(** * Coffee roulette: balanced groups with role quotas

    A shallow embedding of the allocation core of [script.js]
    ([shuffleInPlace], [computeGroupSizes], [computeRoleTargets],
    [allocateGroups]) together with the properties of its specification,
    and of the code around the core: [parseRoster], [renderResults],
    [buildDownload] with [csvEscape], and the handlers [onGenerate] and
    [onClear].

    Conventions of the embedding.
    - JavaScript numbers that hold counts are integers here ([nat] where the
      source can only produce a non-negative count, [Z] where a difference
      may go below zero).  Quotients that the source computes in double
      precision ([n / desiredGroupSize], [sizes[i] * totalR / n]) are exact
      rationals ([Q]).  On quotients of two integers below 2^51 a double has
      the floor and the nearest integer of the exact quotient, so for a
      desired size that is an integer (the caller parses it with [parseInt])
      and a roster of fewer than 2^25 people the floors and the number of
      groups are those of the source.  The remainders [q - f] of the source
      are rounded; they only decide in which order cells are bumped, and the
      sum invariants are proved for every order and every table of
      remainders ([exact_for_every_order]).
    - [Math.random] is an explicit source of numbers that is threaded through
      every function that draws from it.
    - A [throw] is a value of [outcome]; a loop that may run forever takes
      fuel and answers [None] when the fuel is used up.
    - A string is a [string] of code units below 256.  White space, for
      [trim] and [parseInt], is what JavaScript counts as white space in
      that range: the code units 9 to 13, 32 and 160.
    - The page is a record [page]: the properties of the elements that the
      handlers read and write, the variable [lastObjectUrl], and the part
      of the browser behind [URL.createObjectURL], [URL.revokeObjectURL]
      and [setTimeout].  An object URL is a number that was not handed out
      before, so every URL is a truthy value as in a browser.  The message
      of the [TypeError] that line 176 can raise depends on the engine and
      is a variable of the handlers. *)

From Stdlib Require Import ZArith QArith Qround Lia Lqa Ascii String DecimalString.
From stdpp Require Import list strings.

Local Open Scope nat_scope.

(** ** Errors and outcomes *)

(** The [Error] objects the source throws, by the place that throws them. *)
Inductive error : Type :=
  | GroupSizeError                 (* 'Group Size must be at least 2.' *)
  | InsufficientPeople (r : string)(* 'Internal error: insufficient people with role ...' *)
  | GroupSizesMismatch             (* 'Internal allocation error: group sizes do not match targets.' *)
  | NotAllAssigned                 (* 'Internal allocation error: not all people were assigned exactly once.' *)
  | PushTypeError.                 (* TypeError: byRole[person.role].push is not a function *)

Inductive outcome (A : Type) : Type :=
  | Ok (a : A)
  | Throw (e : error).
Arguments Ok {A} a.
Arguments Throw {A} e.

(** ** The value handed over as desired group size *)

Inductive jsvalue : Type :=
  | JNumber (q : Q)              (* a finite number *)
  | JInfinity (negative : bool)  (* Infinity, -Infinity *)
  | JNaN
  | JNotNumber.                  (* a string, undefined, an object, ... *)

(** [Number.isFinite]: no coercion, true on finite numbers only. *)
Definition Number_isFinite (v : jsvalue) : bool :=
  match v with JNumber _ => true | _ => false end.

(** [v < 2] for a value that is a number; any comparison with NaN is false. *)
Definition lessThanTwo (v : jsvalue) : bool :=
  match v with
  | JNumber q => negb (Qle_bool 2 q)
  | JInfinity negative => negative
  | JNaN | JNotNumber => false
  end.

(** [Math.round]: the nearest integer, a tie going towards +Infinity. *)
Definition Math_round (x : Q) : Z := Qfloor (x + (1 # 2))%Q.

(** ** GroupSizer *)

(** Line 72: [Math.max(1, Math.round(n / desiredGroupSize))]. *)
Definition groupCount (n : nat) (q : Q) : nat :=
  Z.to_nat (Z.max 1 (Math_round (inject_Z (Z.of_nat n) / q)%Q)).

(** Lines 67-77; [n] is [people.length]. *)
Definition computeGroupSizes (n : nat) (desiredGroupSize : jsvalue)
  : outcome (list nat) :=
  if negb (Number_isFinite desiredGroupSize) || lessThanTwo desiredGroupSize
  then Throw GroupSizeError
  else
    match desiredGroupSize with
    | JNumber q =>
        let g := groupCount n q in
        let base := n / g in
        let remainder := n - base * g in
        Ok (map (fun i => base + (if i <? remainder then 1 else 0)) (seq 0 g))
    | _ => Throw GroupSizeError
    end.

(** ** Objects with string keys

    An object is the list of its own properties in insertion order.
    [Object.keys] and [for ... in] list the keys that are array indices
    first, in ascending numeric order, and then the other keys in insertion
    order. *)

Definition obj (V : Type) : Type := list (string * V).

(** [o[k]] for own properties, and [o[k] = v]. *)
Fixpoint objGet {V} (o : obj V) (k : string) : option V :=
  match o with
  | [] => None
  | (k', v) :: o' => if String.eqb k' k then Some v else objGet o' k
  end.

Fixpoint objSet {V} (o : obj V) (k : string) (v : V) : obj V :=
  match o with
  | [] => [(k, v)]
  | (k', v') :: o' =>
      if String.eqb k' k then (k', v) :: o' else (k', v') :: objSet o' k v
  end.

(** The value of a decimal digit, and of a string of decimal digits. *)
Definition digitOf (c : ascii) : option N :=
  let n := N_of_ascii c in
  if ((48 <=? n) && (n <=? 57))%N then Some (n - 48)%N else None.

Fixpoint decimal (s : string) (acc : N) : option N :=
  match s with
  | EmptyString => Some acc
  | String c s' =>
      match digitOf c with
      | Some d => decimal s' (acc * 10 + d)%N
      | None => None
      end
  end.

(** A key is an array index when it is the canonical decimal form of an
    integer between 0 and 2^32 - 2. *)
Definition arrayIndex (k : string) : option N :=
  match k with
  | EmptyString => None
  | String c rest =>
      if Ascii.eqb c "0" && negb (String.eqb rest EmptyString) then None
      else
        match decimal k 0 with
        | Some v => if (v <=? 4294967294)%N then Some v else None
        | None => None
        end
  end.

(** Stable insertion sort; [goesAfter x y] says that [x] must come after
    [y].  Elements that neither must come after the other keep their order,
    which is what [Array.prototype.sort] guarantees. *)
Fixpoint insertSorted {A} (goesAfter : A -> A -> bool) (x : A) (l : list A)
  : list A :=
  match l with
  | [] => [x]
  | y :: l' =>
      if goesAfter x y then y :: insertSorted goesAfter x l' else x :: l
  end.

Definition stableSort {A} (goesAfter : A -> A -> bool) (l : list A) : list A :=
  foldr (insertSorted goesAfter) [] l.

(** The keys that are array indices, each with its number. *)
Definition indexedKeys (ks : list string) : list (N * string) :=
  omap (fun k => match arrayIndex k with
                 | Some v => Some (v, k)
                 | None => None
                 end) ks.

(** The other keys. *)
Definition isNamedKey (k : string) : bool :=
  match arrayIndex k with Some _ => false | None => true end.

(** The order in which the own keys [ks], given in insertion order, are
    listed. *)
Definition ownKeysOrder (ks : list string) : list string :=
  map snd (stableSort (fun x y => (fst y <? fst x)%N) (indexedKeys ks))
  ++ List.filter isNamedKey ks.

(** [Object.keys(o)], also the order of [for (const k in o)]. *)
Definition Object_keys {V} (o : obj V) : list string :=
  ownKeysOrder (map fst o).

(** [Object.fromEntries]: the entries are defined one after the other. *)
Definition Object_fromEntries {V} (entries : list (string * V)) : obj V :=
  fold_left (fun o e => objSet o (fst e) (snd e)) entries [].

(** The property names every object literal inherits from
    [Object.prototype]; reading one of them from an object that has no own
    property of that name yields the inherited member. *)
Definition inheritedName (k : string) : bool :=
  existsb (String.eqb k)
    ["constructor"; "__proto__"; "hasOwnProperty"; "isPrototypeOf";
     "propertyIsEnumerable"; "toLocaleString"; "toString"; "valueOf";
     "__defineGetter__"; "__defineSetter__"; "__lookupGetter__";
     "__lookupSetter__"]%string.

(** ** Random source and [shuffleInPlace] *)

(** [Math.floor(Math.random() * bound)]: the next number of the source,
    brought into [0, bound).  A source that has run dry keeps answering 0. *)
Definition randomBelow (bound : nat) (src : list nat) : nat * list nat :=
  match src with
  | [] => (0, [])
  | u :: src' => (u mod bound, src')
  end.

(** [[arr[i], arr[j]] = [arr[j], arr[i]]], both indices in range. *)
Definition swap {A} (arr : list A) (i j : nat) : list A :=
  match arr !! i, arr !! j with
  | Some a, Some b => <[j := a]> (<[i := b]> arr)
  | _, _ => arr
  end.

(** The loop [for (let i = arr.length - 1; i > 0; i--)], entered at [i]. *)
Fixpoint shuffleLoop {A} (i : nat) (arr : list A) (src : list nat)
  : list A * list nat :=
  match i with
  | 0 => (arr, src)
  | S i' =>
      let (j, src') := randomBelow (i + 1) src in
      shuffleLoop i' (swap arr i j) src'
  end.

(** Lines 59-65: the shuffled array and what is left of the source. *)
Definition shuffleInPlace {A} (arr : list A) (src : list nat)
  : list A * list nat :=
  shuffleLoop (length arr - 1) arr src.

(** ** QuotaApportioner *)

(** An element of [pairs]: [{ i, r, rem }]. *)
Record pair : Type := mkPair { pair_i : nat; pair_r : string; pair_rem : Q }.

(** The counters the apportioner updates: [targets], [extras], [deficits]. *)
Record quota : Type := mkQuota {
  targets : obj (list Z);
  extras : obj Z;
  deficits : list Z
}.

(** What [computeRoleTargets] returns: the table, or, when the capacities
    sum to zero and every quotient is [0 / 0], a table whose [g] cells per
    role are all NaN. *)
Inductive roleTargets : Type :=
  | Targets (t : obj (list Z))
  | NaNTargets (roles : list string) (g : nat).

(** [targets[r][i]], [remainders[r][i]] and [extras[r]].  The indices the
    source uses are always in range: [r] is one of [roles] and [i < g]. *)
Definition cell (t : obj (list Z)) (r : string) (i : nat) : Z :=
  default [] (objGet t r) !!! i.

Definition cellQ (t : obj (list Q)) (r : string) (i : nat) : Q :=
  nth i (default [] (objGet t r)) 0%Q.

Definition extraOf (e : obj Z) (r : string) : Z := default 0%Z (objGet e r).

(** [targets[r][i] += 1; extras[r] -= 1; deficits[i] -= 1]. *)
Definition bump (st : quota) (r : string) (i : nat) : quota :=
  {| targets :=
       objSet (targets st) r
         (<[i := (cell (targets st) r i + 1)%Z]> (default [] (objGet (targets st) r)));
     extras := objSet (extras st) r (extraOf (extras st) r - 1)%Z;
     deficits := <[i := (deficits st !!! i - 1)%Z]> (deficits st) |}.

(** [(sizes[i] * totalR) / n]. *)
Definition idealQuota (size totalR n : nat) : Q :=
  (inject_Z (Z.of_nat (size * totalR)) / inject_Z (Z.of_nat n))%Q.

(** The inner loop of lines 96-102 for one role: floors, fractional
    remainders and the running sum of the floors. *)
Definition floorsLoop (sizes : list nat) (totalR n : nat) (idxs : list nat)
    (init : list Z * list Q * Z) : list Z * list Q * Z :=
  fold_left
    (fun '(rowT, rowR, sumFloors) i =>
       let q := idealQuota (sizes !!! i) totalR n in
       let f := Qfloor q in
       (<[i := f]> rowT, <[i := (q - inject_Z f)%Q]> rowR, (sumFloors + f)%Z))
    idxs init.

(** Lines 93-104. *)
Definition floorsPass (sizes : list nat) (countsByRole : obj nat) (n : nat)
    (roles : list string) (init : obj (list Z) * obj (list Q) * obj Z)
  : obj (list Z) * obj (list Q) * obj Z :=
  fold_left
    (fun '(tg, rm, ex) r =>
       let totalR := default 0 (objGet countsByRole r) in
       let '(rowT, rowR, sumFloors) :=
         floorsLoop sizes totalR n (seq 0 (length sizes))
           (default [] (objGet tg r), default [] (objGet rm r), 0%Z) in
       (objSet tg r rowT, objSet rm r rowR,
        objSet ex r (Z.of_nat totalR - sumFloors)%Z))
    roles init.

(** [roles.reduce((acc, r) => acc + targets[r][i], 0)]. *)
Definition filled (tg : obj (list Z)) (roles : list string) (i : nat) : Z :=
  fold_left (fun acc r => (acc + cell tg r i)%Z) roles 0%Z.

(** Lines 107-110. *)
Definition deficitsPass (sizes : list nat) (tg : obj (list Z))
    (roles : list string) (init : list Z) : list Z :=
  fold_left
    (fun d i => <[i := (Z.of_nat (sizes !!! i) - filled tg roles i)%Z]> d)
    (seq 0 (length sizes)) init.

(** Lines 114-119. *)
Definition allPairs (roles : list string) (g : nat) (rm : obj (list Q))
  : list pair :=
  flat_map (fun r => map (fun i => mkPair i r (cellQ rm r i)) (seq 0 g)) roles.

(** [pairs.sort((a, b) => b.rem - a.rem)]: [a] goes after [b] when
    [b.rem - a.rem > 0]. *)
Definition sortPairs (pairs : list pair) : list pair :=
  stableSort (fun a b => negb (Qle_bool (pair_rem b) (pair_rem a))) pairs.

(** Lines 124-130. *)
Definition walkPairs (pairs : list pair) (st : quota) : quota :=
  fold_left
    (fun st p =>
       if (extraOf (extras st) (pair_r p) <=? 0)%Z then st
       else if (deficits st !!! pair_i p <=? 0)%Z then st
       else bump st (pair_r p) (pair_i p))
    pairs st.

(** [deficits.reduce((a, b) => a + b, 0)]. *)
Definition sumZ (l : list Z) : Z := fold_left Z.add l 0%Z.

(** [roles.reduce((acc, r) => acc + extras[r], 0)]. *)
Definition totalExtras (ex : obj Z) (roles : list string) : Z :=
  fold_left (fun acc r => (acc + extraOf ex r)%Z) roles 0%Z.

(** Lines 142-149: one role of the loop that looks for the best role of
    group [i]. *)
Definition considerRole (rm : obj (list Q)) (ex : obj Z) (i : nat)
    (best : option string * Q * Z) (r : string) : option string * Q * Z :=
  let '(bestRole, bestRem, bestExtras) := best in
  if (0 <? extraOf ex r)%Z then
    let rem := cellQ rm r i in
    if negb (Qle_bool rem bestRem)
       || (Qeq_bool rem bestRem && (bestExtras <? extraOf ex r)%Z)
    then (Some r, rem, extraOf ex r)
    else (bestRole, bestRem, bestExtras)
  else (bestRole, bestRem, bestExtras).

(** Lines 138-150: the best role for group [i], with the remainder and the
    extras it was chosen at. *)
Definition pickBest (roles : list string) (rm : obj (list Q)) (ex : obj Z)
    (i : nat) : option string * Q * Z :=
  fold_left (considerRole rm ex i) roles (None, (-1)%Q, (-1)%Z).

(** [!bestRole]: true on [null] and on the empty string. *)
Definition falsyRole (bestRole : option string) : bool :=
  match bestRole with
  | None => true
  | Some r => String.eqb r EmptyString
  end.

(** The loop [while (deficits[i] > 0)] of lines 137-156.  Every round that
    does not leave the loop lowers [deficits[i]] by one, so [count] rounds
    are enough when [count] starts at [deficits[i]]. *)
Fixpoint fillDeficit (count : nat) (roles : list string) (rm : obj (list Q))
    (i : nat) (st : quota) (remainingDeficit : Z) : quota * Z :=
  match count with
  | 0 => (st, remainingDeficit)
  | S count' =>
      if (0 <? deficits st !!! i)%Z then
        match pickBest roles rm (extras st) i with
        | (bestRole, _, _) =>
            if falsyRole bestRole then (st, remainingDeficit)
            else
              fillDeficit count' roles rm i
                (bump st (default EmptyString bestRole) i)
                (remainingDeficit - 1)%Z
        end
      else (st, remainingDeficit)
  end.

(** The loop [for (let i = 0; i < g && remainingDeficit > 0; i++)]. *)
Fixpoint fillGroups (idxs : list nat) (roles : list string) (rm : obj (list Q))
    (st : quota) (remainingDeficit : Z) : quota * Z :=
  match idxs with
  | [] => (st, remainingDeficit)
  | i :: idxs' =>
      if (0 <? remainingDeficit)%Z then
        let (st', remaining') :=
          fillDeficit (Z.to_nat (deficits st !!! i)) roles rm i st
            remainingDeficit in
        fillGroups idxs' roles rm st' remaining'
      else (st, remainingDeficit)
  end.

(** The loop [while (remainingDeficit > 0)] of lines 135-162; [None] when
    the fuel does not reach the end of the loop. *)
Fixpoint residualPass (fuel : nat) (roles : list string) (g : nat)
    (rm : obj (list Q)) (st : quota) (remainingDeficit : Z) : option quota :=
  if (0 <? remainingDeficit)%Z then
    match fuel with
    | 0 => None
    | S fuel' =>
        let (st', _) := fillGroups (seq 0 g) roles rm st remainingDeficit in
        if (totalExtras (extras st') roles =? 0)%Z then Some st'
        else residualPass fuel' roles g rm st' (sumZ (deficits st'))
    end
  else Some st.

(** The state after the floors, the deficits and the walk over the sorted
    pairs (lines 83-130), with the remainders and what is left of the
    random source. *)
Definition largestRemainders (sizes : list nat) (countsByRole : obj nat)
    (src : list nat) : quota * obj (list Q) * list nat :=
  let roles := Object_keys countsByRole in
  let g := length sizes in
  let n := fold_left Nat.add sizes 0 in
  let targets0 := Object_fromEntries (map (fun r => (r, replicate g 0%Z)) roles) in
  let remainders0 := Object_fromEntries (map (fun r => (r, replicate g 0%Q)) roles) in
  let extras0 := Object_fromEntries (map (fun r => (r, 0%Z)) roles) in
  let deficits0 := replicate g 0%Z in
  let '(tg, rm, ex) :=
    floorsPass sizes countsByRole n roles (targets0, remainders0, extras0) in
  let df := deficitsPass sizes tg roles deficits0 in
  let (pairs, src') := shuffleInPlace (allPairs roles g rm) src in
  (walkPairs (sortPairs pairs) (mkQuota tg ex df), rm, src').

(** Lines 82-165.  [None] when the fuel does not reach the end of the
    residual loop. *)
Definition computeRoleTargets (fuel : nat) (sizes : list nat)
    (countsByRole : obj nat) (src : list nat)
  : option (roleTargets * list nat) :=
  let roles := Object_keys countsByRole in
  let g := length sizes in
  let n := fold_left Nat.add sizes 0 in
  let '(st, rm, src') := largestRemainders sizes countsByRole src in
  if (n =? 0) && negb (g =? 0) && negb (length roles =? 0)
  then Some (NaNTargets roles g, src')
  else
    match residualPass fuel roles g rm st (sumZ (deficits st)) with
    | Some st' => Some (Targets (targets st'), src')
    | None => None
    end.

(** ** Assigner *)

(** An element of the roster: [{ name, role }]. *)
Record person : Type := mkPerson { name : string; role : string }.

(** Lines 174-177 for one person.  [byRole] is an object literal: a role
    that is not an own property but names a member of [Object.prototype]
    reads as that member, which is truthy and has no [push]. *)
Definition addPerson (byRole : obj (list person)) (p : person)
  : outcome (obj (list person)) :=
  match objGet byRole (role p) with
  | Some pool => Ok (objSet byRole (role p) (pool ++ [p]))
  | None =>
      if inheritedName (role p) then Throw PushTypeError
      else Ok (objSet byRole (role p) [p])
  end.

(** Lines 173-177. *)
Fixpoint groupByRole (people : list person) (byRole : obj (list person))
  : outcome (obj (list person)) :=
  match people with
  | [] => Ok byRole
  | p :: people' =>
      match addPerson byRole p with
      | Ok byRole' => groupByRole people' byRole'
      | Throw e => Throw e
      end
  end.

(** [byRole[r] || []]. *)
Definition poolOf (byRole : obj (list person)) (r : string) : list person :=
  default [] (objGet byRole r).

(** Line 178: [for (const role in byRole) shuffleInPlace(byRole[role])]. *)
Definition shufflePools (roles : list string) (byRole : obj (list person))
    (src : list nat) : obj (list person) * list nat :=
  fold_left
    (fun '(byRole, src) r =>
       let (pool, src') := shuffleInPlace (poolOf byRole r) src in
       (objSet byRole r pool, src'))
    roles (byRole, src).

(** The number of rounds of [for (let k = 0; k < need; k++)] with
    [need = roleTargets[r][gi]]; no round when the cell is NaN. *)
Definition needOf (rt : roleTargets) (r : string) (gi : nat) : nat :=
  match rt with
  | Targets t => Z.to_nat (cell t r gi)
  | NaNTargets _ _ => 0
  end.

(** [Object.keys(roleTargets)]. *)
Definition targetRoles (rt : roleTargets) : list string :=
  match rt with
  | Targets t => Object_keys t
  | NaNTargets roles _ => ownKeysOrder roles
  end.

(** [groups[gi].push(x)]. *)
Definition pushTo (groups : list (list person)) (gi : nat) (x : person)
  : list (list person) :=
  <[gi := groups !!! gi ++ [x]]> groups.

(** Lines 193-199: [need] rounds for group [gi], the cursor at [idx]. *)
Fixpoint takeLoop (need : nat) (r : string) (pool : list person) (gi : nat)
    (groups : list (list person)) (idx : nat)
  : outcome (list (list person) * nat) :=
  match need with
  | 0 => Ok (groups, idx)
  | S need' =>
      match pool !! idx with
      | None => Throw (InsufficientPeople r)
      | Some x => takeLoop need' r pool gi (pushTo groups gi x) (idx + 1)
      end
  end.

(** Lines 191-200: the groups in index order, one cursor through the pool. *)
Fixpoint assignRole (rt : roleTargets) (r : string) (pool : list person)
    (gis : list nat) (groups : list (list person)) (idx : nat)
  : outcome (list (list person) * nat) :=
  match gis with
  | [] => Ok (groups, idx)
  | gi :: gis' =>
      match takeLoop (needOf rt r gi) r pool gi groups idx with
      | Ok (groups', idx') => assignRole rt r pool gis' groups' idx'
      | Throw e => Throw e
      end
  end.

(** Lines 188-203: every role of the table, then the consumed people are
    dropped from the role's pool. *)
Fixpoint assignTargets (rt : roleTargets) (roles : list string) (g : nat)
    (byRole : obj (list person)) (groups : list (list person))
  : outcome (list (list person) * obj (list person)) :=
  match roles with
  | [] => Ok (groups, byRole)
  | r :: roles' =>
      let pool := poolOf byRole r in
      match assignRole rt r pool (seq 0 g) groups 0 with
      | Ok (groups', idx) =>
          assignTargets rt roles' g (objSet byRole r (drop idx pool)) groups'
      | Throw e => Throw e
      end
  end.

(** Lines 206-209. *)
Definition collectLeftovers (byRole : obj (list person)) : list person :=
  fold_left
    (fun leftovers r =>
       if length (poolOf byRole r) =? 0 then leftovers
       else leftovers ++ poolOf byRole r)
    (Object_keys byRole) [].

(** Lines 212-214 for one group.  [stack] is [leftovers] read from its end,
    so that [leftovers.pop()] takes the head. *)
Fixpoint fillFromLeftovers (stack : list person) (group : list person)
    (size : nat) : list person * list person :=
  match stack with
  | [] => (group, [])
  | x :: stack' =>
      if length group <? size then fillFromLeftovers stack' (group ++ [x]) size
      else (group, stack)
  end.

(** Lines 211-215. *)
Fixpoint distributeLeftovers (gis : list nat) (sizes : list nat)
    (groups : list (list person)) (stack : list person)
  : list (list person) * list person :=
  match gis with
  | [] => (groups, stack)
  | gi :: gis' =>
      if 0 <? length stack then
        let (group, stack') :=
          fillFromLeftovers stack (groups !!! gi) (sizes !!! gi) in
        distributeLeftovers gis' sizes (<[gi := group]> groups) stack'
      else (groups, stack)
  end.

(** Lines 218-222: is there a group whose length differs from its size? *)
Definition sizesDisagree (g : nat) (groups : list (list person))
    (sizes : list nat) : bool :=
  existsb (fun gi => negb (length (groups !!! gi) =? sizes !!! gi)) (seq 0 g).

(** Line 223. *)
Definition assignedCount (groups : list (list person)) : nat :=
  fold_left (fun acc gr => acc + length gr) groups 0.

(** Lines 229-234; the third column is the group number [gi + 1]. *)
Definition annotate (g : nat) (groups : list (list person))
  : list (string * string * nat) :=
  flat_map (fun gi => map (fun p => (name p, role p, gi + 1)) (groups !!! gi))
    (seq 0 g).

(** Lines 184-236: what [allocateGroups] does once it has the table. *)
Definition assignAndCheck (rt : roleTargets) (sizes : list nat)
    (byRole : obj (list person)) (n : nat) (src : list nat)
  : outcome (list (list person) * list (string * string * nat)) * list nat :=
  let g := length sizes in
  let groups0 := replicate g [] in
  match assignTargets rt (targetRoles rt) g byRole groups0 with
  | Throw e => (Throw e, src)
  | Ok (groups1, byRole') =>
      let (leftovers, src') :=
        shuffleInPlace (collectLeftovers byRole') src in
      let (groups, _) :=
        distributeLeftovers (seq 0 g) sizes groups1 (rev leftovers) in
      if sizesDisagree g groups sizes
      then (Throw GroupSizesMismatch, src')
      else if negb (assignedCount groups =? n)
      then (Throw NotAllAssigned, src')
      else (Ok (groups, annotate g groups), src')
  end.

(** Lines 168-237.  [None] when the fuel does not reach the end of the
    residual loop of [computeRoleTargets]. *)
Definition allocateGroups (fuel : nat) (people : list person)
    (groupSize : jsvalue) (src : list nat)
  : option (outcome (list (list person) * list (string * string * nat))
            * list nat) :=
  let n := length people in
  match computeGroupSizes n groupSize with
  | Throw e => Some (Throw e, src)
  | Ok sizes =>
      match groupByRole people [] with
      | Throw e => Some (Throw e, src)
      | Ok byRole0 =>
          let (byRole, src1) := shufflePools (Object_keys byRole0) byRole0 src in
          let roles := Object_keys byRole in
          let counts :=
            Object_fromEntries (map (fun r => (r, length (poolOf byRole r))) roles) in
          match computeRoleTargets fuel sizes counts src1 with
          | None => None
          | Some (rt, src2) => Some (assignAndCheck rt sizes byRole n src2)
          end
      end
  end.

(** ** Strings

    A string is the sequence of its code units; the embedding covers the
    strings whose code units are below 256, one [ascii] each. *)

Definition TAB : ascii := "009"%char.
Definition LF : ascii := "010"%char.
Definition CR : ascii := "013"%char.
Definition COMMA : ascii := ","%char.
Definition QUOTE : ascii := "034"%char.

(** The code units below 256 that [trim] removes and that [parseInt]
    skips: tab, line feed, vertical tab, form feed, carriage return, space
    and no-break space. *)
Definition isWhiteSpace (c : ascii) : bool :=
  existsb (Ascii.eqb c) ["009"; "010"; "011"; "012"; "013"; " "; "160"]%char.

Fixpoint trimStart (s : string) : string :=
  match s with
  | EmptyString => EmptyString
  | String c rest => if isWhiteSpace c then trimStart rest else s
  end.

Fixpoint trimEnd (s : string) : string :=
  match s with
  | EmptyString => EmptyString
  | String c rest =>
      match trimEnd rest with
      | EmptyString => if isWhiteSpace c then EmptyString else String c EmptyString
      | kept => String c kept
      end
  end.

(** [s.trim()]. *)
Definition trim (s : string) : string := trimEnd (trimStart s).

(** [s.includes(c)] for a string [c] of one code unit. *)
Fixpoint includes (c : ascii) (s : string) : bool :=
  match s with
  | EmptyString => false
  | String c' rest => Ascii.eqb c' c || includes c rest
  end.

(** One more code unit at the front of the piece that is being read. *)
Definition consHead (c : ascii) (pieces : list string) : list string :=
  match pieces with
  | [] => [String c EmptyString]
  | piece :: others => String c piece :: others
  end.

(** [s.split(d)] for a separator [d] of one code unit. *)
Fixpoint splitOn (d : ascii) (s : string) : list string :=
  match s with
  | EmptyString => [EmptyString]
  | String c rest =>
      if Ascii.eqb c d then EmptyString :: splitOn d rest
      else consHead c (splitOn d rest)
  end.

(** [text.split(/\r?\n/)]: a line ends at a line feed, and the carriage
    return just before that line feed belongs to the separator. *)
Fixpoint splitLines (text : string) : list string :=
  match text with
  | EmptyString => [EmptyString]
  | String c rest =>
      if Ascii.eqb c LF then EmptyString :: splitLines rest
      else
        match rest with
        | String c' rest' =>
            if Ascii.eqb c CR && Ascii.eqb c' LF
            then EmptyString :: splitLines rest'
            else consHead c (splitLines rest)
        | EmptyString => [String c EmptyString]
        end
  end.

(** The letter that a pattern with the flag [i] compares: [A]-[Z] match
    [a]-[z], every other code unit below 256 matches itself only. *)
Definition lowerCase (c : ascii) : ascii :=
  let n := nat_of_ascii c in
  if (65 <=? n) && (n <=? 90) then ascii_of_nat (n + 32) else c.

Fixpoint lowerCaseAll (s : string) : string :=
  match s with
  | EmptyString => EmptyString
  | String c rest => String (lowerCase c) (lowerCaseAll rest)
  end.

(** [/^word$/i.test(s)] for a [word] of lower-case letters. *)
Definition isWord (word s : string) : bool := String.eqb (lowerCaseAll s) word.

(** [!s] for a string: true on the empty string. *)
Definition isBlank (s : string) : bool :=
  match s with EmptyString => true | String _ _ => false end.

(** [String(n)] for a count. *)
Definition Number_toString (n : nat) : string :=
  NilZero.string_of_uint (Nat.to_uint n).

(** ** RosterParser (lines 23-56) *)

(** The two errors of [parseRoster]. *)
Inductive rosterError : Type :=
  | NeedTwoPeople             (* 'Need at least 2 people to form groups.' *)
  | LineError (row : nat).    (* `Line ${row}: Name and Role must be non-empty.` *)

Inductive parsed (A : Type) : Type :=
  | Parsed (a : A)
  | ParseThrow (e : rosterError).
Arguments Parsed {A} a.
Arguments ParseThrow {A} e.

(** Lines 24-27: the lines of the text, trimmed, without the empty ones. *)
Definition rosterLines (text : string) : list string :=
  List.filter (fun l => 0 <? String.length l) (map trim (splitLines text)).

(** Line 32. *)
Definition delimiterOf (firstLine : string) : ascii :=
  if includes TAB firstLine then TAB else COMMA.

(** [line.split(delimiter).map((s) => s.trim())]. *)
Definition fieldsOf (delimiter : ascii) (line : string) : list string :=
  map trim (splitOn delimiter line).

(** Lines 35-43: 1 when the first line is a header. *)
Definition headerRows (firstFields : list string) : nat :=
  if (2 <=? length firstFields)
     && isWord "name" (firstFields !!! 0)
     && isWord "role" (firstFields !!! 1)
  then 1 else 0.

(** Lines 46-54: the loop, entered at index [i] with the lines from there
    on.  A line without a second field has [role] undefined. *)
Fixpoint parseRows (delimiter : ascii) (rows : list string) (i : nat)
    (people : list person) : parsed (list person) :=
  match rows with
  | [] => Parsed people
  | line :: rows' =>
      match fieldsOf delimiter line with
      | name :: role :: _ =>
          if isBlank name || isBlank role then ParseThrow (LineError (i + 1))
          else parseRows delimiter rows' (i + 1) (people ++ [mkPerson name role])
      | _ => ParseThrow (LineError (i + 1))
      end
  end.

Definition parseRoster (text : string) : parsed (list person) :=
  let lines := rosterLines text in
  if length lines <? 2 then ParseThrow NeedTwoPeople
  else
    let delimiter := delimiterOf (lines !!! 0) in
    let startIdx := headerRows (fieldsOf delimiter (lines !!! 0)) in
    parseRows delimiter (drop startIdx lines) startIdx [].

(** ** CSV download (lines 269-281) *)

(** What a cell of a row holds when it is not [null] or [undefined]. *)
Inductive csvValue : Type :=
  | CsvText (s : string)
  | CsvNumber (n : nat).

(** [String(value)]. *)
Definition String_of (value : csvValue) : string :=
  match value with
  | CsvText s => s
  | CsvNumber n => Number_toString n
  end.

(** The test of line 274: does [s] hold a quote, a comma or a line feed? *)
Definition needsQuotes (s : string) : bool :=
  includes QUOTE s || includes COMMA s || includes LF s.

(** The replacement of line 275: every quote twice. *)
Fixpoint doubleQuotes (s : string) : string :=
  match s with
  | EmptyString => EmptyString
  | String c rest =>
      if Ascii.eqb c QUOTE then String QUOTE (String QUOTE (doubleQuotes rest))
      else String c (doubleQuotes rest)
  end.

(** Lines 270-278; [None] is a value that is [null] or [undefined]. *)
Definition csvEscape (value : option csvValue) : string :=
  match value with
  | None => EmptyString
  | Some v =>
      let s := String_of v in
      if needsQuotes s
      then String QUOTE (doubleQuotes s +:+ String QUOTE EmptyString)
      else s
  end.

(** [row.map(csvEscape).join(',')] for a row [[name, role, gi + 1]]. *)
Definition csvRow (row : string * string * nat) : string :=
  String.concat ","
    (map csvEscape
       [Some (CsvText row.1.1); Some (CsvText row.1.2); Some (CsvNumber row.2)]).

(** Lines 279-281: the content of the file. *)
Definition csvContent (annotated : list (string * string * nat)) : string :=
  "Name,Role,Group" +:+ String LF EmptyString
  +:+ String.concat (String LF EmptyString) (map csvRow annotated).

(** ** The page: results, messages and the download link *)

(** The value of the longest run of decimal digits at the front of [s];
    [acc] is [None] as long as no digit was read. *)
Fixpoint leadingDigits (s : string) (acc : option N) : option N :=
  match s with
  | EmptyString => acc
  | String c rest =>
      match digitOf c with
      | Some d => leadingDigits rest (Some (default 0%N acc * 10 + d)%N)
      | None => acc
      end
  end.

(** [parseInt(s, 10)]: white space, a sign, then digits; what follows the
    digits is ignored, and without a digit the answer is NaN.  From
    [2^1024 - 2^970] on the nearest double is an infinity; below, the
    integer stands for its nearest double, which it is up to [2^53]. *)
Definition parseInt (s : string) : jsvalue :=
  let s1 := trimStart s in
  let '(negative, s2) :=
    match s1 with
    | String c rest =>
        if Ascii.eqb c "-" then (true, rest)
        else if Ascii.eqb c "+" then (false, rest)
        else (false, s1)
    | EmptyString => (false, s1)
    end in
  match leadingDigits s2 None with
  | None => JNaN
  | Some v =>
      if (2 ^ 1024 - 2 ^ 970 <=? v)%N then JInfinity negative
      else JNumber (inject_Z (if negative then - Z.of_N v else Z.of_N v))
  end.

(** The elements and variables that the handlers read and write, and the
    part of the browser behind [URL.createObjectURL], [URL.revokeObjectURL]
    and [setTimeout].  An object URL is a number; [objectUrls] maps the
    URLs that are not revoked to the content of their blob, [timeouts]
    lists, for every callback of line 300 that has not run yet, the URL it
    was created for. *)
Record page : Type := mkPage {
  errorBox_innerText : string;
  errorBox_display : string;
  csvInput_value : string;
  groupSizeInput_value : string;
  resultsContainer_innerHTML : string;
  downloadLink_display : string;
  downloadLink_href : option nat;
  downloadLink_download : option string;
  downloadLink_onclick : option nat;   (* the URL that the handler of line 299 closes over *)
  lastObjectUrl : option nat;
  objectUrls : list (nat * string);
  nextObjectUrl : nat;
  timeouts : list nat
}.

Definition setError (text display : string) (pg : page) : page :=
  mkPage text display (csvInput_value pg) (groupSizeInput_value pg)
    (resultsContainer_innerHTML pg) (downloadLink_display pg)
    (downloadLink_href pg) (downloadLink_download pg) (downloadLink_onclick pg)
    (lastObjectUrl pg) (objectUrls pg) (nextObjectUrl pg) (timeouts pg).

Definition setInputs (csv size : string) (pg : page) : page :=
  mkPage (errorBox_innerText pg) (errorBox_display pg) csv size
    (resultsContainer_innerHTML pg) (downloadLink_display pg)
    (downloadLink_href pg) (downloadLink_download pg) (downloadLink_onclick pg)
    (lastObjectUrl pg) (objectUrls pg) (nextObjectUrl pg) (timeouts pg).

Definition setResults (html : string) (pg : page) : page :=
  mkPage (errorBox_innerText pg) (errorBox_display pg) (csvInput_value pg)
    (groupSizeInput_value pg) html (downloadLink_display pg)
    (downloadLink_href pg) (downloadLink_download pg) (downloadLink_onclick pg)
    (lastObjectUrl pg) (objectUrls pg) (nextObjectUrl pg) (timeouts pg).

Definition setLink (display : string) (href : option nat)
    (download : option string) (onclick : option nat) (pg : page) : page :=
  mkPage (errorBox_innerText pg) (errorBox_display pg) (csvInput_value pg)
    (groupSizeInput_value pg) (resultsContainer_innerHTML pg) display
    href download onclick
    (lastObjectUrl pg) (objectUrls pg) (nextObjectUrl pg) (timeouts pg).

Definition setUrls (last : option nat) (urls : list (nat * string)) (next : nat)
    (pg : page) : page :=
  mkPage (errorBox_innerText pg) (errorBox_display pg) (csvInput_value pg)
    (groupSizeInput_value pg) (resultsContainer_innerHTML pg)
    (downloadLink_display pg) (downloadLink_href pg) (downloadLink_download pg)
    (downloadLink_onclick pg) last urls next (timeouts pg).

Definition setTimeouts (pending : list nat) (pg : page) : page :=
  mkPage (errorBox_innerText pg) (errorBox_display pg) (csvInput_value pg)
    (groupSizeInput_value pg) (resultsContainer_innerHTML pg)
    (downloadLink_display pg) (downloadLink_href pg) (downloadLink_download pg)
    (downloadLink_onclick pg) (lastObjectUrl pg) (objectUrls pg)
    (nextObjectUrl pg) pending.

(** Lines 12-20. *)
Definition showError (msg : string) (pg : page) : page := setError msg "block" pg.

Definition clearError (pg : page) : page := setError EmptyString "none" pg.

(** [URL.revokeObjectURL(url)]: the URL is no longer live; revoking a URL
    that is not live does nothing. *)
Definition revokeObjectURL (url : nat) (pg : page) : page :=
  setUrls (lastObjectUrl pg)
    (List.filter (fun entry => negb (fst entry =? url)) (objectUrls pg))
    (nextObjectUrl pg) pg.

(** [URL.createObjectURL(blob)]: a URL that was never handed out before. *)
Definition createObjectURL (content : string) (pg : page) : nat * page :=
  let url := nextObjectUrl pg in
  (url, setUrls (lastObjectUrl pg) ((url, content) :: objectUrls pg) (S url) pg).

(** [lastObjectUrl = url]. *)
Definition setLastObjectUrl (last : option nat) (pg : page) : page :=
  setUrls last (objectUrls pg) (nextObjectUrl pg) pg.

(** Lines 248-250: the rows of one group. *)
Definition tableRows (group : list person) : string :=
  String.concat EmptyString
    (map (fun person => "<tr><td>" +:+ name person +:+ "</td><td>"
                        +:+ role person +:+ "</td></tr>") group).

(** Lines 251-261: the panel of group [i]. *)
Definition groupPanel (i : nat) (group : list person) : string :=
  "<article class='panel' style='padding: .75rem; margin-bottom: .75rem;'>"
  +:+ String LF "                <h3 style='margin: .25rem 0 .5rem 0;'>Group "
  +:+ Number_toString (i + 1) +:+ " <small class='muted'>(n="
  +:+ Number_toString (length group) +:+ ")</small></h3>"
  +:+ String LF "                <div style='overflow:auto;'>"
  +:+ String LF "                    <table>"
  +:+ String LF "                        <thead>"
  +:+ String LF "                            <tr><th>Name</th><th>Role</th></tr>"
  +:+ String LF "                        </thead>"
  +:+ String LF "                        <tbody>" +:+ tableRows group +:+ "</tbody>"
  +:+ String LF "                    </table>"
  +:+ String LF "                </div>"
  +:+ String LF "            </article>".

(** Lines 240-266. *)
Definition renderResults (groups : list (list person)) (pg : page) : page :=
  if length groups =? 0
  then setResults "<p class='muted'>No results yet.</p>" pg
  else setResults (String.concat EmptyString (imap groupPanel groups)) pg.

(** Lines 269-305. *)
Definition buildDownload (annotated : list (string * string * nat)) (pg : page)
  : page :=
  let csvContent := csvContent annotated in
  let pg1 :=
    match lastObjectUrl pg with
    | Some old => setLastObjectUrl None (revokeObjectURL old pg)
    | None => pg
    end in
  let (url, pg2) := createObjectURL csvContent pg1 in
  let pg3 := setLastObjectUrl (Some url) pg2 in
  setLink "inline-flex" (Some url) (Some "coffee_roulette_groups.csv"%string)
    (Some url) pg3.

(** The handler of line 299, run by a click on the link: it sets the
    timer. *)
Definition onDownloadClick (pg : page) : page :=
  match downloadLink_onclick pg with
  | Some url => setTimeouts (timeouts pg ++ [url]) pg
  | None => pg
  end.

(** Lines 300-303: the callback of a timer that was set for [url]. *)
Definition onTimeout (url : nat) (pg : page) : page :=
  let pg1 := revokeObjectURL url pg in
  match lastObjectUrl pg1 with
  | Some last => if last =? url then setLastObjectUrl None pg1 else pg1
  | None => pg1
  end.

(** The text of [e.message || String(e)] for what [parseRoster] throws. *)
Definition rosterMessage (e : rosterError) : string :=
  match e with
  | NeedTwoPeople => "Need at least 2 people to form groups."
  | LineError row =>
      "Line " +:+ Number_toString row +:+ ": Name and Role must be non-empty."
  end.

Section handlers.

(** The message of the TypeError of line 176, which the engine words. *)
Variable typeErrorMessage : string.

(** [e.message || String(e)] for what [allocateGroups] throws. *)
Definition errorMessage (e : error) : string :=
  match e with
  | GroupSizeError => "Group Size must be at least 2."
  | InsufficientPeople r =>
      "Internal error: insufficient people with role "
      +:+ String QUOTE (r +:+ String QUOTE ".")
  | GroupSizesMismatch =>
      "Internal allocation error: group sizes do not match targets."
  | NotAllAssigned =>
      "Internal allocation error: not all people were assigned exactly once."
  | PushTypeError =>
      if isBlank typeErrorMessage then "TypeError" else typeErrorMessage
  end.

(** Lines 308-332.  [None] when the fuel does not reach the end of the
    residual loop of [computeRoleTargets]. *)
Definition onGenerate (fuel : nat) (src : list nat) (pg : page)
  : option (page * list nat) :=
  let pg1 := clearError pg in
  let pg2 := setResults EmptyString pg1 in
  let pg3 :=
    setLink "none" None (downloadLink_download pg2) (downloadLink_onclick pg2) pg2 in
  match parseInt (groupSizeInput_value pg3) with
  | JNaN => Some (showError "Group Size must be an integer (e.g., 4)." pg3, src)
  | groupSize =>
      let text := csvInput_value pg3 in
      match parseRoster text with
      | ParseThrow e => Some (showError (rosterMessage e) pg3, src)
      | Parsed roster =>
          match allocateGroups fuel roster groupSize src with
          | None => None
          | Some (Throw e, src') => Some (showError (errorMessage e) pg3, src')
          | Some (Ok (groups, annotated), src') =>
              Some (buildDownload annotated (renderResults groups pg3), src')
          end
      end
  end.

(** Lines 334-345. *)
Definition onClear (pg : page) : page :=
  let pg1 := clearError pg in
  let pg2 := setInputs EmptyString "4" pg1 in
  let pg3 := setResults EmptyString pg2 in
  let pg4 :=
    setLink "none" None (downloadLink_download pg3) (downloadLink_onclick pg3) pg3 in
  match lastObjectUrl pg4 with
  | Some old => setLastObjectUrl None (revokeObjectURL old pg4)
  | None => pg4
  end.

(** What can happen on the page once the handlers are registered. *)
Inductive event : Type :=
  | GenerateClicked (fuel : nat) (src : list nat)
  | ClearClicked
  | CsvEdited (text : string)
  | GroupSizeEdited (text : string)
  | DownloadClicked
  | TimeoutFired (k : nat).   (* the [k]-th of the timers that are set *)

(** One event. *)
Definition step (ev : event) (pg : page) : option page :=
  match ev with
  | GenerateClicked fuel src =>
      match onGenerate fuel src pg with
      | Some (pg', _) => Some pg'
      | None => None
      end
  | ClearClicked => Some (onClear pg)
  | CsvEdited text => Some (setInputs text (groupSizeInput_value pg) pg)
  | GroupSizeEdited text => Some (setInputs (csvInput_value pg) text pg)
  | DownloadClicked => Some (onDownloadClick pg)
  | TimeoutFired k =>
      match timeouts pg !! k with
      | Some url => Some (onTimeout url (setTimeouts (delete k (timeouts pg)) pg))
      | None => Some pg
      end
  end.

Fixpoint run (events : list event) (pg : page) : option page :=
  match events with
  | [] => Some pg
  | ev :: events' =>
      match step ev pg with
      | Some pg' => run events' pg'
      | None => None
      end
  end.

End handlers.

(** ** Vocabulary of the properties *)

(** The sum of [f] over a list. *)
Definition bigZ {A} (f : A -> Z) (l : list A) : Z :=
  foldr (fun a acc => (f a + acc)%Z) 0%Z l.

(** [Math.floor((sizes[i] * totalR) / n)]. *)
Definition floorQuota (size totalR n : nat) : Z :=
  Qfloor (idealQuota size totalR n).

(** The fractional remainder [q - f] of the same quotient. *)
Definition fracQuota (size totalR n : nat) : Q :=
  (idealQuota size totalR n - inject_Z (Qfloor (idealQuota size totalR n)))%Q.

(** [countsByRole[r]] for an own key [r]. *)
Definition countOf (countsByRole : obj nat) (r : string) : nat :=
  default 0 (objGet countsByRole r).

(** The rows and counters that lines 93-110 compute. *)
Definition floorsRow (sizes : list nat) (totalR n : nat) : list Z :=
  map (fun i => floorQuota (sizes !!! i) totalR n) (seq 0 (length sizes)).

Definition fracsRow (sizes : list nat) (totalR n : nat) : list Q :=
  map (fun i => fracQuota (sizes !!! i) totalR n) (seq 0 (length sizes)).

Definition extrasAfterFloors (sizes : list nat) (totalR n : nat) : Z :=
  (Z.of_nat totalR
   - bigZ (fun i => floorQuota (sizes !!! i) totalR n) (seq 0 (length sizes)))%Z.

(** The counters after lines 93-110, before any cell is bumped. *)
Definition floorsState (sizes : list nat) (countsByRole : obj nat) : quota :=
  let roles := Object_keys countsByRole in
  let n := fold_left Nat.add sizes 0 in
  let tg := map (fun r => (r, floorsRow sizes (countOf countsByRole r) n)) roles in
  {| targets := tg;
     extras :=
       map (fun r => (r, extrasAfterFloors sizes (countOf countsByRole r) n)) roles;
     deficits :=
       map (fun i => (Z.of_nat (sizes !!! i) - filled tg roles i)%Z)
         (seq 0 (length sizes)) |}.

(** [remainders] after lines 93-104. *)
Definition fracsTable (sizes : list nat) (countsByRole : obj nat)
  : obj (list Q) :=
  let n := fold_left Nat.add sizes 0 in
  map (fun r => (r, fracsRow sizes (countOf countsByRole r) n))
    (Object_keys countsByRole).

(** The counters have one row and one extras entry per role, and one cell
    and one deficit per group. *)
Record wellFormed (roles : list string) (g : nat) (st : quota) : Prop := {
  wf_targets : (targets st).*1 = roles;
  wf_extras : (extras st).*1 = roles;
  wf_rows : forall r, r ∈ roles -> length (default [] (objGet (targets st) r)) = g;
  wf_deficits : length (deficits st) = g
}.

(** What is placed and what is still to place add up: per role to its
    count, per group to its capacity. *)
Record balanced (sizes : list nat) (countsByRole : obj nat)
    (roles : list string) (st : quota) : Prop := {
  bal_wf : wellFormed roles (length sizes) st;
  bal_rows : forall r, r ∈ roles ->
    (bigZ (cell (targets st) r) (seq 0 (length sizes)) + extraOf (extras st) r
     = Z.of_nat (countOf countsByRole r))%Z;
  bal_cols : forall i, i < length sizes ->
    (bigZ (fun r => cell (targets st) r i) roles + deficits st !!! i
     = Z.of_nat (sizes !!! i))%Z;
  bal_extras : forall r, r ∈ roles -> (0 <= extraOf (extras st) r)%Z;
  bal_cells : forall r i, r ∈ roles -> i < length sizes ->
    (0 <= cell (targets st) r i)%Z
}.

(** No group is over-filled. *)
Definition deficitsNonneg (st : quota) : Prop :=
  forall i, i < length (deficits st) -> (0 <= deficits st !!! i)%Z.

(** A pair names one of the roles and one of the groups. *)
Definition validPair (roles : list string) (g : nat) (p : pair) : Prop :=
  pair_r p ∈ roles /\ pair_i p < g.

(** What every exit of the two inner loops of the residual pass preserves:
    the balance, the sign of the deficits, the distance between
    [remainingDeficit] and the sum of the deficits; extras never grow, and
    they stay the same only when nothing was bumped. *)
Definition stepsFrom (sizes : list nat) (countsByRole : obj nat)
    (roles : list string) (st : quota) (rd : Z) (st' : quota) (rd' : Z) : Prop :=
  balanced sizes countsByRole roles st'
  /\ (deficitsNonneg st -> deficitsNonneg st')
  /\ (rd' - sumZ (deficits st') = rd - sumZ (deficits st))%Z
  /\ (totalExtras (extras st') roles <= totalExtras (extras st) roles)%Z
  /\ (totalExtras (extras st') roles = totalExtras (extras st) roles -> st' = st).

(** The two sum invariants of a quota table: one row per role, in the order
    of the role counts; a row has one cell per group, none negative, and
    sums to the count of its role; the cells of a group sum to its
    capacity. *)
Definition exactTable (sizes : list nat) (countsByRole : obj nat)
    (t : obj (list Z)) : Prop :=
  t.*1 = Object_keys countsByRole
  /\ (forall r row, objGet t r = Some row ->
        length row = length sizes
        /\ Forall (fun c => (0 <= c)%Z) row
        /\ sumZ row = Z.of_nat (countOf countsByRole r))
  /\ (forall i, i < length sizes ->
        sumZ (map (fun row => row !!! i) t.*2) = Z.of_nat (sizes !!! i)).

(** The people of role [r] that the table asks for, over all [g] groups. *)
Definition needSum (rt : roleTargets) (r : string) (g : nat) : nat :=
  sum_list (map (needOf rt r) (seq 0 g)).

(** The pool of role [r] holds as many people as the table asks for. *)
Definition enoughPeople (rt : roleTargets) (g : nat)
    (byRole : obj (list person)) (r : string) : Prop :=
  needSum rt r g <= length (poolOf byRole r).

(** Vocabulary for the code around the core. *)

(** The cell that a pair names. *)
Definition pairKey (p : pair) : string * nat := (pair_r p, pair_i p).

(** The number of people of role [r] in a list. *)
Definition countRole (r : string) (l : list person) : nat :=
  length (filter (fun p => role p = r) l).

(** Every pool holds people of the role it is filed under. *)
Definition purePools (byRole : obj (list person)) : Prop :=
  Forall (fun e => Forall (fun p => role p = e.1) e.2) byRole.

(** The person on a row of [annotated]. *)
Definition rowPerson (row : string * string * nat) : person :=
  mkPerson row.1.1 row.1.2.

(** A field as [parseRoster] keeps it: not empty, trimmed, without the
    delimiter and without a line feed. *)
Definition cleanField (d : ascii) (s : string) : Prop :=
  s <> EmptyString /\ trim s = s /\ includes d s = false /\ includes LF s = false.

(** Does the line give a name and a role? *)
Definition goodLine (d : ascii) (line : string) : bool :=
  match fieldsOf d line with
  | name :: role :: _ => negb (isBlank name || isBlank role)
  | _ => false
  end.

(** The first two fields of a line. *)
Definition personOf (d : ascii) (line : string) : person :=
  mkPerson (fieldsOf d line !!! 0) (fieldsOf d line !!! 1).

(** Is the code unit one of [0]-[9]? *)
Definition isDigit (c : ascii) : bool :=
  match digitOf c with Some _ => true | None => false end.

Fixpoint allDigits (s : string) : bool :=
  match s with
  | EmptyString => true
  | String c rest => isDigit c && allDigits rest
  end.

(** A field that the download writes as it is and that [parseRoster]
    reads back as it is: not empty, trimmed, without quote, comma and line
    feed. *)
Definition plainField (s : string) : Prop :=
  s <> EmptyString /\ trim s = s /\ needsQuotes s = false.

(** The line feed as a string. *)
Definition newline : string := String LF EmptyString.

(** Every object URL that is not revoked is the one that [lastObjectUrl]
    holds, and there is at most one. *)
Definition noLeak (pg : page) : Prop :=
  match objectUrls pg with
  | [] => True
  | [(url, _)] => lastObjectUrl pg = Some url
  | _ => False
  end.

(** ** Concrete inputs *)

(** Five people of role A and four of role B, for three groups of three. *)
Definition fiveAndFour : obj nat := [("A"%string, 5); ("B"%string, 4)].

(** Six of role A and three of role B, in either order of first appearance. *)
Definition sixAndThree : obj nat := [("A"%string, 6); ("B"%string, 3)].
Definition threeAndSix : obj nat := [("B"%string, 3); ("A"%string, 6)].

(** One person for a group of two. *)
Definition oneForTwo : obj nat := [("A"%string, 1)].


(** Some numbers drawn from [Math.random]. *)
Definition draws : list nat := [3; 1; 4; 1; 5; 9; 2; 6; 5; 3; 5; 8; 9; 7; 9].

(** A table that asks for three people of role A, and a pool of two. *)
Definition threeOfA : roleTargets := Targets [("A"%string, [2; 1]%Z)].

Definition twoOfA : obj (list person) :=
  [("A"%string, [mkPerson "Ann" "A"; mkPerson "Bob" "A"])].

(** Nine people, six of role A and three of role B. *)
Definition ninePeople : list person :=
  [mkPerson "a" "A"; mkPerson "b" "B"; mkPerson "c" "A"; mkPerson "d" "A";
   mkPerson "e" "B"; mkPerson "f" "A"; mkPerson "g" "A"; mkPerson "h" "B";
   mkPerson "i" "A"].

(** The counters with which the residual pass is entered for [oneForTwo]
    and for [blankRole]. *)
Definition shortState : quota :=
  (largestRemainders [2] oneForTwo []).1.1.



(** Three people, two of them of role A, with the groups and the rows that
    [allocateGroups] makes of them for the desired size 2 and the draws
    1, 0, 1. *)
Definition threePeople : list person :=
  [mkPerson "a" "A"; mkPerson "b" "B"; mkPerson "c" "A"].

Definition threeGroups : list (list person) :=
  [[mkPerson "a" "A"; mkPerson "b" "B"]; [mkPerson "c" "A"]].

Definition threeRows : list (string * string * nat) :=
  [("a", "A", 1); ("b", "B", 1); ("c", "A", 2)]%string.

(** A roster as it is pasted, with a header, and the people on it. *)
Definition pastedRoster : string :=
  "Name,Role" +:+ newline +:+ "Ann,Dev" +:+ newline +:+ "Bob,Ops"
  +:+ newline +:+ "Cy,Dev".

Definition pastedPeople : list person :=
  [mkPerson "Ann" "Dev"; mkPerson "Bob" "Ops"; mkPerson "Cy" "Dev"].

(** The page with the pasted roster and the desired size 2, before any
    click; the same page after a click on Generate, and after a second
    one. *)
Definition startPage : page :=
  mkPage EmptyString "none" pastedRoster "2" EmptyString "none" None None None None [] 0 [].

Definition generatedPage : page :=
  Eval vm_compute in
    match onGenerate EmptyString 4 draws startPage with
    | Some (pg, _) => pg
    | None => startPage
    end.

Definition regeneratedPage : page :=
  Eval vm_compute in
    match onGenerate EmptyString 4 draws generatedPage with
    | Some (pg, _) => pg
    | None => startPage
    end.

(** * Properties *)

(** ** The code on small inputs *)

Example sizes_of_seven : computeGroupSizes 7 (JNumber 3) = Ok [4; 3].
Proof. reflexivity. Qed.

Example sizes_of_two : computeGroupSizes 2 (JNumber 2) = Ok [2].
Proof. reflexivity. Qed.

Example sizes_need_a_number : computeGroupSizes 7 JNaN = Throw GroupSizeError.
Proof. reflexivity. Qed.

Example keys_in_order :
  Object_keys [("b", 1); ("10", 2); ("2", 3); ("a", 4); ("01", 5); ("0", 6)]%string
  = ["0"; "2"; "10"; "b"; "a"; "01"]%string.
Proof. vm_compute. reflexivity. Qed.

Example shuffle_of_five :
  shuffleInPlace [1; 2; 3; 4; 5] [0; 0; 0; 0] = ([2; 3; 4; 5; 1], []).
Proof. vm_compute. reflexivity. Qed.

(** Two of the three groups get the extra person of role A. *)
Example targets_of_fiveAndFour :
  computeRoleTargets 1 [3; 3; 3] fiveAndFour draws
  = Some (Targets [("A"%string, [2; 1; 2]%Z); ("B"%string, [1; 2; 1]%Z)],
          [9; 2; 6; 5; 3; 5; 8; 9; 7; 9]).
Proof. vm_compute. reflexivity. Qed.

(** With as many people as seats the walk over the sorted pairs can leave a
    seat open, which the residual pass then fills: the last group gets its
    second person of role A there. *)
Example residual_pass_at_work :
  deficits (largestRemainders [5; 5; 3]
              [("A"%string, 4); ("B"%string, 7); ("C"%string, 2)] []).1.1
  = [0; 0; 1]%Z
  /\ computeRoleTargets 1 [5; 5; 3]
       [("A"%string, 4); ("B"%string, 7); ("C"%string, 2)] []
     = Some (Targets [("A"%string, [1; 1; 2]%Z); ("B"%string, [3; 3; 1]%Z);
                      ("C"%string, [1; 1; 0]%Z)], []).
Proof. vm_compute. split; reflexivity. Qed.

Example allocation_of_nine :
  exists groups annotated src',
    allocateGroups 1 ninePeople (JNumber 3) draws
    = Some (Ok (groups, annotated), src')
    /\ map (map role) groups
       = [["A"; "A"; "B"]; ["A"; "A"; "B"]; ["A"; "A"; "B"]]%string.
Proof. vm_compute. eexists _, _, _. split; reflexivity. Qed.

Example role_named_like_a_method :
  allocateGroups 1 [mkPerson "a" "A"; mkPerson "b" "toString"] (JNumber 2) draws
  = Some (Throw PushTypeError, draws).
Proof. vm_compute. reflexivity. Qed.

(** ** Sums written with [reduce] *)

Lemma fold_left_add_nat (l : list nat) (a : nat) :
  fold_left Nat.add l a = a + sum_list l.
Proof.
  revert a. induction l as [|x l IH]; intros a; simpl; [lia|].
  rewrite IH. lia.
Qed.

(** ** GroupSizer *)

Lemma groupCount_pos n q : 1 <= groupCount n q.
Proof. unfold groupCount. lia. Qed.

Lemma Math_round_half_le (n : nat) (q : Q) :
  (2 <= q)%Q -> 1 <= n ->
  (Math_round (inject_Z (Z.of_nat n) / q)%Q <= Z.of_nat n)%Z.
Proof.
  intros Hq Hn. unfold Math_round.
  assert (Hle : (inject_Z (Z.of_nat n) / q + (1 # 2) <= inject_Z (Z.of_nat n))%Q).
  { assert (Hn1 : (1 <= inject_Z (Z.of_nat n))%Q).
    { change 1%Q with (inject_Z 1). rewrite <- Zle_Qle. lia. }
    assert (Hq0 : (0 < q)%Q) by lra.
    assert (Hdiv : (inject_Z (Z.of_nat n) / q <= inject_Z (Z.of_nat n) / 2)%Q).
    { apply Qle_shift_div_r; [lra|].
      assert (H2 : (inject_Z (Z.of_nat n) / 2 * q == inject_Z (Z.of_nat n) * (q / 2))%Q)
        by field.
      rewrite H2.
      assert (1 <= q / 2)%Q by (apply Qle_shift_div_l; lra).
      nra. }
    assert (Hhalf : (inject_Z (Z.of_nat n) / 2 == inject_Z (Z.of_nat n) * (1 # 2))%Q)
      by field.
    lra. }
  apply Qfloor_resp_le in Hle. rewrite Qfloor_Z in Hle. exact Hle.
Qed.

Lemma groupCount_le n q : (2 <= q)%Q -> 1 <= n -> groupCount n q <= n.
Proof.
  intros Hq Hn. unfold groupCount.
  pose proof (Math_round_half_le n q Hq Hn). lia.
Qed.

(** The array built by [Array.from]: [remainder] larger groups first. *)
Lemma sizes_split (base remainder g : nat) :
  remainder <= g ->
  map (fun i => base + (if i <? remainder then 1 else 0)) (seq 0 g)
  = replicate remainder (base + 1) ++ replicate (g - remainder) base.
Proof.
  intros Hle.
  replace g with (remainder + (g - remainder)) at 1 by lia.
  rewrite seq_app, map_app. f_equal.
  - apply list_eq. intros i.
    rewrite list_lookup_fmap.
    destruct (decide (i < remainder)) as [Hi|Hi].
    + rewrite lookup_seq_lt, lookup_replicate_2 by lia. simpl.
      destruct (Nat.ltb_spec i remainder); [done|lia].
    + rewrite lookup_seq_ge by lia. symmetry.
      apply lookup_replicate_None. lia.
  - apply list_eq. intros i.
    rewrite list_lookup_fmap.
    destruct (decide (i < g - remainder)) as [Hi|Hi].
    + rewrite lookup_seq_lt, lookup_replicate_2 by lia. simpl.
      destruct (Nat.ltb_spec (remainder + i) remainder); [lia|].
      f_equal. lia.
    + rewrite lookup_seq_ge by lia. symmetry.
      apply lookup_replicate_None. lia.
Qed.

Lemma computeGroupSizes_finite (n : nat) (q : Q) :
  (2 <= q)%Q ->
  computeGroupSizes n (JNumber q)
  = Ok (map (fun i => n / groupCount n q
                      + (if i <? n - n / groupCount n q * groupCount n q
                         then 1 else 0))
          (seq 0 (groupCount n q))).
Proof.
  intros Hq. unfold computeGroupSizes. simpl.
  apply Qle_bool_iff in Hq. rewrite Hq. reflexivity.
Qed.

(** The sizes add up to [n], whatever [n]. *)
Lemma computeGroupSizes_sum (n : nat) (v : jsvalue) (sizes : list nat) :
  computeGroupSizes n v = Ok sizes -> sum_list sizes = n.
Proof.
  intros Hrun. unfold computeGroupSizes in Hrun.
  destruct (negb (Number_isFinite v) || lessThanTwo v); [discriminate|].
  destruct v as [q|neg| |]; try discriminate.
  inversion Hrun; subst sizes. clear Hrun.
  pose proof (groupCount_pos n q) as Hg.
  set (g := groupCount n q) in *. set (base := n / g).
  assert (Hrem : n - base * g = n mod g).
  { unfold base. pose proof (Nat.div_mod_eq n g). lia. }
  assert (Hlt : n mod g < g) by (apply Nat.mod_upper_bound; lia).
  rewrite sizes_split by lia.
  rewrite sum_list_with_app, !sum_list_replicate.
  pose proof (Nat.div_mod_eq n g). fold base in H. nia.
Qed.




(** C7. [computeGroupSizes] throws its error exactly when the desired size
    is not a finite number or is below 2 (so at desired size 1), and returns
    sizes for every finite desired size of at least 2, whatever [n]. *)
Theorem computeGroupSizes_throws_iff (n : nat) (v : jsvalue) :
  (computeGroupSizes n v = Throw GroupSizeError
   <-> Number_isFinite v = false \/ exists q, v = JNumber q /\ (q < 2)%Q)
  /\ ((exists sizes, computeGroupSizes n v = Ok sizes)
      <-> exists q, v = JNumber q /\ (2 <= q)%Q)
  /\ computeGroupSizes n (JNumber 1) = Throw GroupSizeError.
Proof.
  split; [|split].
  - destruct v as [q|neg| |]; simpl;
      try (split; [intros _; left; reflexivity | reflexivity]).
    unfold computeGroupSizes. simpl.
    destruct (Qle_bool 2 q) eqn:Hq; simpl.
    + apply Qle_bool_iff in Hq. split; [discriminate|].
      intros [Hf|(q' & Heq & Hlt)]; [discriminate|].
      inversion Heq; subst q'. lra.
    + split; [|reflexivity]. intros _. right. exists q. split; [reflexivity|].
      apply Qnot_le_lt. intros Hle. apply Qle_bool_iff in Hle. congruence.
  - split.
    + intros [sizes Hs]. destruct v as [q|neg| |]; try discriminate.
      exists q. split; [reflexivity|].
      unfold computeGroupSizes in Hs. simpl in Hs.
      destruct (Qle_bool 2 q) eqn:Hq; [|discriminate].
      apply Qle_bool_iff. exact Hq.
    + intros (q & -> & Hq). rewrite computeGroupSizes_finite by exact Hq. eauto.
  - reflexivity.
Qed.


(** ** Objects *)

Section objects.
Context {V : Type}.
Implicit Types (o : obj V) (k : string) (v : V).

Lemma objGet_objSet_eq o k v : objGet (objSet o k v) k = Some v.
Proof.
  induction o as [|[k' v'] o IH]; simpl.
  - rewrite String.eqb_refl. reflexivity.
  - destruct (String.eqb_spec k' k) as [->|Hne]; simpl.
    + rewrite String.eqb_refl. reflexivity.
    + destruct (String.eqb_spec k' k); [contradiction|]. exact IH.
Qed.

Lemma objGet_objSet_ne o k k' v :
  k <> k' -> objGet (objSet o k v) k' = objGet o k'.
Proof.
  intros Hne. induction o as [|[k0 v0] o IH]; simpl.
  - destruct (String.eqb_spec k k'); [contradiction|reflexivity].
  - destruct (String.eqb_spec k0 k) as [->|Hne0]; simpl.
    + destruct (String.eqb_spec k k'); [contradiction|reflexivity].
    + destruct (String.eqb_spec k0 k'); [reflexivity|exact IH].
Qed.

Lemma objGet_None o k : objGet o k = None <-> k ∉ o.*1.
Proof.
  induction o as [|[k' v'] o IH]; simpl.
  - split; [intros _; apply not_elem_of_nil|reflexivity].
  - rewrite not_elem_of_cons.
    destruct (String.eqb_spec k' k) as [->|Hne].
    + split; [discriminate|]. intros [Hk _]. contradiction.
    + rewrite IH. split; [intros Hk; split; [congruence|exact Hk]|].
      intros [_ Hk]. exact Hk.
Qed.

Lemma objGet_is_Some o k : k ∈ o.*1 -> is_Some (objGet o k).
Proof.
  intros Hin. destruct (objGet o k) eqn:Hg; [eauto|].
  apply objGet_None in Hg. contradiction.
Qed.

Lemma objGet_elem_of o k v : objGet o k = Some v -> (k, v) ∈ o.
Proof.
  induction o as [|[k' v'] o IH]; simpl; [discriminate|].
  destruct (String.eqb_spec k' k) as [->|Hne].
  - intros [= ->]. apply elem_of_cons. left. reflexivity.
  - intros Hg. apply elem_of_cons. right. apply IH. exact Hg.
Qed.

Lemma keys_objSet_in o k v : k ∈ o.*1 -> (objSet o k v).*1 = o.*1.
Proof.
  induction o as [|[k' v'] o IH]; simpl.
  - intros Hk. apply elem_of_nil in Hk. contradiction.
  - intros Hk. destruct (String.eqb_spec k' k) as [->|Hne]; simpl.
    + reflexivity.
    + f_equal. apply IH. apply elem_of_cons in Hk.
      destruct Hk as [->|Hk]; [contradiction|exact Hk].
Qed.

Lemma objSet_fresh o k v : k ∉ o.*1 -> objSet o k v = o ++ [(k, v)].
Proof.
  induction o as [|[k' v'] o IH]; simpl; [reflexivity|].
  intros Hk. apply not_elem_of_cons in Hk. destruct Hk as [Hne Hk].
  destruct (String.eqb_spec k' k) as [->|_]; [contradiction|].
  f_equal. apply IH. exact Hk.
Qed.

Lemma fromEntries_app (es acc : list (string * V)) :
  NoDup (acc ++ es).*1 ->
  fold_left (fun o e => objSet o (fst e) (snd e)) es acc = acc ++ es.
Proof.
  revert acc. induction es as [|[k v] es IH]; intros acc Hnd; simpl.
  - rewrite app_nil_r. reflexivity.
  - rewrite objSet_fresh.
    + rewrite IH; rewrite <- app_assoc; [reflexivity|exact Hnd].
    + rewrite fmap_app in Hnd. apply NoDup_app in Hnd.
      destruct Hnd as (_ & Hdisj & _). intros Hin.
      apply (Hdisj k Hin). simpl. apply elem_of_cons. left. reflexivity.
Qed.

Lemma Object_fromEntries_NoDup (es : list (string * V)) :
  NoDup es.*1 -> Object_fromEntries es = es.
Proof. intros Hnd. unfold Object_fromEntries. apply fromEntries_app. exact Hnd. Qed.
End objects.

Lemma objGet_map_entries {V} (f : string -> V) (roles : list string) (r : string) :
  r ∈ roles -> objGet (map (fun r => (r, f r)) roles) r = Some (f r).
Proof.
  induction roles as [|r' roles IH]; simpl.
  - intros Hr. apply elem_of_nil in Hr. contradiction.
  - intros Hr. destruct (String.eqb_spec r' r) as [->|Hne]; [reflexivity|].
    apply IH. apply elem_of_cons in Hr. destruct Hr as [->|Hr]; [contradiction|exact Hr].
Qed.

Lemma keys_map_entries {V} (f : string -> V) (roles : list string) :
  (map (fun r => (r, f r)) roles).*1 = roles.
Proof. induction roles as [|r roles IH]; simpl; [reflexivity|]. f_equal. exact IH. Qed.

(** [Object.keys] lists every own key once. *)
Lemma insertSorted_perm {A} (goesAfter : A -> A -> bool) (x : A) (l : list A) :
  insertSorted goesAfter x l ≡ₚ x :: l.
Proof.
  induction l as [|y l IH]; simpl; [reflexivity|].
  destruct (goesAfter x y); [|reflexivity].
  rewrite IH. apply Permutation_swap.
Qed.

Lemma stableSort_perm {A} (goesAfter : A -> A -> bool) (l : list A) :
  stableSort goesAfter l ≡ₚ l.
Proof.
  induction l as [|x l IH]; simpl; [reflexivity|].
  rewrite insertSorted_perm. rewrite IH. reflexivity.
Qed.

Lemma ownKeysOrder_perm (ks : list string) : ownKeysOrder ks ≡ₚ ks.
Proof.
  unfold ownKeysOrder. rewrite stableSort_perm.
  induction ks as [|k ks IH]; simpl; [reflexivity|].
  unfold indexedKeys, isNamedKey in *. simpl.
  destruct (arrayIndex k); simpl.
  - rewrite IH. reflexivity.
  - rewrite <- Permutation_middle. rewrite IH. reflexivity.
Qed.

Lemma Object_keys_perm {V} (o : obj V) : Object_keys o ≡ₚ o.*1.
Proof. apply ownKeysOrder_perm. Qed.

(** ** Sums *)

Lemma fold_left_bigZ {A} (f : A -> Z) (l : list A) (z : Z) :
  fold_left (fun acc a => (acc + f a)%Z) l z = (z + bigZ f l)%Z.
Proof.
  revert z. induction l as [|a l IH]; intros z; simpl; [lia|].
  rewrite IH. lia.
Qed.

Lemma sumZ_bigZ (l : list Z) : sumZ l = bigZ id l.
Proof. unfold sumZ. rewrite (fold_left_bigZ id). lia. Qed.

Lemma filled_bigZ tg roles i : filled tg roles i = bigZ (fun r => cell tg r i) roles.
Proof. unfold filled. rewrite (fold_left_bigZ (fun r => cell tg r i)). lia. Qed.

Lemma totalExtras_bigZ ex roles : totalExtras ex roles = bigZ (extraOf ex) roles.
Proof. unfold totalExtras. rewrite (fold_left_bigZ (extraOf ex)). lia. Qed.

Lemma bigZ_ext {A} (f h : A -> Z) (l : list A) :
  (forall a, a ∈ l -> f a = h a) -> bigZ f l = bigZ h l.
Proof.
  induction l as [|a l IH]; intros Hfh; simpl; [reflexivity|].
  rewrite Hfh by (apply elem_of_cons; left; reflexivity).
  rewrite IH; [reflexivity|].
  intros b Hb. apply Hfh. apply elem_of_cons. right. exact Hb.
Qed.

Lemma bigZ_app {A} (f : A -> Z) (l k : list A) :
  bigZ f (l ++ k) = (bigZ f l + bigZ f k)%Z.
Proof. induction l as [|a l IH]; simpl; [reflexivity|]. rewrite IH. lia. Qed.

Lemma bigZ_plus {A} (f h : A -> Z) (l : list A) :
  bigZ (fun a => (f a + h a)%Z) l = (bigZ f l + bigZ h l)%Z.
Proof. induction l as [|a l IH]; simpl; [reflexivity|]. rewrite IH. lia. Qed.

Lemma bigZ_minus {A} (f h : A -> Z) (l : list A) :
  bigZ (fun a => (f a - h a)%Z) l = (bigZ f l - bigZ h l)%Z.
Proof. induction l as [|a l IH]; simpl; [reflexivity|]. rewrite IH. lia. Qed.

Lemma bigZ_scale {A} (c : Z) (f : A -> Z) (l : list A) :
  bigZ (fun a => (c * f a)%Z) l = (c * bigZ f l)%Z.
Proof. induction l as [|a l IH]; simpl; [lia|]. rewrite IH. lia. Qed.

Lemma bigZ_zero {A} (l : list A) : bigZ (fun _ => 0%Z) l = 0%Z.
Proof. induction l as [|a l IH]; simpl; [reflexivity|]. rewrite IH. lia. Qed.

Lemma bigZ_exchange {A B} (f : A -> B -> Z) (la : list A) (lb : list B) :
  bigZ (fun a => bigZ (fun b => f a b) lb) la
  = bigZ (fun b => bigZ (fun a => f a b) la) lb.
Proof.
  induction la as [|a la IH]; simpl.
  - rewrite bigZ_zero. reflexivity.
  - rewrite IH. rewrite <- bigZ_plus. reflexivity.
Qed.

Lemma bigZ_le {A} (f h : A -> Z) (l : list A) :
  (forall a, a ∈ l -> (f a <= h a)%Z) -> (bigZ f l <= bigZ h l)%Z.
Proof.
  induction l as [|a l IH]; intros Hfh; simpl; [lia|].
  pose proof (Hfh a (list_elem_of_here a l)).
  assert (bigZ f l <= bigZ h l)%Z.
  { apply IH. intros b Hb. apply Hfh. apply elem_of_cons. right. exact Hb. }
  lia.
Qed.

Lemma bigZ_nonneg {A} (f : A -> Z) (l : list A) :
  (forall a, a ∈ l -> (0 <= f a)%Z) -> (0 <= bigZ f l)%Z.
Proof.
  intros Hf. rewrite <- (bigZ_zero l). apply bigZ_le. exact Hf.
Qed.

Lemma bigZ_elem_le {A} (f : A -> Z) (l : list A) (a : A) :
  (forall b, b ∈ l -> (0 <= f b)%Z) -> a ∈ l -> (f a <= bigZ f l)%Z.
Proof.
  induction l as [|b l IH]; intros Hf Ha; simpl.
  - apply elem_of_nil in Ha. contradiction.
  - assert (0 <= f b)%Z by (apply Hf; apply elem_of_cons; left; reflexivity).
    assert (0 <= bigZ f l)%Z.
    { apply bigZ_nonneg. intros c Hc. apply Hf. apply elem_of_cons. right. exact Hc. }
    apply elem_of_cons in Ha. destruct Ha as [->|Ha]; [lia|].
    assert (f a <= bigZ f l)%Z; [|lia].
    apply IH; [|exact Ha]. intros c Hc. apply Hf. apply elem_of_cons. right. exact Hc.
Qed.

Lemma bigZ_pos_exists {A} (f : A -> Z) (l : list A) :
  (0 < bigZ f l)%Z -> exists a, a ∈ l /\ (0 < f a)%Z.
Proof.
  induction l as [|a l IH]; simpl; [lia|].
  intros Hpos. destruct (decide (0 < f a)%Z) as [Hfa|Hfa].
  - exists a. split; [apply elem_of_cons; left; reflexivity|exact Hfa].
  - destruct IH as (b & Hb & Hfb); [lia|].
    exists b. split; [apply elem_of_cons; right; exact Hb|exact Hfb].
Qed.

(** A sum over distinct elements in which one summand grows by [c]. *)
Lemma bigZ_point {A} `{EqDecision A} (f h : A -> Z) (l : list A) (a : A) (c : Z) :
  NoDup l -> a ∈ l ->
  (forall b, b ∈ l -> h b = if decide (b = a) then (f b + c)%Z else f b) ->
  bigZ h l = (bigZ f l + c)%Z.
Proof.
  induction l as [|b l IH]; intros Hnd Ha Hh; simpl.
  - apply elem_of_nil in Ha. contradiction.
  - apply NoDup_cons in Hnd. destruct Hnd as [Hb Hnd].
    rewrite (Hh b) by (apply elem_of_cons; left; reflexivity).
    destruct (decide (b = a)) as [->|Hne].
    + rewrite (bigZ_ext h f l); [lia|].
      intros x Hx. rewrite Hh by (apply elem_of_cons; right; exact Hx).
      destruct (decide (x = a)) as [->|_]; [contradiction|reflexivity].
    + rewrite IH; [lia|exact Hnd| |].
      * apply elem_of_cons in Ha. destruct Ha as [<-|Ha]; [contradiction|exact Ha].
      * intros x Hx. apply Hh. apply elem_of_cons. right. exact Hx.
Qed.

Lemma bigZ_perm {A} (f : A -> Z) (l k : list A) :
  l ≡ₚ k -> bigZ f l = bigZ f k.
Proof.
  induction 1 as [|x l k _ IH|x y l|l k m _ IH1 _ IH2]; simpl;
    [reflexivity|rewrite IH; reflexivity|lia|congruence].
Qed.

Lemma bigZ_fmap {A B} (f : B -> Z) (h : A -> B) (l : list A) :
  bigZ f (h <$> l) = bigZ (fun a => f (h a)) l.
Proof. induction l as [|a l IH]; csimpl; [reflexivity|]. rewrite IH. reflexivity. Qed.

Lemma list_as_lookups {A} `{Inhabited A} (l : list A) :
  l = (fun i => l !!! i) <$> seq 0 (length l).
Proof.
  apply list_eq. intros i. rewrite list_lookup_fmap.
  destruct (decide (i < length l)) as [Hi|Hi].
  - rewrite lookup_seq_lt by exact Hi. simpl.
    apply list_lookup_lookup_total_lt. exact Hi.
  - rewrite lookup_seq_ge by lia. simpl. apply lookup_ge_None. lia.
Qed.

Lemma bigZ_lookups (l : list Z) :
  bigZ id l = bigZ (fun i => l !!! i) (seq 0 (length l)).
Proof.
  transitivity (bigZ id ((fun i => l !!! i) <$> seq 0 (length l))).
  - f_equal. apply list_as_lookups.
  - apply bigZ_fmap.
Qed.

(** Floors of quotients sum to at most the quotient of the sum. *)
Lemma bigZ_floors {A} (f : A -> Z) (n : Z) (l : list A) :
  (0 < n)%Z -> (n * bigZ (fun a => f a / n) l <= bigZ f l)%Z.
Proof.
  intros Hn. induction l as [|a l IH]; simpl; [lia|].
  pose proof (Z.mul_div_le (f a) n Hn). lia.
Qed.

(** ** The floors (lines 93-110) *)

Lemma Qfloor_inject_div (a : Z) (p : positive) :
  Qfloor (inject_Z a / inject_Z (Zpos p))%Q = (a / Zpos p)%Z.
Proof.
  unfold Qdiv, Qinv, Qmult, inject_Z, Qfloor. simpl.
  rewrite Z.mul_1_r. reflexivity.
Qed.

Lemma floorQuota_div (size totalR n : nat) :
  0 < n ->
  floorQuota size totalR n = (Z.of_nat (size * totalR) / Z.of_nat n)%Z.
Proof.
  intros Hn. unfold floorQuota, idealQuota.
  destruct (Z.of_nat n) as [|p|p] eqn:Hp; try lia.
  apply Qfloor_inject_div.
Qed.

Lemma floorQuota_nonneg (size totalR n : nat) :
  0 < n -> (0 <= floorQuota size totalR n)%Z.
Proof.
  intros Hn. rewrite floorQuota_div by exact Hn.
  apply Z.div_pos; lia.
Qed.

Lemma fracQuota_nonneg (size totalR n : nat) : (0 <= fracQuota size totalR n)%Q.
Proof.
  unfold fracQuota. pose proof (Qfloor_le (idealQuota size totalR n)). lra.
Qed.

Lemma take_insert_S {A} (l : list A) (a : nat) (x : A) :
  a < length l -> take (S a) (<[a := x]> l) = take a l ++ [x].
Proof.
  intros Ha.
  rewrite (take_S_r _ _ x) by (apply list_lookup_insert_eq; exact Ha).
  rewrite take_insert_ge by lia. reflexivity.
Qed.

Lemma fold_insert_seq {A} (f : nat -> A) (a b : nat) (l : list A) :
  length l = a + b ->
  fold_left (fun l i => <[i := f i]> l) (seq a b) l = take a l ++ map f (seq a b).
Proof.
  revert a l. induction b as [|b IH]; intros a l Hlen; simpl.
  - rewrite app_nil_r. rewrite take_ge by lia. reflexivity.
  - rewrite IH by (rewrite length_insert; lia).
    rewrite take_insert_S by lia. rewrite <- app_assoc. reflexivity.
Qed.

Lemma floorsLoop_seq (sizes : list nat) (totalR n a b : nat)
    (rowT : list Z) (rowR : list Q) (sumFloors : Z) :
  length rowT = a + b -> length rowR = a + b ->
  floorsLoop sizes totalR n (seq a b) (rowT, rowR, sumFloors)
  = (take a rowT ++ map (fun i => floorQuota (sizes !!! i) totalR n) (seq a b),
     take a rowR ++ map (fun i => fracQuota (sizes !!! i) totalR n) (seq a b),
     (sumFloors + bigZ (fun i => floorQuota (sizes !!! i) totalR n) (seq a b))%Z).
Proof.
  unfold floorsLoop.
  revert a rowT rowR sumFloors. induction b as [|b IH];
    intros a rowT rowR sumFloors HT HR; simpl.
  - rewrite !app_nil_r, !take_ge by lia. f_equal. lia.
  - rewrite IH by (rewrite length_insert; lia).
    rewrite !take_insert_S by lia. rewrite <- !app_assoc.
    unfold floorQuota, fracQuota. simpl. f_equal. lia.
Qed.

Lemma floorsLoop_row (sizes : list nat) (totalR n : nat)
    (rowT : list Z) (rowR : list Q) :
  length rowT = length sizes -> length rowR = length sizes ->
  floorsLoop sizes totalR n (seq 0 (length sizes)) (rowT, rowR, 0%Z)
  = (floorsRow sizes totalR n, fracsRow sizes totalR n,
     bigZ (fun i => floorQuota (sizes !!! i) totalR n) (seq 0 (length sizes))).
Proof.
  intros HT HR. rewrite floorsLoop_seq by (simpl; assumption). reflexivity.
Qed.

Section objects_app.
Context {V : Type}.

Lemma objGet_app_r (o1 o2 : obj V) (k : string) :
  k ∉ o1.*1 -> objGet (o1 ++ o2) k = objGet o2 k.
Proof.
  induction o1 as [|[k' v'] o1 IH]; simpl; [reflexivity|].
  intros Hk. apply not_elem_of_cons in Hk. destruct Hk as [Hne Hk].
  destruct (String.eqb_spec k' k) as [->|_]; [contradiction|].
  apply IH. exact Hk.
Qed.

Lemma objSet_app_r (o1 o2 : obj V) (k : string) (v : V) :
  k ∉ o1.*1 -> objSet (o1 ++ o2) k v = o1 ++ objSet o2 k v.
Proof.
  induction o1 as [|[k' v'] o1 IH]; simpl; [reflexivity|].
  intros Hk. apply not_elem_of_cons in Hk. destruct Hk as [Hne Hk].
  destruct (String.eqb_spec k' k) as [->|_]; [contradiction|].
  f_equal. apply IH. exact Hk.
Qed.
End objects_app.

Lemma floorsPass_entries (sizes : list nat) (countsByRole : obj nat) (n : nat)
    (done todo : list string) :
  NoDup (done ++ todo) ->
  let g := length sizes in
  let entries {V} (f : string -> V) (rs : list string) := map (fun r => (r, f r)) rs in
  floorsPass sizes countsByRole n todo
    (entries (fun r => floorsRow sizes (countOf countsByRole r) n) done
       ++ entries (fun _ => replicate g 0%Z) todo,
     entries (fun r => fracsRow sizes (countOf countsByRole r) n) done
       ++ entries (fun _ => replicate g 0%Q) todo,
     entries (fun r => extrasAfterFloors sizes (countOf countsByRole r) n) done
       ++ entries (fun _ => 0%Z) todo)
  = (entries (fun r => floorsRow sizes (countOf countsByRole r) n) (done ++ todo),
     entries (fun r => fracsRow sizes (countOf countsByRole r) n) (done ++ todo),
     entries (fun r => extrasAfterFloors sizes (countOf countsByRole r) n) (done ++ todo)).
Proof.
  intros Hnd g entries. revert done Hnd.
  induction todo as [|r todo IH]; intros done Hnd.
  - simpl. rewrite !app_nil_r. reflexivity.
  - assert (Hr : r ∉ done).
    { apply NoDup_app in Hnd. destruct Hnd as (_ & Hdisj & _).
      intros Hin. apply (Hdisj r Hin). apply elem_of_cons. left. reflexivity. }
    unfold floorsPass in *. simpl fold_left.
    assert (Hk : forall V (f : string -> V), r ∉ (entries V f done).*1).
    { intros V f. unfold entries. rewrite keys_map_entries. exact Hr. }
    rewrite !objGet_app_r by apply Hk. simpl.
    rewrite String.eqb_refl. simpl.
    rewrite floorsLoop_row by apply length_replicate.
    rewrite !objSet_app_r by apply Hk. simpl.
    rewrite String.eqb_refl.
    specialize (IH (done ++ [r])).
    rewrite <- !app_assoc in IH. simpl in IH.
    unfold entries in IH |- *. rewrite !map_app in IH. simpl in IH.
    rewrite <- !app_assoc in IH. simpl in IH.
    change (default 0 (objGet countsByRole r)) with (countOf countsByRole r).
    rewrite !map_app. exact (IH Hnd).
Qed.

(** ** [shuffleInPlace] rearranges *)

Lemma insert_perm {A} (l : list A) (i : nat) (x : A) :
  i < length l -> <[i := x]> l ≡ₚ x :: delete i l.
Proof.
  intros Hi. rewrite insert_take_drop by exact Hi.
  rewrite delete_take_drop. symmetry. apply Permutation_middle.
Qed.

Lemma delete_insert_same {A} (l : list A) (i : nat) (x : A) :
  delete i (<[i := x]> l) = delete i l.
Proof.
  revert i. induction l as [|y l IH]; intros [|i]; simpl; try reflexivity.
  f_equal. apply IH.
Qed.

Lemma swap_perm {A} (arr : list A) (i j : nat) : swap arr i j ≡ₚ arr.
Proof.
  unfold swap.
  destruct (arr !! i) as [a|] eqn:Hi; [|reflexivity].
  destruct (arr !! j) as [b|] eqn:Hj; [|reflexivity].
  assert (Hil : i < length arr) by (apply lookup_lt_is_Some; eauto).
  assert (Hjl : j < length arr) by (apply lookup_lt_is_Some; eauto).
  destruct (decide (i = j)) as [->|Hne].
  - assert (a = b) by congruence. subst b.
    rewrite (list_insert_id arr j a) by exact Hi.
    rewrite (list_insert_id arr j a) by exact Hi. reflexivity.
  - apply (Permutation_cons_inv (a := b)).
    rewrite (insert_perm _ j a) by (rewrite length_insert; exact Hjl).
    rewrite Permutation_swap.
    rewrite <- (delete_Permutation (<[i := b]> arr) j b)
      by (rewrite list_lookup_insert_ne by exact Hne; exact Hj).
    rewrite (insert_perm _ i b) by exact Hil.
    rewrite Permutation_swap.
    rewrite <- (delete_Permutation arr i a) by exact Hi. reflexivity.
Qed.

Lemma shuffleLoop_perm {A} (i : nat) (arr : list A) (src : list nat) :
  (shuffleLoop i arr src).1 ≡ₚ arr.
Proof.
  revert arr src. induction i as [|i IH]; intros arr src; simpl; [reflexivity|].
  destruct (randomBelow _ src) as [j src'].
  rewrite IH. apply swap_perm.
Qed.

Lemma shuffleInPlace_perm {A} (arr : list A) (src : list nat) :
  (shuffleInPlace arr src).1 ≡ₚ arr.
Proof. apply shuffleLoop_perm. Qed.

(** ** The counters after the floors *)

Lemma Object_keys_NoDup {V} (o : obj V) : NoDup o.*1 -> NoDup (Object_keys o).
Proof. intros Hnd. rewrite Object_keys_perm. exact Hnd. Qed.

Lemma Object_keys_elem {V} (o : obj V) (k : string) : k ∈ Object_keys o <-> k ∈ o.*1.
Proof. rewrite Object_keys_perm. reflexivity. Qed.

Lemma floorsPass_initial (sizes : list nat) (countsByRole : obj nat) (n : nat)
    (roles : list string) :
  NoDup roles ->
  floorsPass sizes countsByRole n roles
    (map (fun r => (r, replicate (length sizes) 0%Z)) roles,
     map (fun r => (r, replicate (length sizes) 0%Q)) roles,
     map (fun r => (r, 0%Z)) roles)
  = (map (fun r => (r, floorsRow sizes (countOf countsByRole r) n)) roles,
     map (fun r => (r, fracsRow sizes (countOf countsByRole r) n)) roles,
     map (fun r => (r, extrasAfterFloors sizes (countOf countsByRole r) n)) roles).
Proof.
  intros Hnd. exact (floorsPass_entries sizes countsByRole n [] roles Hnd).
Qed.

Lemma largestRemainders_eq (sizes : list nat) (countsByRole : obj nat)
    (src : list nat) :
  NoDup countsByRole.*1 ->
  let shuffled :=
    shuffleInPlace
      (allPairs (Object_keys countsByRole) (length sizes)
         (fracsTable sizes countsByRole)) src in
  largestRemainders sizes countsByRole src
  = (walkPairs (sortPairs shuffled.1) (floorsState sizes countsByRole),
     fracsTable sizes countsByRole, shuffled.2).
Proof.
  intros Hnd shuffled. unfold largestRemainders.
  pose proof (Object_keys_NoDup _ Hnd) as Hroles.
  rewrite !Object_fromEntries_NoDup by (rewrite keys_map_entries; exact Hroles).
  rewrite floorsPass_initial by exact Hroles.
  unfold deficitsPass.
  rewrite (fold_insert_seq
             (fun i => (Z.of_nat (sizes !!! i) - filled _ _ i)%Z) 0 (length sizes))
    by (rewrite length_replicate; reflexivity).
  simpl. fold (fracsTable sizes countsByRole).
  subst shuffled. destruct (shuffleInPlace _ src) as [pairs src']. reflexivity.
Qed.

Lemma lookup_total_map_seq {A} `{Inhabited A} (f : nat -> A) (g i : nat) :
  i < g -> map f (seq 0 g) !!! i = f i.
Proof.
  intros Hi. apply list_lookup_total_correct.
  change (map f (seq 0 g)) with (f <$> seq 0 g).
  rewrite list_lookup_fmap, lookup_seq_lt by exact Hi. reflexivity.
Qed.

Lemma bigZ_of_nat (l : list nat) : bigZ Z.of_nat l = Z.of_nat (sum_list l).
Proof. induction l as [|x l IH]; simpl; [reflexivity|]. rewrite IH. lia. Qed.

Lemma bigZ_sizes (sizes : list nat) :
  bigZ (fun i => Z.of_nat (sizes !!! i)) (seq 0 (length sizes))
  = Z.of_nat (sum_list sizes).
Proof.
  rewrite <- bigZ_of_nat.
  transitivity (bigZ Z.of_nat ((fun i => sizes !!! i) <$> seq 0 (length sizes))).
  - rewrite bigZ_fmap. reflexivity.
  - f_equal. symmetry. apply list_as_lookups.
Qed.

Lemma bigZ_counts (countsByRole : obj nat) :
  NoDup countsByRole.*1 ->
  bigZ (fun r => Z.of_nat (countOf countsByRole r)) countsByRole.*1
  = Z.of_nat (sum_list countsByRole.*2).
Proof.
  induction countsByRole as [|[k v] o IH]; intros Hnd; [reflexivity|].
  rewrite fmap_cons in Hnd. apply NoDup_cons in Hnd. destruct Hnd as [Hk Hnd].
  rewrite !fmap_cons. cbn [bigZ foldr fst snd].
  change (sum_list (v :: o.*2)) with (v + sum_list o.*2).
  assert (Hhead : countOf ((k, v) :: o) k = v).
  { unfold countOf. simpl. rewrite String.eqb_refl. reflexivity. }
  rewrite Hhead.
  assert (Htail : bigZ (fun r => Z.of_nat (countOf ((k, v) :: o) r)) o.*1
                  = bigZ (fun r => Z.of_nat (countOf o r)) o.*1).
  { apply bigZ_ext. intros r Hr. unfold countOf. simpl.
    destruct (String.eqb_spec k r) as [->|_]; [contradiction|reflexivity]. }
  unfold bigZ in Htail |- *. rewrite Htail.
  fold (bigZ (fun r => Z.of_nat (countOf o r)) o.*1).
  rewrite IH by exact Hnd. lia.
Qed.

Lemma cell_floorsState (sizes : list nat) (countsByRole : obj nat) (r : string)
    (i : nat) :
  r ∈ Object_keys countsByRole -> i < length sizes ->
  cell (targets (floorsState sizes countsByRole)) r i
  = floorQuota (sizes !!! i) (countOf countsByRole r) (fold_left Nat.add sizes 0).
Proof.
  intros Hr Hi. unfold cell, floorsState. simpl.
  rewrite (objGet_map_entries (fun r => floorsRow sizes (countOf countsByRole r) _))
    by exact Hr.
  simpl. unfold floorsRow.
  apply (lookup_total_map_seq
           (fun i => floorQuota (sizes !!! i) (countOf countsByRole r)
                       (fold_left Nat.add sizes 0))).
  exact Hi.
Qed.

Lemma floorsState_wellFormed (sizes : list nat) (countsByRole : obj nat) :
  wellFormed (Object_keys countsByRole) (length sizes)
    (floorsState sizes countsByRole).
Proof.
  split; unfold floorsState; simpl.
  - apply keys_map_entries.
  - apply keys_map_entries.
  - intros r Hr.
    rewrite (objGet_map_entries (fun r => floorsRow sizes (countOf countsByRole r) _))
      by exact Hr.
    simpl. unfold floorsRow. rewrite length_map, length_seq. reflexivity.
  - rewrite length_map, length_seq. reflexivity.
Qed.

Lemma floorsState_balanced (sizes : list nat) (countsByRole : obj nat) :
  0 < sum_list sizes ->
  balanced sizes countsByRole (Object_keys countsByRole)
    (floorsState sizes countsByRole).
Proof.
  intros Hn.
  assert (Hsum : fold_left Nat.add sizes 0 = sum_list sizes)
    by (rewrite fold_left_add_nat; lia).
  split.
  - apply floorsState_wellFormed.
  - intros r Hr.
    rewrite (bigZ_ext _ (fun i => floorQuota (sizes !!! i) (countOf countsByRole r)
                                    (fold_left Nat.add sizes 0))).
    + unfold extraOf, floorsState. simpl.
      rewrite (objGet_map_entries
                 (fun r => extrasAfterFloors sizes (countOf countsByRole r) _))
        by exact Hr.
      simpl. unfold extrasAfterFloors. lia.
    + intros i Hi. apply elem_of_seq in Hi.
      apply cell_floorsState; [exact Hr|lia].
  - intros i Hi. unfold floorsState at 2. simpl.
    rewrite (lookup_total_map_seq _ _ _ Hi).
    rewrite filled_bigZ. unfold floorsState. simpl. lia.
  - intros r Hr. unfold extraOf, floorsState. simpl.
    rewrite (objGet_map_entries
               (fun r => extrasAfterFloors sizes (countOf countsByRole r) _))
      by exact Hr.
    simpl. unfold extrasAfterFloors. rewrite Hsum.
    set (T := countOf countsByRole r).
    pose proof (bigZ_floors (fun i => Z.of_nat (sizes !!! i * T))
                  (Z.of_nat (sum_list sizes)) (seq 0 (length sizes))) as Hfl.
    rewrite (bigZ_ext (fun i => Z.of_nat (sizes !!! i * T))
               (fun i => (Z.of_nat T * Z.of_nat (sizes !!! i))%Z)) in Hfl
      by (intros; lia).
    rewrite bigZ_scale, bigZ_sizes in Hfl.
    rewrite (bigZ_ext (fun i => floorQuota (sizes !!! i) T (sum_list sizes))
               (fun i => (Z.of_nat (sizes !!! i * T) / Z.of_nat (sum_list sizes))%Z))
      by (intros; apply floorQuota_div; exact Hn).
    nia.
  - intros r i Hr Hi. rewrite cell_floorsState by assumption.
    apply floorQuota_nonneg. lia.
Qed.

(** With as many people as seats, no group is over-filled by the floors. *)
Lemma floorsState_deficitsNonneg (sizes : list nat) (countsByRole : obj nat) :
  NoDup countsByRole.*1 ->
  0 < sum_list sizes ->
  sum_list countsByRole.*2 = sum_list sizes ->
  deficitsNonneg (floorsState sizes countsByRole).
Proof.
  intros Hnd Hn Hmatch i Hi.
  assert (Hsum : fold_left Nat.add sizes 0 = sum_list sizes)
    by (rewrite fold_left_add_nat; lia).
  unfold floorsState in Hi |- *. simpl in Hi |- *.
  rewrite length_map, length_seq in Hi.
  rewrite (lookup_total_map_seq _ _ _ Hi). rewrite filled_bigZ.
  set (roles := Object_keys countsByRole).
  rewrite (bigZ_ext _ (fun r => (Z.of_nat (sizes !!! i * countOf countsByRole r)
                                 / Z.of_nat (sum_list sizes))%Z)).
  - pose proof (bigZ_floors
                  (fun r => Z.of_nat (sizes !!! i * countOf countsByRole r))
                  (Z.of_nat (sum_list sizes)) roles) as Hfl.
    rewrite (bigZ_ext (fun r => Z.of_nat (sizes !!! i * countOf countsByRole r))
               (fun r => (Z.of_nat (sizes !!! i) * Z.of_nat (countOf countsByRole r))%Z))
      in Hfl by (intros; lia).
    rewrite bigZ_scale in Hfl.
    rewrite (bigZ_perm (fun r => Z.of_nat (countOf countsByRole r))
               roles countsByRole.*1) in Hfl by apply Object_keys_perm.
    rewrite bigZ_counts in Hfl by exact Hnd. rewrite Hmatch in Hfl. nia.
  - intros r Hr. subst roles.
    transitivity (floorQuota (sizes !!! i) (countOf countsByRole r)
                    (fold_left Nat.add sizes 0)).
    + exact (cell_floorsState sizes countsByRole r i Hr Hi).
    + rewrite Hsum. apply floorQuota_div. exact Hn.
Qed.

(** ** One bump *)

Lemma cell_bump (st : quota) (r r' : string) (i i' : nat) :
  i < length (default [] (objGet (targets st) r)) ->
  cell (targets (bump st r i)) r' i'
  = if decide (r' = r /\ i' = i) then (cell (targets st) r' i' + 1)%Z
    else cell (targets st) r' i'.
Proof.
  intros Hi. unfold bump, cell at 1. simpl.
  destruct (decide (r' = r)) as [->|Hr].
  - rewrite objGet_objSet_eq. simpl.
    destruct (decide (i' = i)) as [->|Hne].
    + rewrite list_lookup_total_insert_eq by exact Hi.
      rewrite decide_True by done. reflexivity.
    + rewrite list_lookup_total_insert_ne by congruence.
      rewrite decide_False by (intros [_ ?]; contradiction). reflexivity.
  - rewrite objGet_objSet_ne by congruence.
    rewrite decide_False by (intros [? _]; contradiction). reflexivity.
Qed.

Lemma extraOf_bump (st : quota) (r r' : string) (i : nat) :
  extraOf (extras (bump st r i)) r'
  = if decide (r' = r) then (extraOf (extras st) r' - 1)%Z
    else extraOf (extras st) r'.
Proof.
  unfold bump, extraOf at 1. simpl.
  destruct (decide (r' = r)) as [->|Hr].
  - rewrite objGet_objSet_eq. reflexivity.
  - rewrite objGet_objSet_ne by congruence. reflexivity.
Qed.

Lemma deficits_bump (st : quota) (r : string) (i i' : nat) :
  i < length (deficits st) ->
  deficits (bump st r i) !!! i'
  = if decide (i' = i) then (deficits st !!! i' - 1)%Z else deficits st !!! i'.
Proof.
  intros Hi. unfold bump. simpl.
  destruct (decide (i' = i)) as [->|Hne].
  - apply list_lookup_total_insert_eq. exact Hi.
  - apply list_lookup_total_insert_ne. congruence.
Qed.

Lemma length_deficits_bump (st : quota) (r : string) (i : nat) :
  length (deficits (bump st r i)) = length (deficits st).
Proof. unfold bump. simpl. apply length_insert. Qed.

Lemma wellFormed_bump (roles : list string) (g : nat) (st : quota)
    (r : string) (i : nat) :
  wellFormed roles g st -> r ∈ roles -> wellFormed roles g (bump st r i).
Proof.
  intros [HkT HkE Hrows Hdef] Hr. split; unfold bump; simpl.
  - rewrite keys_objSet_in by (rewrite HkT; exact Hr). exact HkT.
  - rewrite keys_objSet_in by (rewrite HkE; exact Hr). exact HkE.
  - intros r' Hr'. destruct (decide (r' = r)) as [->|Hne].
    + rewrite objGet_objSet_eq. simpl. rewrite length_insert. apply Hrows. exact Hr.
    + rewrite objGet_objSet_ne by congruence. apply Hrows. exact Hr'.
  - rewrite length_insert. exact Hdef.
Qed.

Lemma balanced_bump (sizes : list nat) (countsByRole : obj nat)
    (roles : list string) (st : quota) (r : string) (i : nat) :
  NoDup roles ->
  balanced sizes countsByRole roles st ->
  r ∈ roles -> i < length sizes -> (0 < extraOf (extras st) r)%Z ->
  balanced sizes countsByRole roles (bump st r i).
Proof.
  intros Hnd [Hwf Hrows Hcols Hex Hcells] Hr Hi Hpos.
  assert (Hrow : i < length (default [] (objGet (targets st) r)))
    by (rewrite (wf_rows _ _ _ Hwf r Hr); exact Hi).
  assert (Hdef : i < length (deficits st))
    by (rewrite (wf_deficits _ _ _ Hwf); exact Hi).
  split.
  - apply wellFormed_bump; assumption.
  - intros r' Hr'. rewrite extraOf_bump.
    destruct (decide (r' = r)) as [->|Hne].
    + rewrite (bigZ_point (cell (targets st) r) _ _ i 1%Z).
      * specialize (Hrows r Hr). lia.
      * apply NoDup_seq.
      * apply elem_of_seq. lia.
      * intros i' _. rewrite cell_bump by exact Hrow.
        destruct (decide (i' = i)) as [->|Hi'].
        -- rewrite decide_True by done. reflexivity.
        -- rewrite decide_False by (intros [_ ?]; contradiction). reflexivity.
    + rewrite (bigZ_ext _ (cell (targets st) r')).
      * apply Hrows. exact Hr'.
      * intros i' _. rewrite cell_bump by exact Hrow.
        rewrite decide_False by (intros [? _]; contradiction). reflexivity.
  - intros i' Hi'. rewrite deficits_bump by exact Hdef.
    destruct (decide (i' = i)) as [->|Hne].
    + rewrite (bigZ_point (fun r' => cell (targets st) r' i) _ _ r 1%Z).
      * specialize (Hcols i Hi). lia.
      * exact Hnd.
      * exact Hr.
      * intros r' _. rewrite cell_bump by exact Hrow.
        destruct (decide (r' = r)) as [->|Hr'].
        -- rewrite decide_True by done. reflexivity.
        -- rewrite decide_False by (intros [? _]; contradiction). reflexivity.
    + rewrite (bigZ_ext _ (fun r' => cell (targets st) r' i')).
      * apply Hcols. exact Hi'.
      * intros r' _. rewrite cell_bump by exact Hrow.
        rewrite decide_False by (intros [_ ?]; contradiction). reflexivity.
  - intros r' Hr'. rewrite extraOf_bump.
    specialize (Hex r' Hr'). destruct (decide (r' = r)) as [->|_]; lia.
  - intros r' i' Hr' Hi'. rewrite cell_bump by exact Hrow.
    specialize (Hcells r' i' Hr' Hi'). destruct (decide _); lia.
Qed.

Lemma deficitsNonneg_bump (st : quota) (r : string) (i : nat) :
  deficitsNonneg st -> (0 < deficits st !!! i)%Z ->
  deficitsNonneg (bump st r i).
Proof.
  intros Hnn Hpos i' Hi'. rewrite length_deficits_bump in Hi'.
  destruct (decide (i < length (deficits st))) as [Hi|Hi].
  - rewrite deficits_bump by exact Hi. specialize (Hnn i' Hi').
    destruct (decide (i' = i)) as [->|_]; lia.
  - unfold bump. simpl. rewrite list_insert_ge by lia. apply Hnn. exact Hi'.
Qed.

(** ** The walk over the sorted pairs (lines 124-130) *)

Lemma allPairs_valid (roles : list string) (g : nat) (rm : obj (list Q)) :
  Forall (validPair roles g) (allPairs roles g rm).
Proof.
  apply Forall_forall. intros p Hp. unfold allPairs in Hp.
  apply list_elem_of_In, in_flat_map in Hp. destruct Hp as (r & Hr & Hp).
  apply in_map_iff in Hp. destruct Hp as (i & <- & Hi).
  split; simpl.
  - apply list_elem_of_In. exact Hr.
  - apply in_seq in Hi. lia.
Qed.

Lemma sortPairs_perm (pairs : list pair) : sortPairs pairs ≡ₚ pairs.
Proof. apply stableSort_perm. Qed.

Lemma sortedPairs_valid (roles : list string) (g : nat) (rm : obj (list Q))
    (src : list nat) :
  Forall (validPair roles g)
    (sortPairs (shuffleInPlace (allPairs roles g rm) src).1).
Proof.
  rewrite sortPairs_perm, shuffleInPlace_perm. apply allPairs_valid.
Qed.

Lemma walkPairs_balanced (sizes : list nat) (countsByRole : obj nat)
    (roles : list string) (pairs : list pair) (st : quota) :
  NoDup roles ->
  Forall (validPair roles (length sizes)) pairs ->
  balanced sizes countsByRole roles st ->
  balanced sizes countsByRole roles (walkPairs pairs st).
Proof.
  intros Hnd Hpairs. revert st.
  induction Hpairs as [|p pairs [Hr Hi] _ IH]; intros st Hbal; [exact Hbal|].
  unfold walkPairs in *. simpl.
  destruct (Z.leb_spec (extraOf (extras st) (pair_r p)) 0); [apply IH; exact Hbal|].
  destruct (Z.leb_spec (deficits st !!! pair_i p) 0); [apply IH; exact Hbal|].
  apply IH. apply balanced_bump; assumption.
Qed.

Lemma walkPairs_deficitsNonneg (pairs : list pair) (st : quota) :
  deficitsNonneg st -> deficitsNonneg (walkPairs pairs st).
Proof.
  revert st. induction pairs as [|p pairs IH]; intros st Hnn; [exact Hnn|].
  unfold walkPairs in *. simpl.
  destruct (Z.leb_spec (extraOf (extras st) (pair_r p)) 0); [apply IH; exact Hnn|].
  destruct (Z.leb_spec (deficits st !!! pair_i p) 0); [apply IH; exact Hnn|].
  apply IH. apply deficitsNonneg_bump; [exact Hnn|lia].
Qed.

(** ** The residual pass (lines 134-162) *)

Lemma pickBest_keeps_Some (roles : list string) (rm : obj (list Q)) (ex : obj Z)
    (i : nat) (b : string) (bq : Q) (be : Z) :
  exists r q e,
    fold_left (considerRole rm ex i) roles (Some b, bq, be) = (Some r, q, e)
    /\ (r = b \/ (r ∈ roles /\ (0 < extraOf ex r)%Z)).
Proof.
  revert b bq be. induction roles as [|r0 roles IH]; intros b bq be; simpl.
  - exists b, bq, be. split; [reflexivity|left; reflexivity].
  - destruct (Z.ltb_spec 0 (extraOf ex r0)) as [Hpos|Hle].
    + destruct (negb (Qle_bool (cellQ rm r0 i) bq)
                || (Qeq_bool (cellQ rm r0 i) bq && (be <? extraOf ex r0)%Z)).
      * destruct (IH r0 (cellQ rm r0 i) (extraOf ex r0)) as (r & q & e & Heq & Hr).
        exists r, q, e. split; [exact Heq|]. right.
        destruct Hr as [->|[Hr Hp]].
        -- split; [apply elem_of_cons; left; reflexivity|exact Hpos].
        -- split; [apply elem_of_cons; right; exact Hr|exact Hp].
      * destruct (IH b bq be) as (r & q & e & Heq & Hr).
        exists r, q, e. split; [exact Heq|].
        destruct Hr as [->|[Hr Hp]]; [left; reflexivity|right].
        split; [apply elem_of_cons; right; exact Hr|exact Hp].
    + destruct (IH b bq be) as (r & q & e & Heq & Hr).
      exists r, q, e. split; [exact Heq|].
      destruct Hr as [->|[Hr Hp]]; [left; reflexivity|right].
      split; [apply elem_of_cons; right; exact Hr|exact Hp].
Qed.

Lemma pickBest_from_None (roles : list string) (rm : obj (list Q)) (ex : obj Z)
    (i : nat) (bq : Q) (be : Z) :
  (bq < 0)%Q ->
  (forall r, r ∈ roles -> (0 <= cellQ rm r i)%Q) ->
  let result :=
    fold_left (considerRole rm ex i) roles (None, bq, be) in
  match result.1.1 with
  | Some r => r ∈ roles /\ (0 < extraOf ex r)%Z
  | None => forall r, r ∈ roles -> (extraOf ex r <= 0)%Z
  end.
Proof.
  intros Hbq Hrem. revert Hrem. induction roles as [|r0 roles IH]; intros Hrem; simpl.
  - intros r Hr. apply elem_of_nil in Hr. contradiction.
  - destruct (Z.ltb_spec 0 (extraOf ex r0)) as [Hpos|Hle].
    + assert (Hgt : negb (Qle_bool (cellQ rm r0 i) bq) = true).
      { apply negb_true_iff. apply not_true_iff_false. intros Hle.
        apply Qle_bool_iff in Hle.
        pose proof (Hrem r0 (list_elem_of_here r0 roles)). lra. }
      rewrite Hgt. simpl.
      destruct (pickBest_keeps_Some roles rm ex i r0 (cellQ rm r0 i) (extraOf ex r0))
        as (r & q & e & Heq & Hr).
      rewrite Heq. simpl.
      destruct Hr as [->|[Hr Hp]].
      * split; [apply elem_of_cons; left; reflexivity|exact Hpos].
      * split; [apply elem_of_cons; right; exact Hr|exact Hp].
    + specialize (IH (fun r Hr => Hrem r (list_elem_of_further _ r0 _ Hr))).
      simpl in IH.
      destruct (fold_left (considerRole rm ex i) roles (None, bq, be)) as [[[r|] q] e]; simpl in *.
      * destruct IH as [Hr Hp]. split; [apply elem_of_cons; right; exact Hr|exact Hp].
      * intros r Hr. apply elem_of_cons in Hr. destruct Hr as [->|Hr]; [exact Hle|].
        apply IH. exact Hr.
Qed.

Lemma pickBest_spec (roles : list string) (rm : obj (list Q)) (ex : obj Z)
    (i : nat) :
  (forall r, r ∈ roles -> (0 <= cellQ rm r i)%Q) ->
  match (pickBest roles rm ex i).1.1 with
  | Some r => r ∈ roles /\ (0 < extraOf ex r)%Z
  | None => forall r, r ∈ roles -> (extraOf ex r <= 0)%Z
  end.
Proof.
  intros Hrem. unfold pickBest.
  apply (pickBest_from_None roles rm ex i (-1)%Q (-1)%Z); [reflexivity|exact Hrem].
Qed.

(** The role that [pickBest] answers has extras, whatever the remainders. *)
Lemma considerRole_fold_Some (roles : list string) (rm : obj (list Q))
    (ex : obj Z) (i : nat) (bq : Q) (be : Z) (r : string) :
  (fold_left (considerRole rm ex i) roles (None, bq, be)).1.1 = Some r ->
  r ∈ roles /\ (0 < extraOf ex r)%Z.
Proof.
  revert bq be. induction roles as [|r0 roles IH]; intros bq be; simpl;
    [discriminate|].
  destruct (Z.ltb_spec 0 (extraOf ex r0)) as [Hpos|Hle].
  - destruct (negb (Qle_bool (cellQ rm r0 i) bq)
              || (Qeq_bool (cellQ rm r0 i) bq && (be <? extraOf ex r0)%Z)).
    + destruct (pickBest_keeps_Some roles rm ex i r0 (cellQ rm r0 i) (extraOf ex r0))
        as (r' & q & e & Heq & Hr).
      rewrite Heq. simpl. intros [= <-].
      destruct Hr as [->|[Hr Hp]].
      * split; [apply elem_of_cons; left; reflexivity|exact Hpos].
      * split; [apply elem_of_cons; right; exact Hr|exact Hp].
    + intros Hs. destruct (IH bq be Hs) as [Hr Hp].
      split; [apply elem_of_cons; right; exact Hr|exact Hp].
  - intros Hs. destruct (IH bq be Hs) as [Hr Hp].
    split; [apply elem_of_cons; right; exact Hr|exact Hp].
Qed.

Lemma pickBest_Some (roles : list string) (rm : obj (list Q)) (ex : obj Z)
    (i : nat) (r : string) :
  (pickBest roles rm ex i).1.1 = Some r -> r ∈ roles /\ (0 < extraOf ex r)%Z.
Proof. apply considerRole_fold_Some. Qed.

Lemma totalExtras_bump (roles : list string) (st : quota) (r : string) (i : nat) :
  NoDup roles -> r ∈ roles ->
  totalExtras (extras (bump st r i)) roles
  = (totalExtras (extras st) roles - 1)%Z.
Proof.
  intros Hnd Hr. rewrite !totalExtras_bigZ.
  rewrite (bigZ_point (extraOf (extras st)) _ roles r (-1)%Z); [lia|exact Hnd|exact Hr|].
  intros r' _. rewrite extraOf_bump. destruct (decide (r' = r)); lia.
Qed.

Lemma sumZ_deficits_bump (st : quota) (r : string) (i : nat) :
  i < length (deficits st) ->
  sumZ (deficits (bump st r i)) = (sumZ (deficits st) - 1)%Z.
Proof.
  intros Hi. rewrite !sumZ_bigZ, !bigZ_lookups, length_deficits_bump.
  rewrite (bigZ_point (fun i' => deficits st !!! i') _ _ i (-1)%Z);
    [lia|apply NoDup_seq|apply elem_of_seq; lia|].
  intros i' _. rewrite deficits_bump by exact Hi. destruct (decide (i' = i)); lia.
Qed.

Lemma totalExtras_nonneg (sizes : list nat) (countsByRole : obj nat)
    (roles : list string) (st : quota) :
  balanced sizes countsByRole roles st -> (0 <= totalExtras (extras st) roles)%Z.
Proof.
  intros Hbal. rewrite totalExtras_bigZ. apply bigZ_nonneg.
  apply (bal_extras _ _ _ _ Hbal).
Qed.

Section residual.
Variables (sizes : list nat) (countsByRole : obj nat) (roles : list string)
          (rm : obj (list Q)).
Hypothesis roles_NoDup : NoDup roles.

Lemma stepsFrom_refl st rd :
  balanced sizes countsByRole roles st -> stepsFrom sizes countsByRole roles st rd st rd.
Proof.
  intros Hbal. split; [exact Hbal|].
  split; [auto|]. split; [lia|]. split; [lia|auto].
Qed.

Lemma fillDeficit_spec (i count : nat) (st : quota) (rd : Z) (st' : quota)
    (rd' : Z) :
  i < length sizes ->
  balanced sizes countsByRole roles st ->
  fillDeficit count roles rm i st rd = (st', rd') ->
  stepsFrom sizes countsByRole roles st rd st' rd'.
Proof.
  intros Hi. revert st rd.
  induction count as [|count IH]; intros st rd Hbal Hrun; simpl in Hrun.
  - inversion Hrun; subst. apply stepsFrom_refl. exact Hbal.
  - destruct (Z.ltb_spec 0 (deficits st !!! i)) as [Hdef|Hdef];
      [|inversion Hrun; subst; apply stepsFrom_refl; exact Hbal].
    destruct (pickBest roles rm (extras st) i) as [[bestRole q] e] eqn:Hpick.
    destruct bestRole as [r|]; simpl in Hrun;
      [|inversion Hrun; subst; apply stepsFrom_refl; exact Hbal].
    destruct (String.eqb r EmptyString);
      [inversion Hrun; subst; apply stepsFrom_refl; exact Hbal|].
    destruct (pickBest_Some roles rm (extras st) i r) as [Hr Hpos];
      [rewrite Hpick; reflexivity|].
    assert (Hlen : i < length (deficits st))
      by (rewrite (wf_deficits _ _ _ (bal_wf _ _ _ _ Hbal)); exact Hi).
    destruct (IH _ _ (balanced_bump _ _ _ _ _ _ roles_NoDup Hbal Hr Hi Hpos) Hrun)
      as (Hbal' & Hnn & Hrd & Hle & _).
    rewrite sumZ_deficits_bump in Hrd by exact Hlen.
    rewrite totalExtras_bump in Hle by assumption.
    split; [exact Hbal'|].
    split; [intros Hnn0; apply Hnn; apply deficitsNonneg_bump; assumption|].
    split; [lia|]. split; lia.
Qed.

Lemma fillGroups_spec (idxs : list nat) (st : quota) (rd : Z) (st' : quota)
    (rd' : Z) :
  Forall (fun i => i < length sizes) idxs ->
  balanced sizes countsByRole roles st ->
  fillGroups idxs roles rm st rd = (st', rd') ->
  stepsFrom sizes countsByRole roles st rd st' rd'.
Proof.
  intros Hidxs. revert st rd.
  induction Hidxs as [|i idxs Hi _ IH]; intros st rd Hbal Hrun; simpl in Hrun.
  - inversion Hrun; subst. apply stepsFrom_refl. exact Hbal.
  - destruct (0 <? rd)%Z;
      [|inversion Hrun; subst; apply stepsFrom_refl; exact Hbal].
    destruct (fillDeficit _ roles rm i st rd) as [st1 rd1] eqn:Hfill.
    destruct (fillDeficit_spec _ _ _ _ _ _ Hi Hbal Hfill)
      as (Hbal1 & Hnn1 & Hrd1 & Hle1 & Heq1).
    destruct (IH _ _ Hbal1 Hrun) as (Hbal' & Hnn' & Hrd' & Hle' & Heq').
    split; [exact Hbal'|].
    split; [intros Hnn; apply Hnn', Hnn1, Hnn|].
    split; [lia|]. split; [lia|].
    intros Heq.
    assert (st1 = st) by (apply Heq1; lia). subst st1.
    apply Heq'. exact Heq.
Qed.

(** Whatever way the residual pass ends, the counters stay balanced and
    either no seat or no extra is left. *)
Lemma residualPass_spec (fuel : nat) (st st' : quota) :
  balanced sizes countsByRole roles st ->
  residualPass fuel roles (length sizes) rm st (sumZ (deficits st)) = Some st' ->
  balanced sizes countsByRole roles st'
  /\ (deficitsNonneg st -> deficitsNonneg st')
  /\ ((sumZ (deficits st') <= 0)%Z \/ totalExtras (extras st') roles = 0%Z).
Proof.
  revert st. induction fuel as [|fuel IH]; intros st Hbal Hrun; simpl in Hrun.
  - destruct (Z.ltb_spec 0 (sumZ (deficits st))); [discriminate|].
    inversion Hrun; subst. split; [exact Hbal|]. split; [auto|left; lia].
  - destruct (Z.ltb_spec 0 (sumZ (deficits st))) as [Hrd|Hrd].
    + destruct (fillGroups _ roles rm st _) as [st1 rd1] eqn:Hfill.
      assert (Hidx : Forall (fun i => i < length sizes) (seq 0 (length sizes))).
      { apply Forall_forall. intros i Hi. apply elem_of_seq in Hi. lia. }
      destruct (fillGroups_spec _ _ _ _ _ Hidx Hbal Hfill)
        as (Hbal1 & Hnn1 & _ & _ & _).
      destruct (Z.eqb_spec (totalExtras (extras st1) roles) 0) as [Hzero|Hnz].
      * inversion Hrun; subst. split; [exact Hbal1|]. split; [exact Hnn1|right; exact Hzero].
      * destruct (IH _ Hbal1 Hrun) as (Hbal' & Hnn' & Hend).
        split; [exact Hbal'|]. split; [auto|exact Hend].
    + inversion Hrun; subst. split; [exact Hbal|]. split; [auto|left; lia].
Qed.

(** More fuel does not change an answer. *)
Lemma residualPass_more_fuel (fuel fuel' : nat) (g : nat) (st st' : quota)
    (rd : Z) :
  fuel <= fuel' ->
  residualPass fuel roles g rm st rd = Some st' ->
  residualPass fuel' roles g rm st rd = Some st'.
Proof.
  revert fuel' st rd. induction fuel as [|fuel IH]; intros fuel' st rd Hle Hrun.
  - simpl in Hrun. destruct (0 <? rd)%Z eqn:Hrd; [discriminate|].
    destruct fuel'; simpl; rewrite Hrd; exact Hrun.
  - destruct fuel' as [|fuel']; [lia|]. simpl in Hrun |- *.
    destruct (0 <? rd)%Z; [|exact Hrun].
    destruct (fillGroups _ roles rm st rd) as [st1 rd1].
    destruct (totalExtras (extras st1) roles =? 0)%Z; [exact Hrun|].
    apply IH; [lia|exact Hrun].
Qed.
End residual.

(** ** The residual pass comes to an end *)

Section residual_progress.
Variables (sizes : list nat) (countsByRole : obj nat) (roles : list string)
          (rm : obj (list Q)).
Hypothesis roles_NoDup : NoDup roles.
Hypothesis labels_nonempty : EmptyString ∉ roles.
Hypothesis rm_nonneg : forall r i, r ∈ roles -> (0 <= cellQ rm r i)%Q.

Lemma fillDeficit_progress (i : nat) (st : quota) (rd : Z) (st' : quota)
    (rd' : Z) :
  i < length sizes ->
  balanced sizes countsByRole roles st ->
  (0 < deficits st !!! i)%Z ->
  fillDeficit (Z.to_nat (deficits st !!! i)) roles rm i st rd = (st', rd') ->
  (totalExtras (extras st) roles = 0%Z /\ st' = st)
  \/ (totalExtras (extras st') roles < totalExtras (extras st) roles)%Z.
Proof.
  intros Hi Hbal Hdef Hrun.
  destruct (Z.to_nat (deficits st !!! i)) as [|count] eqn:Hcount; [lia|].
  simpl in Hrun.
  destruct (Z.ltb_spec 0 (deficits st !!! i)); [|lia].
  pose proof (pickBest_spec roles rm (extras st) i
                (fun r Hr => rm_nonneg r i Hr)) as Hpick.
  destruct (pickBest roles rm (extras st) i) as [[bestRole q] e].
  simpl in Hpick. destruct bestRole as [r|]; simpl in Hrun.
  - destruct Hpick as [Hr Hpos].
    destruct (String.eqb_spec r EmptyString) as [->|_]; [contradiction|].
    right.
    destruct (fillDeficit_spec sizes countsByRole roles rm roles_NoDup _ _ _ _ _ _
                Hi (balanced_bump _ _ _ _ _ _ roles_NoDup Hbal Hr Hi Hpos) Hrun)
      as (_ & _ & _ & Hle & _).
    rewrite totalExtras_bump in Hle by assumption. lia.
  - left. inversion Hrun; subst. split; [|reflexivity].
    rewrite totalExtras_bigZ.
    rewrite (bigZ_ext _ (fun _ => 0%Z)); [apply bigZ_zero|].
    intros r Hr. pose proof (Hpick r Hr). pose proof (bal_extras _ _ _ _ Hbal r Hr).
    lia.
Qed.

Lemma fillGroups_progress (idxs : list nat) (st : quota) (rd : Z)
    (st' : quota) (rd' : Z) :
  Forall (fun i => i < length sizes) idxs ->
  balanced sizes countsByRole roles st ->
  (0 < rd)%Z ->
  (exists i, i ∈ idxs /\ (0 < deficits st !!! i)%Z) ->
  fillGroups idxs roles rm st rd = (st', rd') ->
  (totalExtras (extras st) roles = 0%Z /\ st' = st)
  \/ (totalExtras (extras st') roles < totalExtras (extras st) roles)%Z.
Proof.
  intros Hidxs. revert st rd.
  induction Hidxs as [|i idxs Hi Hrest IH]; intros st rd Hbal Hrd Hex Hrun.
  - destruct Hex as (i & Hin & _). apply elem_of_nil in Hin. contradiction.
  - simpl in Hrun. destruct (Z.ltb_spec 0 rd); [|lia].
    destruct (fillDeficit _ roles rm i st rd) as [st1 rd1] eqn:Hfill.
    destruct (fillGroups_spec sizes countsByRole roles rm roles_NoDup
                idxs st1 rd1 st' rd' Hrest) as (Hbal' & _ & _ & Hle & Heq);
      [|exact Hrun|].
    { exact (proj1 (fillDeficit_spec sizes countsByRole roles rm roles_NoDup
                      _ _ _ _ _ _ Hi Hbal Hfill)). }
    destruct (decide (0 < deficits st !!! i)%Z) as [Hdef|Hdef].
    + destruct (fillDeficit_progress i st rd st1 rd1 Hi Hbal Hdef Hfill)
        as [[Hzero ->]|Hlt].
      * left. split; [exact Hzero|]. apply Heq.
        pose proof (totalExtras_nonneg _ _ _ _ Hbal'). lia.
      * right. lia.
    + replace (Z.to_nat (deficits st !!! i)) with 0 in Hfill by lia.
      simpl in Hfill. inversion Hfill; subst st1 rd1.
      apply (IH st rd Hbal Hrd); [|exact Hrun].
      destruct Hex as (i0 & Hin & Hpos). exists i0. split; [|exact Hpos].
      apply elem_of_cons in Hin. destruct Hin as [->|Hin]; [contradiction|exact Hin].
Qed.

Lemma residualPass_terminates (fuel : nat) (st : quota) :
  balanced sizes countsByRole roles st ->
  Z.to_nat (totalExtras (extras st) roles) < fuel ->
  exists st',
    residualPass fuel roles (length sizes) rm st (sumZ (deficits st)) = Some st'.
Proof.
  revert st. induction fuel as [|fuel IH]; intros st Hbal Hfuel; [lia|].
  simpl. destruct (Z.ltb_spec 0 (sumZ (deficits st))) as [Hrd|Hrd]; [|eauto].
  destruct (fillGroups _ roles rm st _) as [st1 rd1] eqn:Hfill.
  destruct (Z.eqb_spec (totalExtras (extras st1) roles) 0) as [Hzero|Hnz]; [eauto|].
  assert (Hidx : Forall (fun i => i < length sizes) (seq 0 (length sizes))).
  { apply Forall_forall. intros i Hi. apply elem_of_seq in Hi. lia. }
  assert (Hbal1 : balanced sizes countsByRole roles st1).
  { exact (proj1 (fillGroups_spec sizes countsByRole roles rm roles_NoDup
                    _ _ _ _ _ Hidx Hbal Hfill)). }
  assert (Hex : exists i, i ∈ seq 0 (length sizes) /\ (0 < deficits st !!! i)%Z).
  { rewrite sumZ_bigZ, bigZ_lookups in Hrd.
    rewrite (wf_deficits _ _ _ (bal_wf _ _ _ _ Hbal)) in Hrd.
    apply bigZ_pos_exists in Hrd. exact Hrd. }
  destruct (fillGroups_progress _ _ _ _ _ Hidx Hbal Hrd Hex Hfill)
    as [[Hzero ->]|Hlt].
  - contradiction.
  - apply IH; [exact Hbal1|].
    pose proof (totalExtras_nonneg _ _ _ _ Hbal1). lia.
Qed.
End residual_progress.

(** ** The table that [computeRoleTargets] returns *)

Lemma objGet_of_elem {V} (o : obj V) (k : string) (v : V) :
  NoDup o.*1 -> (k, v) ∈ o -> objGet o k = Some v.
Proof.
  induction o as [|[k' v'] o IH]; intros Hnd Hin.
  - apply elem_of_nil in Hin. contradiction.
  - rewrite fmap_cons in Hnd. apply NoDup_cons in Hnd. destruct Hnd as [Hk Hnd].
    simpl. apply elem_of_cons in Hin. destruct Hin as [[= -> ->]|Hin].
    + rewrite String.eqb_refl. reflexivity.
    + destruct (String.eqb_spec k' k) as [->|_]; [|apply IH; assumption].
      exfalso. apply Hk. simpl.
      apply (list_elem_of_fmap_2 fst) in Hin. exact Hin.
Qed.

(** Extras and deficits differ by as much as people and seats do. *)
Lemma balanced_totals (sizes : list nat) (countsByRole : obj nat) (st : quota) :
  NoDup countsByRole.*1 ->
  balanced sizes countsByRole (Object_keys countsByRole) st ->
  (totalExtras (extras st) (Object_keys countsByRole) - sumZ (deficits st)
   = Z.of_nat (sum_list countsByRole.*2) - Z.of_nat (sum_list sizes))%Z.
Proof.
  intros Hnd Hbal. set (roles := Object_keys countsByRole) in *.
  set (g := length sizes).
  rewrite totalExtras_bigZ, sumZ_bigZ, bigZ_lookups.
  rewrite (wf_deficits _ _ _ (bal_wf _ _ _ _ Hbal)). fold g.
  rewrite (bigZ_ext (extraOf (extras st))
             (fun r => (Z.of_nat (countOf countsByRole r)
                        - bigZ (cell (targets st) r) (seq 0 g))%Z)).
  2: { intros r Hr. pose proof (bal_rows _ _ _ _ Hbal r Hr). fold g in H. lia. }
  rewrite (bigZ_ext (fun i => deficits st !!! i)
             (fun i => (Z.of_nat (sizes !!! i)
                        - bigZ (fun r => cell (targets st) r i) roles)%Z)).
  2: { intros i Hi. apply elem_of_seq in Hi.
       pose proof (bal_cols _ _ _ _ Hbal i ltac:(fold g; lia)). lia. }
  rewrite !bigZ_minus.
  assert (Hx : bigZ (fun r => bigZ (cell (targets st) r) (seq 0 g)) roles
               = bigZ (fun i => bigZ (fun r => cell (targets st) r i) roles) (seq 0 g))
    by apply (bigZ_exchange (cell (targets st))).
  rewrite Hx.
  rewrite (bigZ_perm (fun r => Z.of_nat (countOf countsByRole r))
             roles countsByRole.*1) by apply Object_keys_perm.
  rewrite bigZ_counts by exact Hnd.
  unfold g. rewrite bigZ_sizes. lia.
Qed.

Lemma totalExtras_le_counts (sizes : list nat) (countsByRole : obj nat)
    (st : quota) :
  NoDup countsByRole.*1 ->
  balanced sizes countsByRole (Object_keys countsByRole) st ->
  (totalExtras (extras st) (Object_keys countsByRole)
   <= Z.of_nat (sum_list countsByRole.*2))%Z.
Proof.
  intros Hnd Hbal. rewrite totalExtras_bigZ.
  rewrite <- bigZ_counts by exact Hnd.
  rewrite <- (bigZ_perm (fun r => Z.of_nat (countOf countsByRole r))
                (Object_keys countsByRole) countsByRole.*1)
    by apply Object_keys_perm.
  apply bigZ_le. intros r Hr.
  pose proof (bal_rows _ _ _ _ Hbal r Hr) as Hrow.
  assert (0 <= bigZ (cell (targets st) r) (seq 0 (length sizes)))%Z; [|lia].
  apply bigZ_nonneg. intros i Hi. apply elem_of_seq in Hi.
  apply (bal_cells _ _ _ _ Hbal); [exact Hr|lia].
Qed.

Lemma balanced_exactTable (sizes : list nat) (countsByRole : obj nat)
    (st : quota) :
  NoDup countsByRole.*1 ->
  balanced sizes countsByRole (Object_keys countsByRole) st ->
  (forall r, r ∈ Object_keys countsByRole -> extraOf (extras st) r = 0%Z) ->
  (forall i, i < length sizes -> deficits st !!! i = 0%Z) ->
  exactTable sizes countsByRole (targets st).
Proof.
  intros Hnd Hbal Hex Hdef.
  pose proof (bal_wf _ _ _ _ Hbal) as Hwf.
  pose proof (wf_targets _ _ _ Hwf) as Hkeys.
  assert (HndT : NoDup (targets st).*1)
    by (rewrite Hkeys; apply Object_keys_NoDup; exact Hnd).
  split; [exact Hkeys|]. split.
  - intros r row Hget.
    assert (Hr : r ∈ Object_keys countsByRole).
    { rewrite <- Hkeys. apply objGet_elem_of in Hget.
      apply (list_elem_of_fmap_2 fst) in Hget. exact Hget. }
    pose proof (wf_rows _ _ _ Hwf r Hr) as Hlen. rewrite Hget in Hlen. simpl in Hlen.
    assert (Hcell : forall i, cell (targets st) r i = row !!! i).
    { intros i. unfold cell. rewrite Hget. reflexivity. }
    split; [exact Hlen|]. split.
    + apply Forall_lookup. intros i c Hi.
      assert (i < length sizes).
      { rewrite <- Hlen. apply lookup_lt_is_Some. eauto. }
      rewrite <- (list_lookup_total_correct _ _ _ Hi), <- Hcell.
      apply (bal_cells _ _ _ _ Hbal); assumption.
    + rewrite sumZ_bigZ, bigZ_lookups, Hlen.
      rewrite (bigZ_ext _ (cell (targets st) r)) by (intros; symmetry; apply Hcell).
      pose proof (bal_rows _ _ _ _ Hbal r Hr). rewrite (Hex r Hr) in H. lia.
  - intros i Hi. rewrite sumZ_bigZ.
    change (map (fun row : list Z => row !!! i) (targets st).*2)
      with ((fun row : list Z => row !!! i) <$> (snd <$> targets st)).
    rewrite !bigZ_fmap.
    pose proof (bal_cols _ _ _ _ Hbal i Hi) as Hcol.
    rewrite (Hdef i Hi) in Hcol. rewrite <- Hkeys in Hcol.
    rewrite bigZ_fmap in Hcol.
    rewrite (bigZ_ext _ (fun kv => cell (targets st) kv.1 i)); [simpl in *; lia|].
    intros [k v] Hin. unfold cell. simpl.
    rewrite (objGet_of_elem _ _ _ HndT Hin). reflexivity.
Qed.

Lemma computeRoleTargets_pos (fuel : nat) (sizes : list nat)
    (countsByRole : obj nat) (src : list nat) :
  0 < sum_list sizes ->
  computeRoleTargets fuel sizes countsByRole src
  = match residualPass fuel (Object_keys countsByRole) (length sizes)
            (largestRemainders sizes countsByRole src).1.2
            (largestRemainders sizes countsByRole src).1.1
            (sumZ (deficits (largestRemainders sizes countsByRole src).1.1)) with
    | Some st' => Some (Targets (targets st'), (largestRemainders sizes countsByRole src).2)
    | None => None
    end.
Proof.
  intros Hn. unfold computeRoleTargets.
  destruct (largestRemainders sizes countsByRole src) as [[st rm] src'].
  rewrite fold_left_add_nat. simpl.
  destruct (Nat.eqb_spec (sum_list sizes) 0); [lia|]. reflexivity.
Qed.

Lemma walked_balanced (sizes : list nat) (countsByRole : obj nat) (src : list nat) :
  NoDup countsByRole.*1 -> 0 < sum_list sizes ->
  balanced sizes countsByRole (Object_keys countsByRole)
    (largestRemainders sizes countsByRole src).1.1.
Proof.
  intros Hnd Hn. rewrite largestRemainders_eq by exact Hnd. simpl.
  apply walkPairs_balanced.
  - apply Object_keys_NoDup. exact Hnd.
  - apply sortedPairs_valid.
  - apply floorsState_balanced. exact Hn.
Qed.

Lemma walked_deficitsNonneg (sizes : list nat) (countsByRole : obj nat)
    (src : list nat) :
  NoDup countsByRole.*1 -> 0 < sum_list sizes ->
  sum_list countsByRole.*2 = sum_list sizes ->
  deficitsNonneg (largestRemainders sizes countsByRole src).1.1.
Proof.
  intros Hnd Hn Hmatch. rewrite largestRemainders_eq by exact Hnd. simpl.
  apply walkPairs_deficitsNonneg. apply floorsState_deficitsNonneg; assumption.
Qed.

Lemma fracsTable_nonneg (sizes : list nat) (countsByRole : obj nat) (r : string)
    (i : nat) :
  (0 <= cellQ (fracsTable sizes countsByRole) r i)%Q.
Proof.
  unfold cellQ.
  assert (Hrow : Forall (fun q => (0 <= q)%Q)
                   (default [] (objGet (fracsTable sizes countsByRole) r))).
  { destruct (objGet (fracsTable sizes countsByRole) r) as [row|] eqn:Hget;
      simpl; [|constructor].
    apply objGet_elem_of in Hget. unfold fracsTable in Hget.
    apply list_elem_of_In, in_map_iff in Hget. destruct Hget as (r' & [= <- <-] & _).
    unfold fracsRow. apply Forall_forall. intros q Hq.
    apply list_elem_of_In, in_map_iff in Hq. destruct Hq as (j & <- & _).
    apply fracQuota_nonneg. }
  revert i. induction Hrow as [|q row Hq _ IH]; intros [|i]; simpl;
    try apply Qle_refl; [exact Hq|apply IH].
Qed.

Lemma walked_remainders (sizes : list nat) (countsByRole : obj nat) (src : list nat) :
  NoDup countsByRole.*1 ->
  (largestRemainders sizes countsByRole src).1.2 = fracsTable sizes countsByRole.
Proof. intros Hnd. rewrite largestRemainders_eq by exact Hnd. reflexivity. Qed.

Lemma residualPass_done (fuel : nat) (roles : list string) (g : nat)
    (rm : obj (list Q)) (st : quota) (rd : Z) :
  (rd <= 0)%Z -> residualPass fuel roles g rm st rd = Some st.
Proof.
  intros Hrd. destruct fuel; simpl; destruct (Z.ltb_spec 0 rd); try lia; reflexivity.
Qed.


Lemma zero_of_sum_zero (l : list Z) :
  (forall i, i < length l -> (0 <= l !!! i)%Z) -> (sumZ l <= 0)%Z ->
  forall i, i < length l -> l !!! i = 0%Z.
Proof.
  intros Hnn Hsum i Hi. rewrite sumZ_bigZ, bigZ_lookups in Hsum.
  assert (Hle : (l !!! i <= bigZ (fun j => l !!! j) (seq 0 (length l)))%Z).
  { apply (bigZ_elem_le (fun j => l !!! j)).
    - intros j Hj. apply elem_of_seq in Hj. apply Hnn. lia.
    - apply elem_of_seq. lia. }
  specialize (Hnn i Hi). lia.
Qed.

Lemma zero_of_total_zero (ex : obj Z) (roles : list string) :
  (forall r, r ∈ roles -> (0 <= extraOf ex r)%Z) ->
  (totalExtras ex roles <= 0)%Z ->
  forall r, r ∈ roles -> extraOf ex r = 0%Z.
Proof.
  intros Hnn Hsum r Hr. rewrite totalExtras_bigZ in Hsum.
  pose proof (bigZ_elem_le (extraOf ex) roles r Hnn Hr).
  specialize (Hnn r Hr). lia.
Qed.

(** With as many people as seats, whatever the residual pass returns is a
    table with both sum invariants. *)
Lemma residualPass_exact (fuel : nat) (sizes : list nat) (countsByRole : obj nat)
    (rm : obj (list Q)) (st st' : quota) :
  NoDup countsByRole.*1 ->
  sum_list countsByRole.*2 = sum_list sizes ->
  balanced sizes countsByRole (Object_keys countsByRole) st ->
  deficitsNonneg st ->
  residualPass fuel (Object_keys countsByRole) (length sizes) rm st
    (sumZ (deficits st)) = Some st' ->
  exactTable sizes countsByRole (targets st').
Proof.
  intros Hnd Hmatch Hbal Hnn Hrun.
  destruct (residualPass_spec sizes countsByRole (Object_keys countsByRole) rm
              (Object_keys_NoDup _ Hnd) fuel st st' Hbal Hrun)
    as (Hbal' & Hnn' & Hend).
  specialize (Hnn' Hnn).
  pose proof (balanced_totals sizes countsByRole st' Hnd Hbal') as Htot.
  pose proof (totalExtras_nonneg _ _ _ _ Hbal') as HE.
  assert (HD : (0 <= sumZ (deficits st'))%Z).
  { rewrite sumZ_bigZ, bigZ_lookups. apply bigZ_nonneg.
    intros i Hi. apply elem_of_seq in Hi. apply Hnn'. lia. }
  apply balanced_exactTable; [exact Hnd|exact Hbal'| |].
  - apply zero_of_total_zero; [apply (bal_extras _ _ _ _ Hbal')|]. lia.
  - intros i Hi. apply zero_of_sum_zero; [exact Hnn'|lia|].
    rewrite (wf_deficits _ _ _ (bal_wf _ _ _ _ Hbal')). exact Hi.
Qed.

(** The sum invariants depend neither on the order in which the pairs are
    walked nor on the remainders that the residual pass compares. *)
Lemma exact_for_every_order (fuel : nat) (sizes : list nat)
    (countsByRole : obj nat) (pairs : list pair) (rm : obj (list Q))
    (st' : quota) :
  NoDup countsByRole.*1 ->
  0 < sum_list sizes ->
  sum_list countsByRole.*2 = sum_list sizes ->
  Forall (validPair (Object_keys countsByRole) (length sizes)) pairs ->
  residualPass fuel (Object_keys countsByRole) (length sizes) rm
    (walkPairs pairs (floorsState sizes countsByRole))
    (sumZ (deficits (walkPairs pairs (floorsState sizes countsByRole))))
  = Some st' ->
  exactTable sizes countsByRole (targets st').
Proof.
  intros Hnd Hn Hmatch Hpairs Hrun.
  eapply residualPass_exact; [exact Hnd|exact Hmatch| | |exact Hrun].
  - apply walkPairs_balanced.
    + apply Object_keys_NoDup. exact Hnd.
    + exact Hpairs.
    + apply floorsState_balanced. exact Hn.
  - apply walkPairs_deficitsNonneg. apply floorsState_deficitsNonneg; assumption.
Qed.

(** When no role is the empty string, the residual pass ends, and more fuel
    than there are people always reaches its end. *)
Lemma computeRoleTargets_returns (sizes : list nat) (countsByRole : obj nat)
    (src : list nat) :
  NoDup countsByRole.*1 -> 0 < sum_list sizes ->
  EmptyString ∉ countsByRole.*1 ->
  exists t src', forall fuel,
    sum_list countsByRole.*2 < fuel ->
    computeRoleTargets fuel sizes countsByRole src = Some (Targets t, src').
Proof.
  intros Hnd Hn Hlabels.
  pose proof (walked_balanced sizes countsByRole src Hnd Hn) as Hbal.
  pose proof (totalExtras_le_counts _ _ _ Hnd Hbal) as Hle.
  pose proof (totalExtras_nonneg _ _ _ _ Hbal) as HE.
  destruct (residualPass_terminates sizes countsByRole (Object_keys countsByRole)
              (largestRemainders sizes countsByRole src).1.2
              (Object_keys_NoDup _ Hnd))
    with (fuel := S (sum_list countsByRole.*2))
         (st := (largestRemainders sizes countsByRole src).1.1)
    as [st' Hrun].
  - rewrite Object_keys_elem. exact Hlabels.
  - intros r i _. rewrite walked_remainders by exact Hnd. apply fracsTable_nonneg.
  - exact Hbal.
  - lia.
  - exists (targets st'), (largestRemainders sizes countsByRole src).2.
    intros fuel Hfuel. rewrite computeRoleTargets_pos by exact Hn.
    rewrite (residualPass_more_fuel _ _ (S (sum_list countsByRole.*2)) fuel _ _ st')
      by (try lia; exact Hrun).
    reflexivity.
Qed.

Lemma computeRoleTargets_partial (fuel : nat) (sizes : list nat)
    (countsByRole : obj nat) (src : list nat) (rt : roleTargets)
    (src' : list nat) :
  NoDup countsByRole.*1 ->
  0 < sum_list sizes ->
  sum_list countsByRole.*2 = sum_list sizes ->
  computeRoleTargets fuel sizes countsByRole src = Some (rt, src') ->
  exists t, rt = Targets t /\ exactTable sizes countsByRole t.
Proof.
  intros Hnd Hn Hmatch Hrun. rewrite computeRoleTargets_pos in Hrun by exact Hn.
  destruct (residualPass fuel _ _ _ _ _) as [st'|] eqn:Hres; [|discriminate].
  inversion Hrun; subst. exists (targets st'). split; [reflexivity|].
  eapply residualPass_exact; [exact Hnd|exact Hmatch| | |exact Hres].
  - apply walked_balanced; assumption.
  - apply walked_deficitsNonneg; assumption.
Qed.

(** C1. With as many people as seats ([n > 0] of each), every table that
    [computeRoleTargets] returns has both sum invariants: the cells of a
    role sum to the count of the role, the cells of a group sum to its
    capacity, and no cell is negative.  Whatever the random source, such a
    table is returned when no role is the empty string. *)
Theorem computeRoleTargets_exact (sizes : list nat) (countsByRole : obj nat)
    (src : list nat) :
  NoDup countsByRole.*1 ->
  0 < sum_list sizes ->
  sum_list countsByRole.*2 = sum_list sizes ->
  (forall fuel rt src',
      computeRoleTargets fuel sizes countsByRole src = Some (rt, src') ->
      exists t, rt = Targets t /\ exactTable sizes countsByRole t)
  /\ (EmptyString ∉ countsByRole.*1 ->
      exists t src',
        exactTable sizes countsByRole t
        /\ forall fuel, sum_list countsByRole.*2 < fuel ->
             computeRoleTargets fuel sizes countsByRole src = Some (Targets t, src')).
Proof.
  intros Hnd Hn Hmatch.
  split.
  { intros fuel rt src' Hrun.
    exact (computeRoleTargets_partial fuel sizes countsByRole src rt src'
             Hnd Hn Hmatch Hrun). }
  intros Hlabels.
  destruct (computeRoleTargets_returns sizes countsByRole src Hnd Hn Hlabels)
    as (t & src' & Hrun).
  exists t, src'. split; [|exact Hrun].
  destruct (computeRoleTargets_partial _ _ _ _ _ _ Hnd Hn Hmatch
              (Hrun (S (sum_list countsByRole.*2)) ltac:(lia)))
    as (t' & [= <-] & Hexact).
  exact Hexact.
Qed.

Lemma computeRoleTargets_exact_witness :
  NoDup fiveAndFour.*1
  /\ 0 < sum_list [3; 3; 3]
  /\ sum_list fiveAndFour.*2 = sum_list [3; 3; 3]
  /\ ((forall fuel rt src',
         computeRoleTargets fuel [3; 3; 3] fiveAndFour draws = Some (rt, src') ->
         exists t, rt = Targets t /\ exactTable [3; 3; 3] fiveAndFour t)
      /\ (EmptyString ∉ fiveAndFour.*1 ->
          exists t src',
            exactTable [3; 3; 3] fiveAndFour t
            /\ forall fuel,
                 sum_list fiveAndFour.*2 < fuel ->
                 computeRoleTargets fuel [3; 3; 3] fiveAndFour draws
                 = Some (Targets t, src'))).
Proof.
  assert (Hnd : NoDup fiveAndFour.*1)
    by (apply (bool_decide_unpack _); vm_compute; exact I).
  split; [exact Hnd|]. split; [simpl; lia|]. split; [reflexivity|].
  apply (computeRoleTargets_exact [3; 3; 3] fiveAndFour draws Hnd);
    [simpl; lia|reflexivity].
Defined.

(** ** The scenario of nine people *)

Lemma walkPairs_no_extras (pairs : list pair) (st : quota) :
  Forall (fun p => (extraOf (extras st) (pair_r p) <= 0)%Z) pairs ->
  walkPairs pairs st = st.
Proof.
  unfold walkPairs. induction 1 as [|p pairs Hp _ IH]; simpl; [reflexivity|].
  destruct (Z.leb_spec (extraOf (extras st) (pair_r p)) 0); [exact IH|lia].
Qed.

Lemma computeRoleTargets_no_remainders (fuel : nat) (sizes : list nat)
    (countsByRole : obj nat) (src : list nat) :
  NoDup countsByRole.*1 -> 0 < sum_list sizes ->
  Forall (fun e => e.2 = 0%Z) (extras (floorsState sizes countsByRole)) ->
  sumZ (deficits (floorsState sizes countsByRole)) = 0%Z ->
  exists src',
    computeRoleTargets fuel sizes countsByRole src
    = Some (Targets (targets (floorsState sizes countsByRole)), src').
Proof.
  intros Hnd Hn Hex Hdef. rewrite computeRoleTargets_pos by exact Hn.
  rewrite largestRemainders_eq by exact Hnd. simpl.
  rewrite walkPairs_no_extras.
  - rewrite residualPass_done by lia. eauto.
  - apply Forall_forall. intros p _. unfold extraOf.
    destruct (objGet _ (pair_r p)) as [e|] eqn:Hget; simpl; [|lia].
    apply objGet_elem_of in Hget.
    rewrite Forall_forall in Hex. specialize (Hex _ Hget). simpl in Hex. lia.
Qed.

(** C6. Nine people, six of role A and three of role B, desired size 3:
    three groups of three, and whatever the random source the table gives
    every group two of A and one of B. *)
Theorem nine_people_scenario :
  computeGroupSizes 9 (JNumber 3) = Ok [3; 3; 3]
  /\ (forall fuel src, exists src',
        computeRoleTargets fuel [3; 3; 3] sixAndThree src
        = Some (Targets [("A"%string, [2; 2; 2]%Z); ("B"%string, [1; 1; 1]%Z)], src'))
  /\ (forall fuel src, exists src',
        computeRoleTargets fuel [3; 3; 3] threeAndSix src
        = Some (Targets [("B"%string, [1; 1; 1]%Z); ("A"%string, [2; 2; 2]%Z)], src')).
Proof.
  split; [reflexivity|].
  split; intros fuel src.
  - apply (computeRoleTargets_no_remainders fuel [3; 3; 3] sixAndThree src).
    + apply (bool_decide_unpack _). vm_compute. exact I.
    + simpl. lia.
    + vm_compute. repeat constructor.
    + vm_compute. reflexivity.
  - apply (computeRoleTargets_no_remainders fuel [3; 3; 3] threeAndSix src).
    + apply (bool_decide_unpack _). vm_compute. exact I.
    + simpl. lia.
    + vm_compute. repeat constructor.
    + vm_compute. reflexivity.
Qed.

(** ** A deficit that no role can fill *)

Lemma residualPass_S (fuel : nat) (roles : list string) (g : nat)
    (rm : obj (list Q)) (st : quota) (rd : Z) :
  residualPass (S fuel) roles g rm st rd
  = if (0 <? rd)%Z then
      let (st', _) := fillGroups (seq 0 g) roles rm st rd in
      if (totalExtras (extras st') roles =? 0)%Z then Some st'
      else residualPass fuel roles g rm st' (sumZ (deficits st'))
    else Some st.
Proof. reflexivity. Qed.

Lemma pickBest_no_extras (roles : list string) (rm : obj (list Q)) (ex : obj Z)
    (i : nat) :
  (forall r, r ∈ roles -> extraOf ex r = 0%Z) ->
  (pickBest roles rm ex i).1.1 = None.
Proof.
  intros Hex. destruct (pickBest roles rm ex i).1.1 as [r|] eqn:Hpick; [|reflexivity].
  apply pickBest_Some in Hpick. destruct Hpick as [Hr Hpos].
  rewrite (Hex r Hr) in Hpos. lia.
Qed.

Lemma fillDeficit_no_extras (count : nat) (roles : list string)
    (rm : obj (list Q)) (i : nat) (st : quota) (rd : Z) :
  (forall r, r ∈ roles -> extraOf (extras st) r = 0%Z) ->
  fillDeficit count roles rm i st rd = (st, rd).
Proof.
  intros Hex. destruct count as [|count]; simpl; [reflexivity|].
  destruct (0 <? deficits st !!! i)%Z; [|reflexivity].
  pose proof (pickBest_no_extras roles rm (extras st) i Hex) as Hpick.
  destruct (pickBest roles rm (extras st) i) as [[bestRole q] e].
  simpl in Hpick. subst bestRole. reflexivity.
Qed.

Lemma fillGroups_no_extras (idxs : list nat) (roles : list string)
    (rm : obj (list Q)) (st : quota) (rd : Z) :
  (forall r, r ∈ roles -> extraOf (extras st) r = 0%Z) ->
  fillGroups idxs roles rm st rd = (st, rd).
Proof.
  intros Hex. induction idxs as [|i idxs IH]; simpl; [reflexivity|].
  destruct (0 <? rd)%Z; [|reflexivity].
  rewrite fillDeficit_no_extras by exact Hex. exact IH.
Qed.

(** The counter of [fillDeficit] never cuts the loop short: when it
    answers, the group has no deficit left or [!bestRole] holds. *)
Lemma fillDeficit_complete (count : nat) (roles : list string)
    (rm : obj (list Q)) (i : nat) (st : quota) (rd : Z) :
  i < length (deficits st) ->
  Z.to_nat (deficits st !!! i) <= count ->
  (deficits (fillDeficit count roles rm i st rd).1 !!! i <= 0)%Z
  \/ falsyRole
       (pickBest roles rm (extras (fillDeficit count roles rm i st rd).1) i).1.1
     = true.
Proof.
  revert st rd. induction count as [|count IH]; intros st rd Hi Hcount; simpl.
  - left. lia.
  - destruct (Z.ltb_spec 0 (deficits st !!! i)) as [Hpos|Hle]; [|left; simpl; lia].
    destruct (pickBest roles rm (extras st) i) as [[bestRole q] e] eqn:Hpick.
    destruct (falsyRole bestRole) eqn:Hfalsy.
    + right. simpl. rewrite Hpick. exact Hfalsy.
    + apply IH.
      * rewrite length_deficits_bump. exact Hi.
      * rewrite deficits_bump by exact Hi. rewrite decide_True by reflexivity. lia.
Qed.

(** C4, as the code has it.  When some group still has a deficit while no
    role has extras (extras are never negative), the residual pass leaves
    its loops and hands the counters back: the table is returned as it
    stands, the group keeps its deficit, and no error is raised. *)
Theorem residualPass_leaves_deficit (fuel : nat) (roles : list string)
    (g : nat) (rm : obj (list Q)) (st : quota) (i : nat) :
  (0 < deficits st !!! i)%Z ->
  (forall r, r ∈ roles -> (extraOf (extras st) r <= 0)%Z) ->
  (forall r, r ∈ roles -> (0 <= extraOf (extras st) r)%Z) ->
  exists st',
    residualPass (S fuel) roles g rm st (sumZ (deficits st)) = Some st'
    /\ targets st' = targets st
    /\ (0 < deficits st' !!! i)%Z.
Proof.
  intros Hdef Hle Hge.
  assert (Hex : forall r, r ∈ roles -> extraOf (extras st) r = 0%Z).
  { intros r Hr. specialize (Hle r Hr). specialize (Hge r Hr). lia. }
  exists st. split; [|split; [reflexivity|exact Hdef]].
  rewrite residualPass_S.
  destruct (0 <? sumZ (deficits st))%Z; [|reflexivity].
  rewrite fillGroups_no_extras by exact Hex.
  rewrite totalExtras_bigZ.
  rewrite (bigZ_ext _ (fun _ => 0%Z)) by exact Hex.
  rewrite bigZ_zero. reflexivity.
Qed.

Lemma residualPass_leaves_deficit_witness :
  (0 < deficits shortState !!! 0%nat)%Z
  /\ (forall r, r ∈ ["A"%string] -> (extraOf (extras shortState) r <= 0)%Z)
  /\ (forall r, r ∈ ["A"%string] -> (0 <= extraOf (extras shortState) r)%Z)
  /\ exists st',
       residualPass 1 ["A"%string] 1 (fracsTable [2] oneForTwo) shortState
         (sumZ (deficits shortState))
       = Some st'
       /\ targets st' = targets shortState
       /\ (0 < deficits st' !!! 0%nat)%Z.
Proof.
  assert (Hdef : (0 < deficits shortState !!! 0%nat)%Z) by (vm_compute; reflexivity).
  assert (Hle : forall r, r ∈ ["A"%string] -> (extraOf (extras shortState) r <= 0)%Z).
  { intros r Hr. apply list_elem_of_singleton in Hr. subst r.
    vm_compute. discriminate. }
  assert (Hge : forall r, r ∈ ["A"%string] -> (0 <= extraOf (extras shortState) r)%Z).
  { intros r Hr. apply list_elem_of_singleton in Hr. subst r.
    vm_compute. discriminate. }
  split; [exact Hdef|]. split; [exact Hle|]. split; [exact Hge|].
  exact (residualPass_leaves_deficit 0 ["A"%string] 1 (fracsTable [2] oneForTwo)
           shortState 0 Hdef Hle Hge).
Defined.

(** One person of role A for one group of two: after the floors the group
    lacks one person and role A has no extras; the table is returned with
    the seat unfilled. *)
Lemma computeRoleTargets_returns_short_table :
  deficits shortState = [1%Z]
  /\ extras shortState = [("A"%string, 0%Z)]
  /\ computeRoleTargets 1 [2] oneForTwo []
     = Some (Targets [("A"%string, [1%Z])], []).
Proof. vm_compute. repeat split; reflexivity. Qed.

(** ** Every call comes to an end, unless a role is the empty string *)









(** ** Pools by role (lines 173-181) *)

Section pools.
Context {A : Type}.
Implicit Types (o : obj (list A)) (k : string) (v : list A).

Lemma NoDup_objSet o k v : NoDup o.*1 -> NoDup (objSet o k v).*1.
Proof.
  intros Hnd. destruct (decide (k ∈ o.*1)) as [Hin|Hout].
  - rewrite keys_objSet_in by exact Hin. exact Hnd.
  - rewrite objSet_fresh by exact Hout. rewrite fmap_app. simpl.
    apply NoDup_app. split; [exact Hnd|]. split.
    + intros x Hx Hx'. apply list_elem_of_singleton in Hx'. subst x. contradiction.
    + apply NoDup_singleton.
Qed.

(** All the pools together, before and after one pool is replaced. *)
Lemma concat_objSet o k v :
  concat (objSet o k v).*2 ++ default [] (objGet o k) ≡ₚ concat o.*2 ++ v.
Proof.
  induction o as [|[k' v'] o IH]; simpl.
  - rewrite !app_nil_r. reflexivity.
  - destruct (String.eqb_spec k' k) as [->|Hne]; rewrite !fmap_cons; simpl.
    + solve_Permutation.
    + rewrite <- app_assoc, IH. solve_Permutation.
Qed.

Lemma concat_pools_keys o :
  NoDup o.*1 -> concat o.*2 = concat (map (fun k => default [] (objGet o k)) o.*1).
Proof.
  induction o as [|[k v] o IH]; intros Hnd; [reflexivity|].
  rewrite fmap_cons in Hnd. apply NoDup_cons in Hnd. destruct Hnd as [Hk Hnd].
  rewrite !fmap_cons. simpl. rewrite String.eqb_refl. simpl. f_equal.
  rewrite IH by exact Hnd. f_equal.
  apply map_ext_in. intros k' Hk'. apply list_elem_of_In in Hk'.
  destruct (String.eqb_spec k k') as [->|_]; [contradiction|reflexivity].
Qed.

Lemma concat_map_perm (f : string -> list A) (l l' : list string) :
  l ≡ₚ l' -> concat (map f l) ≡ₚ concat (map f l').
Proof.
  induction 1 as [|x l l' _ IH|x y l|l l' l'' _ IH1 _ IH2]; simpl.
  - reflexivity.
  - rewrite IH. reflexivity.
  - rewrite !app_assoc. apply Permutation_app_tail. apply Permutation_app_comm.
  - rewrite IH1. exact IH2.
Qed.
End pools.

Lemma addPerson_spec (byRole byRole' : obj (list person)) (p : person) :
  NoDup byRole.*1 ->
  addPerson byRole p = Ok byRole' ->
  NoDup byRole'.*1
  /\ concat byRole'.*2 ≡ₚ concat byRole.*2 ++ [p]
  /\ (forall k, k ∈ byRole'.*1 -> k ∈ byRole.*1 \/ k = role p).
Proof.
  intros Hnd Hrun. unfold addPerson in Hrun.
  destruct (objGet byRole (role p)) as [pool|] eqn:Hget.
  - inversion Hrun; subst byRole'. split; [apply NoDup_objSet; exact Hnd|]. split.
    + pose proof (concat_objSet byRole (role p) (pool ++ [p])) as Hc.
      rewrite Hget in Hc. simpl in Hc.
      apply (Permutation_app_inv_r pool). rewrite Hc. solve_Permutation.
    + intros k Hk. left. rewrite keys_objSet_in in Hk; [exact Hk|].
      apply objGet_elem_of in Hget. apply (list_elem_of_fmap_2 fst) in Hget. exact Hget.
  - destruct (inheritedName (role p)); [discriminate|].
    inversion Hrun; subst byRole'. apply objGet_None in Hget.
    split; [apply NoDup_objSet; exact Hnd|].
    rewrite objSet_fresh by exact Hget. rewrite !fmap_app, concat_app. simpl.
    split; [reflexivity|].
    intros k Hk. apply elem_of_app in Hk. destruct Hk as [Hk|Hk]; [left; exact Hk|].
    right. apply list_elem_of_singleton in Hk. exact Hk.
Qed.

Lemma groupByRole_spec (people : list person) (byRole byRole' : obj (list person)) :
  NoDup byRole.*1 ->
  groupByRole people byRole = Ok byRole' ->
  NoDup byRole'.*1
  /\ concat byRole'.*2 ≡ₚ concat byRole.*2 ++ people
  /\ (forall k, k ∈ byRole'.*1 -> k ∈ byRole.*1 \/ exists p, p ∈ people /\ role p = k).
Proof.
  revert byRole. induction people as [|p people IH]; intros byRole Hnd Hrun; simpl in Hrun.
  - inversion Hrun; subst. split; [exact Hnd|]. rewrite app_nil_r. split; [reflexivity|].
    intros k Hk. left. exact Hk.
  - destruct (addPerson byRole p) as [byRole1|e] eqn:Hadd; [|discriminate].
    destruct (addPerson_spec _ _ _ Hnd Hadd) as (Hnd1 & Hperm1 & Hkeys1).
    destruct (IH _ Hnd1 Hrun) as (Hnd' & Hperm' & Hkeys').
    split; [exact Hnd'|]. split.
    + rewrite Hperm', Hperm1. rewrite <- app_assoc. reflexivity.
    + intros k Hk. destruct (Hkeys' k Hk) as [Hk1|(q & Hq & Hrole)].
      * destruct (Hkeys1 k Hk1) as [Hk0| ->]; [left; exact Hk0|].
        right. exists p. split; [apply elem_of_cons; left; reflexivity|reflexivity].
      * right. exists q. split; [apply elem_of_cons; right; exact Hq|exact Hrole].
Qed.

Lemma groupByRole_total (people : list person) (byRole : obj (list person)) :
  Forall (fun p => inheritedName (role p) = false) people ->
  exists byRole', groupByRole people byRole = Ok byRole'.
Proof.
  intros Hok. revert byRole. induction Hok as [|p people Hp _ IH]; intros byRole; simpl.
  - eauto.
  - unfold addPerson. rewrite Hp. destruct (objGet byRole (role p)); apply IH.
Qed.

Lemma shufflePools_spec (roles : list string) (byRole : obj (list person))
    (src : list nat) :
  Forall (fun r => r ∈ byRole.*1) roles ->
  (shufflePools roles byRole src).1.*1 = byRole.*1
  /\ concat (shufflePools roles byRole src).1.*2 ≡ₚ concat byRole.*2.
Proof.
  unfold shufflePools. intros Hroles. revert byRole src Hroles.
  induction roles as [|r roles IH]; intros byRole src Hroles; simpl.
  - split; reflexivity.
  - apply Forall_cons in Hroles. destruct Hroles as [Hr Hroles].
    destruct (shuffleInPlace (poolOf byRole r) src) as [pool src'] eqn:Hsh.
    assert (Hkeys : (objSet byRole r pool).*1 = byRole.*1)
      by (apply keys_objSet_in; exact Hr).
    destruct (IH (objSet byRole r pool) src') as [Hk Hp].
    { rewrite Hkeys. exact Hroles. }
    split; [rewrite Hk; exact Hkeys|].
    rewrite Hp.
    pose proof (concat_objSet byRole r pool) as Hc.
    assert (Hpool : pool ≡ₚ poolOf byRole r).
    { pose proof (shuffleInPlace_perm (poolOf byRole r) src) as Hs.
      rewrite Hsh in Hs. exact Hs. }
    fold (poolOf byRole r) in Hc.
    apply (Permutation_app_inv_r (poolOf byRole r)). rewrite Hc.
    apply Permutation_app_head. exact Hpool.
Qed.

(** ** Assignment by targets (lines 188-203) *)

Lemma concat_insert {A} (groups : list (list A)) (gi : nat) (old new : list A) :
  groups !! gi = Some old ->
  concat (<[gi := new]> groups) ++ old ≡ₚ concat groups ++ new.
Proof.
  intros Hgi.
  assert (Hlt : gi < length groups) by (apply lookup_lt_is_Some; eauto).
  rewrite insert_take_drop by exact Hlt.
  rewrite <- (take_drop_middle groups gi old Hgi) at 3.
  rewrite !concat_app. simpl. solve_Permutation.
Qed.

Lemma concat_insert_app {A} (groups : list (list A)) (gi : nat) (extra : list A) :
  gi < length groups ->
  concat (<[gi := groups !!! gi ++ extra]> groups) ≡ₚ concat groups ++ extra.
Proof.
  intros Hlt.
  assert (Hgi : groups !! gi = Some (groups !!! gi))
    by (apply list_lookup_lookup_total_lt; exact Hlt).
  apply (Permutation_app_inv_r (groups !!! gi)).
  rewrite (concat_insert groups gi _ _ Hgi). solve_Permutation.
Qed.

Lemma takeLoop_spec (need : nat) (r : string) (pool : list person) (gi : nat)
    (groups : list (list person)) (idx : nat) :
  gi < length groups -> idx <= length pool ->
  takeLoop need r pool gi groups idx
  = if decide (idx + need <= length pool)
    then Ok (<[gi := groups !!! gi ++ take need (drop idx pool)]> groups, idx + need)
    else Throw (InsufficientPeople r).
Proof.
  revert groups idx. induction need as [|need IH]; intros groups idx Hgi Hidx; simpl.
  - rewrite decide_True by lia. rewrite app_nil_r, Nat.add_0_r.
    rewrite list_insert_id; [reflexivity|].
    apply list_lookup_lookup_total_lt. exact Hgi.
  - destruct (pool !! idx) as [x|] eqn:Hx.
    + assert (Hlt : idx < length pool) by (apply lookup_lt_is_Some; eauto).
      rewrite IH by (unfold pushTo; rewrite ?length_insert; lia).
      destruct (decide (idx + 1 + need <= length pool)) as [Hle|Hgt].
      * rewrite decide_True by lia. f_equal. f_equal; [|lia].
        unfold pushTo. rewrite list_lookup_total_insert_eq by exact Hgi.
        rewrite list_insert_insert_eq. f_equal.
        rewrite <- app_assoc. f_equal.
        rewrite (drop_S pool x idx Hx). simpl. f_equal. f_equal. f_equal. lia.
      * rewrite decide_False by lia. reflexivity.
    + apply lookup_ge_None in Hx. rewrite decide_False by lia. reflexivity.
Qed.

Lemma assignRole_spec (rt : roleTargets) (r : string) (pool : list person)
    (gis : list nat) (groups : list (list person)) (idx : nat) :
  Forall (fun gi => gi < length groups) gis -> NoDup gis -> idx <= length pool ->
  let total := sum_list (map (needOf rt r) gis) in
  if decide (idx + total <= length pool) then
    exists groups',
      assignRole rt r pool gis groups idx = Ok (groups', idx + total)
      /\ length groups' = length groups
      /\ concat groups' ≡ₚ concat groups ++ take total (drop idx pool)
      /\ forall gi, length (groups' !!! gi)
                    = length (groups !!! gi)
                      + (if decide (gi ∈ gis) then needOf rt r gi else 0)
  else assignRole rt r pool gis groups idx = Throw (InsufficientPeople r).
Proof.
  intros Hgis. revert groups idx Hgis.
  induction gis as [|gi gis IH]; intros groups idx Hgis Hnd Hidx; simpl.
  - rewrite decide_True by lia. exists groups. rewrite Nat.add_0_r, app_nil_r.
    split; [reflexivity|]. split; [reflexivity|]. split; [reflexivity|].
    intros gi. lia.
  - apply Forall_cons in Hgis. destruct Hgis as [Hgi Hgis].
    apply NoDup_cons in Hnd. destruct Hnd as [Hnotin Hnd].
    rewrite takeLoop_spec by assumption.
    set (need := needOf rt r gi). set (rest := sum_list (map (needOf rt r) gis)).
    change (sum_list_with id (need :: map (needOf rt r) gis)) with (need + rest).
    destruct (decide (idx + need <= length pool)) as [Hle|Hgt];
      [|rewrite decide_False by lia; reflexivity].
    set (groups1 := <[gi := groups !!! gi ++ take need (drop idx pool)]> groups).
    assert (Hlen1 : length groups1 = length groups) by apply length_insert.
    specialize (IH groups1 (idx + need)).
    rewrite Hlen1 in IH. specialize (IH Hgis Hnd Hle). simpl in IH. fold rest in IH.
    destruct (decide (idx + need + rest <= length pool)) as [Hle'|Hgt'].
    + rewrite decide_True by lia.
      destruct IH as (groups' & Hrun & Hlen & Hperm & Hlens).
      exists groups'. split; [rewrite Hrun; f_equal; f_equal; lia|].
      split; [exact Hlen|]. split.
      * rewrite Hperm. unfold groups1. rewrite concat_insert_app by exact Hgi.
        rewrite <- app_assoc. apply Permutation_app_head.
        rewrite <- (take_take_drop (drop idx pool) need rest).
        rewrite drop_drop. reflexivity.
      * intros gj. rewrite Hlens. unfold groups1.
        destruct (decide (gj = gi)) as [->|Hne].
        -- rewrite list_lookup_total_insert_eq by exact Hgi.
           rewrite decide_False by exact Hnotin.
           rewrite decide_True by (apply elem_of_cons; left; reflexivity).
           rewrite length_app, length_take, length_drop. fold need. lia.
        -- rewrite list_lookup_total_insert_ne by congruence.
           destruct (decide (gj ∈ gis)) as [Hin|Hout].
           ++ rewrite decide_True by (apply elem_of_cons; right; exact Hin). reflexivity.
           ++ rewrite decide_False; [reflexivity|].
              intros Hin. apply elem_of_cons in Hin. destruct Hin; contradiction.
    + rewrite decide_False by lia. rewrite IH. reflexivity.
Qed.

Lemma poolOf_objSet (byRole : obj (list person)) (r k : string)
    (pool : list person) :
  poolOf (objSet byRole r pool) k
  = if decide (k = r) then pool else poolOf byRole k.
Proof.
  unfold poolOf. destruct (decide (k = r)) as [->|Hne].
  - rewrite objGet_objSet_eq. reflexivity.
  - rewrite objGet_objSet_ne by congruence. reflexivity.
Qed.

Lemma assignTargets_spec (rt : roleTargets) (g : nat) (roles : list string)
    (byRole : obj (list person)) (groups : list (list person)) :
  NoDup roles -> length groups = g ->
  match assignTargets rt roles g byRole groups with
  | Ok (groups', byRole') =>
      Forall (enoughPeople rt g byRole) roles
      /\ length groups' = g
      /\ concat groups' ++ concat byRole'.*2 ≡ₚ concat groups ++ concat byRole.*2
      /\ (forall gi, gi < g ->
            length (groups' !!! gi)
            = length (groups !!! gi) + sum_list (map (fun r => needOf rt r gi) roles))
      /\ (forall k, length (poolOf byRole' k)
                    = length (poolOf byRole k)
                      - (if decide (k ∈ roles) then needSum rt k g else 0))
      /\ (NoDup byRole.*1 -> NoDup byRole'.*1)
  | Throw e =>
      exists r, e = InsufficientPeople r /\ r ∈ roles
                /\ ~ enoughPeople rt g byRole r
  end.
Proof.
  intros Hnd. revert byRole groups.
  induction roles as [|r roles IH]; intros byRole groups Hlen; simpl.
  - split; [constructor|]. split; [exact Hlen|]. split; [reflexivity|].
    split; [intros; lia|]. split; [intros; lia|]. auto.
  - apply NoDup_cons in Hnd. destruct Hnd as [Hr Hnd].
    pose proof (assignRole_spec rt r (poolOf byRole r) (seq 0 g) groups 0) as Hrole.
    simpl in Hrole. fold (needSum rt r g) in Hrole.
    destruct (decide (needSum rt r g <= length (poolOf byRole r))) as [Hle|Hgt].
    + destruct Hrole as (groups1 & Hrun & Hlen1 & Hperm1 & Hlens1).
      { apply Forall_forall. intros gi Hgi. apply elem_of_seq in Hgi. lia. }
      { apply NoDup_seq. }
      { lia. }
      rewrite Hrun. rewrite drop_0 in Hperm1.
      set (byRole1 := objSet byRole r (drop (needSum rt r g) (poolOf byRole r))).
      specialize (IH Hnd byRole1 groups1 ltac:(lia)).
      assert (Hother : forall k, k ∈ roles -> poolOf byRole1 k = poolOf byRole k).
      { intros k Hk. unfold byRole1. rewrite poolOf_objSet.
        destruct (decide (k = r)) as [->|_]; [contradiction|reflexivity]. }
      destruct (assignTargets rt roles g byRole1 groups1) as [[groups' byRole']|e].
      * destruct IH as (Henough & Hlen' & Hperm' & Hlens' & Hpools' & Hnd').
        split.
        { apply Forall_cons. split; [exact Hle|].
          rewrite Forall_forall in Henough |- *. intros k Hk.
          specialize (Henough k Hk). unfold enoughPeople in *.
          rewrite <- (Hother k Hk). exact Henough. }
        split; [exact Hlen'|]. split.
        { rewrite Hperm', Hperm1.
          pose proof (concat_objSet byRole r
                        (drop (needSum rt r g) (poolOf byRole r))) as Hc.
          fold byRole1 in Hc. fold (poolOf byRole r) in Hc.
          rewrite <- (take_drop (needSum rt r g) (poolOf byRole r)) in Hc at 1.
          rewrite <- app_assoc.
          apply (Permutation_app_inv_r (drop (needSum rt r g) (poolOf byRole r))).
          rewrite <- !app_assoc.
          rewrite <- Hc. solve_Permutation. }
        split.
        { intros gi Hgi. rewrite (Hlens' gi Hgi), Hlens1.
          rewrite decide_True by (apply elem_of_seq; lia). simpl. lia. }
        split.
        { intros k. rewrite Hpools'. unfold byRole1. rewrite poolOf_objSet.
          destruct (decide (k = r)) as [->|Hne].
          - rewrite decide_False by exact Hr.
            rewrite decide_True by (apply elem_of_cons; left; reflexivity).
            rewrite length_drop. lia.
          - destruct (decide (k ∈ roles)) as [Hin|Hout].
            + rewrite decide_True by (apply elem_of_cons; right; exact Hin). reflexivity.
            + rewrite decide_False; [reflexivity|].
              intros Hin. apply elem_of_cons in Hin. destruct Hin; contradiction. }
        { intros Hnd0. apply Hnd'. apply NoDup_objSet. exact Hnd0. }
      * destruct IH as (k & -> & Hk & Hshort).
        exists k. split; [reflexivity|].
        split; [apply elem_of_cons; right; exact Hk|].
        unfold enoughPeople in *. rewrite <- (Hother k Hk). exact Hshort.
    + rewrite Hrole.
      * exists r. split; [reflexivity|].
        split; [apply elem_of_cons; left; reflexivity|exact Hgt].
      * apply Forall_forall. intros gi Hgi. apply elem_of_seq in Hgi. lia.
      * apply NoDup_seq.
      * lia.
Qed.

(** C8. When the table asks, for some role, for more people than the pool
    of the role holds, the assignment throws the error of line 195 for a
    role that lacks people, and what [allocateGroups] does with the table
    (lines 184-236) ends with that error in place of groups. *)
Theorem assignment_throws_when_short (rt : roleTargets) (sizes : list nat)
    (byRole : obj (list person)) (n : nat) (src : list nat) (r : string) :
  NoDup (targetRoles rt) ->
  r ∈ targetRoles rt ->
  length (poolOf byRole r) < needSum rt r (length sizes) ->
  exists r',
    r' ∈ targetRoles rt
    /\ length (poolOf byRole r') < needSum rt r' (length sizes)
    /\ assignTargets rt (targetRoles rt) (length sizes) byRole
         (replicate (length sizes) [])
       = Throw (InsufficientPeople r')
    /\ assignAndCheck rt sizes byRole n src = (Throw (InsufficientPeople r'), src).
Proof.
  intros Hnd Hr Hshort.
  pose proof (assignTargets_spec rt (length sizes) (targetRoles rt) byRole
                (replicate (length sizes) []) Hnd (length_replicate _ _)) as Hspec.
  unfold assignAndCheck.
  destruct (assignTargets rt (targetRoles rt) (length sizes) byRole
              (replicate (length sizes) [])) as [[groups' byRole']|e].
  - destruct Hspec as (Henough & _). rewrite Forall_forall in Henough.
    specialize (Henough r Hr). unfold enoughPeople in Henough. lia.
  - destruct Hspec as (r' & -> & Hr' & Hshort').
    exists r'. split; [exact Hr'|].
    split; [unfold enoughPeople in Hshort'; lia|]. split; reflexivity.
Qed.

Lemma assignment_throws_when_short_witness :
  NoDup (targetRoles threeOfA)
  /\ "A"%string ∈ targetRoles threeOfA
  /\ length (poolOf twoOfA "A") < needSum threeOfA "A" (length [2; 1])
  /\ exists r',
       r' ∈ targetRoles threeOfA
       /\ length (poolOf twoOfA r') < needSum threeOfA r' (length [2; 1])
       /\ assignTargets threeOfA (targetRoles threeOfA) (length [2; 1]) twoOfA
            (replicate (length [2; 1]) [])
          = Throw (InsufficientPeople r')
       /\ assignAndCheck threeOfA [2; 1] twoOfA 3 draws
          = (Throw (InsufficientPeople r'), draws).
Proof.
  assert (Hnd : NoDup (targetRoles threeOfA))
    by (apply (bool_decide_unpack _); vm_compute; exact I).
  assert (Hin : "A"%string ∈ targetRoles threeOfA)
    by (apply (bool_decide_unpack _); vm_compute; exact I).
  assert (Hshort : length (poolOf twoOfA "A") < needSum threeOfA "A" (length [2; 1]))
    by (vm_compute; lia).
  split; [exact Hnd|]. split; [exact Hin|]. split; [exact Hshort|].
  exact (assignment_throws_when_short threeOfA [2; 1] twoOfA 3 draws "A"
           Hnd Hin Hshort).
Defined.

(** ** Leftovers and checks (lines 205-226) *)

Lemma collectLeftovers_concat (byRole : obj (list person)) :
  collectLeftovers byRole = concat (map (poolOf byRole) (Object_keys byRole)).
Proof.
  unfold collectLeftovers.
  assert (Hgen : forall roles acc,
             fold_left
               (fun leftovers r =>
                  if length (poolOf byRole r) =? 0 then leftovers
                  else leftovers ++ poolOf byRole r) roles acc
             = acc ++ concat (map (poolOf byRole) roles)).
  { induction roles as [|r roles IH]; intros acc; simpl.
    - rewrite app_nil_r. reflexivity.
    - rewrite IH. destruct (Nat.eqb_spec (length (poolOf byRole r)) 0) as [Hz|_].
      + apply nil_length_inv in Hz. rewrite Hz. reflexivity.
      + rewrite <- app_assoc. reflexivity. }
  apply (Hgen _ []).
Qed.

Lemma collectLeftovers_perm (byRole : obj (list person)) :
  NoDup byRole.*1 -> collectLeftovers byRole ≡ₚ concat byRole.*2.
Proof.
  intros Hnd. rewrite collectLeftovers_concat.
  rewrite (concat_map_perm (poolOf byRole) _ _ (Object_keys_perm byRole)).
  rewrite (concat_pools_keys byRole Hnd). reflexivity.
Qed.

Lemma collectLeftovers_empty (byRole : obj (list person)) :
  (forall k, length (poolOf byRole k) = 0) -> collectLeftovers byRole = [].
Proof.
  intros Hempty. rewrite collectLeftovers_concat.
  induction (Object_keys byRole) as [|r roles IH]; simpl; [reflexivity|].
  rewrite (nil_length_inv _ (Hempty r)). exact IH.
Qed.

Lemma fillFromLeftovers_spec (stack group : list person) (size : nat) :
  (fillFromLeftovers stack group size).1 ++ (fillFromLeftovers stack group size).2
  = group ++ stack.
Proof.
  revert group. induction stack as [|x stack IH]; intros group; simpl; [reflexivity|].
  destruct (length group <? size); [|reflexivity].
  rewrite IH. rewrite <- app_assoc. reflexivity.
Qed.

Lemma distributeLeftovers_spec (gis : list nat) (sizes : list nat)
    (groups : list (list person)) (stack : list person) :
  Forall (fun gi => gi < length groups) gis ->
  length (distributeLeftovers gis sizes groups stack).1 = length groups
  /\ concat (distributeLeftovers gis sizes groups stack).1
       ++ (distributeLeftovers gis sizes groups stack).2
     ≡ₚ concat groups ++ stack.
Proof.
  intros Hgis. revert groups stack Hgis.
  induction gis as [|gi gis IH]; intros groups stack Hgis; simpl.
  - split; reflexivity.
  - apply Forall_cons in Hgis. destruct Hgis as [Hgi Hgis].
    destruct (0 <? length stack); [|split; reflexivity].
    pose proof (fillFromLeftovers_spec stack (groups !!! gi) (sizes !!! gi)) as Hfill.
    destruct (fillFromLeftovers stack (groups !!! gi) (sizes !!! gi))
      as [group stack'].
    simpl in Hfill.
    destruct (IH (<[gi := group]> groups) stack') as [Hlen Hperm].
    { rewrite length_insert. exact Hgis. }
    split; [rewrite Hlen; apply length_insert|].
    rewrite Hperm.
    assert (Hold : groups !! gi = Some (groups !!! gi))
      by (apply list_lookup_lookup_total_lt; exact Hgi).
    apply (Permutation_app_inv_r (groups !!! gi)).
    rewrite <- app_assoc.
    rewrite (Permutation_app_comm stack' (groups !!! gi)).
    rewrite app_assoc. rewrite (concat_insert groups gi _ group Hold).
    rewrite <- !app_assoc. apply Permutation_app_head.
    rewrite Hfill. solve_Permutation.
Qed.

Lemma distributeLeftovers_nothing (gis : list nat) (sizes : list nat)
    (groups : list (list person)) :
  distributeLeftovers gis sizes groups [] = (groups, []).
Proof. destruct gis; reflexivity. Qed.

Lemma sizesDisagree_false (g : nat) (groups : list (list person))
    (sizes : list nat) :
  sizesDisagree g groups sizes = false
  <-> forall gi, gi < g -> length (groups !!! gi) = sizes !!! gi.
Proof.
  unfold sizesDisagree. split.
  - intros Hfalse gi Hgi.
    destruct (Nat.eqb_spec (length (groups !!! gi)) (sizes !!! gi)) as [Heq|Hne];
      [exact Heq|].
    assert (Htrue : existsb
                      (fun gi => negb (length (groups !!! gi) =? sizes !!! gi))
                      (seq 0 g) = true).
    { apply existsb_exists. exists gi. split; [apply in_seq; lia|].
      apply negb_true_iff. apply Nat.eqb_neq. exact Hne. }
    congruence.
  - intros Hall. apply not_true_iff_false. intros Htrue.
    apply existsb_exists in Htrue. destruct Htrue as (gi & Hgi & Hneg).
    apply in_seq in Hgi. apply negb_true_iff, Nat.eqb_neq in Hneg.
    apply Hneg. apply Hall. lia.
Qed.

Lemma assignedCount_concat (groups : list (list person)) :
  assignedCount groups = length (concat groups).
Proof.
  unfold assignedCount.
  assert (Hgen : forall acc,
             fold_left (fun acc gr => acc + length gr) groups acc
             = acc + length (concat groups)).
  { induction groups as [|gr groups IH]; intros acc; simpl; [lia|].
    rewrite IH, length_app. lia. }
  apply (Hgen 0).
Qed.

(** ** [allocateGroups] as a whole *)

Lemma concat_replicate_nil {A} (g : nat) : concat (replicate g ([] : list A)) = [].
Proof. induction g as [|g IH]; simpl; [reflexivity|exact IH]. Qed.

Lemma shuffleInPlace_nil {A} (src : list nat) :
  shuffleInPlace ([] : list A) src = ([], src).
Proof. reflexivity. Qed.

(** Whatever the table, groups that pass the two checks hold everybody
    once. *)
Lemma assignAndCheck_partition (rt : roleTargets) (sizes : list nat)
    (byRole : obj (list person)) (n : nat) (src : list nat)
    (groups : list (list person)) (annotated : list (string * string * nat))
    (src' : list nat) :
  NoDup (targetRoles rt) -> NoDup byRole.*1 ->
  n = length (concat byRole.*2) ->
  assignAndCheck rt sizes byRole n src = (Ok (groups, annotated), src') ->
  concat groups ≡ₚ concat byRole.*2
  /\ length groups = length sizes
  /\ (forall gi, gi < length sizes -> length (groups !!! gi) = sizes !!! gi)
  /\ annotated = annotate (length sizes) groups.
Proof.
  intros Hroles Hnd Hn Hrun. unfold assignAndCheck in Hrun.
  pose proof (assignTargets_spec rt (length sizes) (targetRoles rt) byRole
                (replicate (length sizes) []) Hroles (length_replicate _ _)) as Hspec.
  destruct (assignTargets rt (targetRoles rt) (length sizes) byRole
              (replicate (length sizes) [])) as [[groups1 byRole']|e];
    [|discriminate].
  destruct Hspec as (_ & Hlen1 & Hperm1 & _ & _ & Hnd').
  rewrite concat_replicate_nil in Hperm1. simpl in Hperm1.
  pose proof (shuffleInPlace_perm (collectLeftovers byRole') src) as Hsh.
  destruct (shuffleInPlace (collectLeftovers byRole') src) as [leftovers src1].
  simpl in Hsh.
  pose proof (distributeLeftovers_spec (seq 0 (length sizes)) sizes groups1
                (rev leftovers)) as Hdist.
  destruct (distributeLeftovers (seq 0 (length sizes)) sizes groups1 (rev leftovers))
    as [groups2 stack'].
  simpl in Hdist. destruct Hdist as [Hlen2 Hperm2].
  { apply Forall_forall. intros gi Hgi. apply elem_of_seq in Hgi. lia. }
  destruct (sizesDisagree (length sizes) groups2 sizes) eqn:Hsizes; [discriminate|].
  destruct (Nat.eqb_spec (assignedCount groups2) n) as [Hcount|Hcount];
    simpl in Hrun; [|discriminate].
  inversion Hrun; subst groups annotated src'. clear Hrun.
  assert (Hall : concat groups2 ++ stack' ≡ₚ concat byRole.*2).
  { rewrite Hperm2. rewrite <- Hperm1. apply Permutation_app_head.
    rewrite <- (collectLeftovers_perm byRole' (Hnd' Hnd)).
    rewrite <- Hsh. symmetry. apply Permutation_rev. }
  assert (Hstack : stack' = []).
  { apply nil_length_inv. apply Permutation_length in Hall.
    rewrite length_app in Hall. rewrite assignedCount_concat in Hcount. lia. }
  subst stack'. rewrite app_nil_r in Hall.
  split; [exact Hall|]. split; [lia|]. split; [|reflexivity].
  apply sizesDisagree_false. exact Hsizes.
Qed.

Lemma sum_needs (f : string -> Z) (h : string -> nat) (roles : list string) :
  (forall r, r ∈ roles -> Z.of_nat (h r) = f r) ->
  Z.of_nat (sum_list (map h roles)) = bigZ f roles.
Proof.
  induction roles as [|r roles IH]; intros Hfh; simpl; [reflexivity|].
  rewrite Nat2Z.inj_add, IH.
  - rewrite (Hfh r) by (apply elem_of_cons; left; reflexivity). reflexivity.
  - intros k Hk. apply Hfh. apply elem_of_cons. right. exact Hk.
Qed.

Lemma sum_needs_nat (f : nat -> Z) (h : nat -> nat) (idxs : list nat) :
  (forall i, i ∈ idxs -> Z.of_nat (h i) = f i) ->
  Z.of_nat (sum_list (map h idxs)) = bigZ f idxs.
Proof.
  induction idxs as [|i idxs IH]; intros Hfh; simpl; [reflexivity|].
  rewrite Nat2Z.inj_add, IH.
  - rewrite (Hfh i) by (apply elem_of_cons; left; reflexivity). reflexivity.
  - intros k Hk. apply Hfh. apply elem_of_cons. right. exact Hk.
Qed.

Lemma counts_sum (byRole : obj (list person)) :
  NoDup byRole.*1 ->
  sum_list (map (fun r => (r, length (poolOf byRole r))) (Object_keys byRole)).*2
  = length (concat byRole.*2).
Proof.
  intros Hnd.
  rewrite (concat_pools_keys byRole Hnd).
  fold (poolOf byRole).
  rewrite <- (Permutation_length
                (concat_map_perm (poolOf byRole) _ _ (Object_keys_perm byRole))).
  induction (Object_keys byRole) as [|r roles IH]; [reflexivity|].
  simpl. rewrite length_app. simpl in IH. rewrite <- IH. reflexivity.
Qed.

(** A table with both sum invariants for the pools at hand is assigned
    without leftovers, and both checks pass. *)
Lemma assignAndCheck_exact (t : obj (list Z)) (sizes : list nat)
    (byRole : obj (list person)) (src : list nat) :
  NoDup byRole.*1 ->
  exactTable sizes
    (map (fun r => (r, length (poolOf byRole r))) (Object_keys byRole)) t ->
  sum_list sizes = length (concat byRole.*2) ->
  exists groups,
    assignAndCheck (Targets t) sizes byRole (sum_list sizes) src
    = (Ok (groups, annotate (length sizes) groups), src).
Proof.
  intros Hnd (Hkeys & Hrows & Hcols) Hsum.
  set (counts := map (fun r => (r, length (poolOf byRole r))) (Object_keys byRole)) in *.
  set (g := length sizes) in *.
  assert (Hroles : NoDup (Object_keys byRole)) by (apply Object_keys_NoDup; exact Hnd).
  assert (Hcounts : counts.*1 = Object_keys byRole) by apply keys_map_entries.
  assert (HndT : NoDup t.*1).
  { rewrite Hkeys. apply Object_keys_NoDup. rewrite Hcounts. exact Hroles. }
  assert (Hmem : forall r, r ∈ Object_keys t <-> r ∈ byRole.*1).
  { intros r. rewrite Object_keys_elem, Hkeys, Object_keys_elem, Hcounts.
    apply Object_keys_elem. }
  assert (Hrow : forall r, r ∈ Object_keys t ->
             exists row, objGet t r = Some row /\ length row = g
                         /\ Forall (fun c => (0 <= c)%Z) row
                         /\ sumZ row = Z.of_nat (length (poolOf byRole r))).
  { intros r Hr.
    destruct (objGet_is_Some t r) as [row Hget];
      [apply Object_keys_elem; exact Hr|].
    destruct (Hrows r row Hget) as (Hlen & Hnn & Hsumrow).
    exists row. split; [exact Hget|]. split; [exact Hlen|]. split; [exact Hnn|].
    rewrite Hsumrow. f_equal. unfold countOf, counts.
    rewrite (objGet_map_entries (fun r => length (poolOf byRole r)));
      [reflexivity|].
    apply Object_keys_elem, Hmem. exact Hr. }
  assert (Hcell : forall r gi, r ∈ Object_keys t -> gi < g ->
             Z.of_nat (needOf (Targets t) r gi) = cell t r gi).
  { intros r gi Hr Hgi. destruct (Hrow r Hr) as (row & Hget & Hlen & Hnn & _).
    simpl. unfold cell. rewrite Hget. simpl.
    rewrite Forall_lookup in Hnn.
    assert (0 <= row !!! gi)%Z; [|lia].
    apply (Hnn gi). apply list_lookup_lookup_total_lt. lia. }
  assert (Hneed : forall r, r ∈ Object_keys t ->
             needSum (Targets t) r g = length (poolOf byRole r)).
  { intros r Hr. destruct (Hrow r Hr) as (row & Hget & Hlen & Hnn & Hsumrow).
    apply Nat2Z.inj. rewrite <- Hsumrow. unfold needSum.
    rewrite (sum_needs_nat (fun gi => row !!! gi)).
    - rewrite sumZ_bigZ, bigZ_lookups, Hlen. reflexivity.
    - intros gi Hgi. apply elem_of_seq in Hgi.
      rewrite Hcell by (try exact Hr; lia). unfold cell. rewrite Hget. reflexivity. }
  unfold assignAndCheck. fold g.
  pose proof (assignTargets_spec (Targets t) g (Object_keys t) byRole
                (replicate g []) (Object_keys_NoDup _ HndT) (length_replicate _ _))
    as Hspec.
  change (targetRoles (Targets t)) with (Object_keys t).
  destruct (assignTargets (Targets t) (Object_keys t) g byRole (replicate g []))
    as [[groups1 byRole']|e].
  - destruct Hspec as (_ & Hlen1 & Hperm1 & Hlens & Hpools & Hnd').
    assert (Hempty : forall k, length (poolOf byRole' k) = 0).
    { intros k. rewrite Hpools. destruct (decide (k ∈ Object_keys t)) as [Hk|Hk].
      - rewrite (Hneed k Hk). lia.
      - assert (Hout : k ∉ byRole.*1) by (rewrite <- Hmem; exact Hk).
        apply objGet_None in Hout. unfold poolOf. rewrite Hout. reflexivity. }
    pose proof (collectLeftovers_perm byRole' (Hnd' Hnd)) as Hleft.
    rewrite (collectLeftovers_empty byRole' Hempty) in Hleft |- *.
    rewrite shuffleInPlace_nil. simpl rev.
    rewrite distributeLeftovers_nothing.
    assert (Hsizes : sizesDisagree g groups1 sizes = false).
    { apply sizesDisagree_false. intros gi Hgi.
      rewrite (Hlens gi Hgi). rewrite lookup_total_replicate_2 by exact Hgi.
      simpl. apply Nat2Z.inj.
      rewrite (sum_needs (fun r => cell t r gi))
        by (intros r Hr; apply Hcell; assumption).
      rewrite <- (Hcols gi Hgi). rewrite sumZ_bigZ.
      change (map (fun row : list Z => row !!! gi) t.*2)
        with ((fun row : list Z => row !!! gi) <$> (snd <$> t)).
      rewrite !bigZ_fmap.
      rewrite (bigZ_perm _ _ _ (Object_keys_perm t)). rewrite bigZ_fmap.
      apply bigZ_ext. intros [k v] Hin. unfold cell. simpl.
      rewrite (objGet_of_elem _ _ _ HndT Hin). reflexivity. }
    rewrite Hsizes.
    assert (Hcount : assignedCount groups1 = sum_list sizes).
    { rewrite assignedCount_concat, Hsum.
      rewrite concat_replicate_nil in Hperm1. simpl in Hperm1.
      rewrite <- Hleft in Hperm1. rewrite app_nil_r in Hperm1.
      apply Permutation_length. exact Hperm1. }
    rewrite Hcount, Nat.eqb_refl. simpl. exists groups1. reflexivity.
  - destruct Hspec as (r & _ & Hr & Hshort). exfalso. apply Hshort.
    unfold enoughPeople. rewrite (Hneed r Hr). lia.
Qed.

Lemma groupByRole_throws (people : list person) (byRole : obj (list person))
    (e : error) :
  groupByRole people byRole = Throw e -> e = PushTypeError.
Proof.
  revert byRole. induction people as [|p people IH]; intros byRole; simpl;
    [discriminate|].
  destruct (addPerson byRole p) as [byRole'|e'] eqn:Hadd; [apply IH|].
  unfold addPerson in Hadd. destruct (objGet byRole (role p)); [discriminate|].
  destruct (inheritedName (role p)); [|discriminate].
  inversion Hadd; subst. intros [= <-]. reflexivity.
Qed.

Lemma computeGroupSizes_throws (n : nat) (v : jsvalue) (e : error) :
  computeGroupSizes n v = Throw e -> e = GroupSizeError.
Proof.
  unfold computeGroupSizes.
  destruct (negb (Number_isFinite v) || lessThanTwo v); [intros [= <-]; reflexivity|].
  destruct v; try discriminate; intros [= <-]; reflexivity.
Qed.

(** The pools and the role counts that [allocateGroups] hands to
    [computeRoleTargets]. *)
Lemma pools_of_roster (people : list person) (byRole0 : obj (list person))
    (src : list nat) :
  groupByRole people [] = Ok byRole0 ->
  let byRole := (shufflePools (Object_keys byRole0) byRole0 src).1 in
  let counts :=
    Object_fromEntries
      (map (fun r => (r, length (poolOf byRole r))) (Object_keys byRole)) in
  NoDup byRole.*1
  /\ concat byRole.*2 ≡ₚ people
  /\ counts = map (fun r => (r, length (poolOf byRole r))) (Object_keys byRole)
  /\ NoDup counts.*1
  /\ sum_list counts.*2 = length people
  /\ (forall k, k ∈ counts.*1 -> exists p, p ∈ people /\ role p = k).
Proof.
  intros Hgroup byRole counts.
  destruct (groupByRole_spec people [] byRole0 (NoDup_nil_2) Hgroup)
    as (Hnd0 & Hperm0 & Hkeys0).
  destruct (shufflePools_spec (Object_keys byRole0) byRole0 src) as [Hk Hp].
  { apply Forall_forall. intros r Hr. apply Object_keys_elem. exact Hr. }
  fold byRole in Hk, Hp.
  assert (Hnd : NoDup byRole.*1) by (rewrite Hk; exact Hnd0).
  assert (Hperm : concat byRole.*2 ≡ₚ people) by (rewrite Hp, Hperm0; reflexivity).
  assert (Hroles : NoDup (Object_keys byRole)) by (apply Object_keys_NoDup; exact Hnd).
  assert (Hcounts : counts
                    = map (fun r => (r, length (poolOf byRole r))) (Object_keys byRole)).
  { unfold counts. apply Object_fromEntries_NoDup.
    rewrite keys_map_entries. exact Hroles. }
  split; [exact Hnd|]. split; [exact Hperm|]. split; [exact Hcounts|].
  rewrite Hcounts. rewrite keys_map_entries.
  split; [exact Hroles|]. split.
  - rewrite counts_sum by exact Hnd. apply Permutation_length. exact Hperm.
  - intros k Hk'. apply Object_keys_elem in Hk'. rewrite Hk in Hk'.
    destruct (Hkeys0 k Hk') as [Hnil|Hp']; [|exact Hp'].
    apply elem_of_nil in Hnil. contradiction.
Qed.

(** What a call of [allocateGroups] on a roster that is not empty can end
    with. *)
Lemma allocateGroups_outcome (fuel : nat) (people : list person) (v : jsvalue)
    (src : list nat)
    (res : outcome (list (list person) * list (string * string * nat)))
    (src' : list nat) :
  1 <= length people ->
  allocateGroups fuel people v src = Some (res, src') ->
  match res with
  | Ok (groups, annotated) =>
      exists sizes,
        computeGroupSizes (length people) v = Ok sizes
        /\ concat groups ≡ₚ people
        /\ length groups = length sizes
        /\ (forall gi, gi < length sizes -> length (groups !!! gi) = sizes !!! gi)
        /\ annotated = annotate (length sizes) groups
  | Throw e => e = GroupSizeError \/ e = PushTypeError
  end.
Proof.
  intros Hn Hrun. unfold allocateGroups in Hrun.
  destruct (computeGroupSizes (length people) v) as [sizes|e] eqn:Hsizes.
  2: { inversion Hrun; subst. left. eapply computeGroupSizes_throws. exact Hsizes. }
  destruct (groupByRole people []) as [byRole0|e] eqn:Hgroup.
  2: { inversion Hrun; subst. right. eapply groupByRole_throws. exact Hgroup. }
  pose proof (pools_of_roster people byRole0 src Hgroup) as Hpools.
  destruct (shufflePools (Object_keys byRole0) byRole0 src) as [byRole src1].
  simpl in Hpools.
  destruct Hpools as (Hnd & Hperm & Hcounts & HndC & Hsum & _).
  pose proof (computeGroupSizes_sum _ _ _ Hsizes) as Hsizesum.
  destruct (computeRoleTargets fuel sizes _ src1) as [[rt src2]|] eqn:Htargets;
    [|discriminate].
  assert (Hpos : 0 < sum_list sizes) by lia.
  assert (Hmatch : sum_list
                     (Object_fromEntries
                        (map (fun r => (r, length (poolOf byRole r)))
                           (Object_keys byRole))).*2
                   = sum_list sizes) by lia.
  destruct (computeRoleTargets_partial _ _ _ _ _ _ HndC Hpos Hmatch Htargets)
    as (t & -> & Hexact).
  rewrite Hcounts in Hexact.
  destruct (assignAndCheck_exact t sizes byRole src2 Hnd Hexact) as [groups Hassign].
  { rewrite Hsizesum. symmetry. apply Permutation_length. exact Hperm. }
  rewrite <- Hsizesum in Hrun. rewrite Hassign in Hrun.
  inversion Hrun; subst res src'. clear Hrun.
  exists sizes. split; [reflexivity|].
  destruct (assignAndCheck_partition (Targets t) sizes byRole (sum_list sizes) src2
              groups (annotate (length sizes) groups) src2)
    as (Hp & Hlen & Hlens & _); try assumption.
  - destruct Hexact as (Hkeys & _). simpl. apply Object_keys_NoDup.
    rewrite Hkeys. apply Object_keys_NoDup. rewrite keys_map_entries.
    apply Object_keys_NoDup. exact Hnd.
  - rewrite Hsizesum. symmetry. apply Permutation_length. exact Hperm.
  - split; [rewrite Hp; exact Hperm|]. split; [exact Hlen|].
    split; [exact Hlens|reflexivity].
Qed.

(** A roster whose roles are neither empty nor names of members of
    [Object.prototype] is allocated, whatever the random source. *)
Lemma allocateGroups_returns (people : list person) (d : Q) (src : list nat) :
  1 <= length people -> (2 <= d)%Q ->
  Forall (fun p => role p <> EmptyString /\ inheritedName (role p) = false) people ->
  exists groups annotated src',
    forall fuel, length people < fuel ->
      allocateGroups fuel people (JNumber d) src
      = Some (Ok (groups, annotated), src').
Proof.
  intros Hn Hd Hroles. unfold allocateGroups.
  rewrite computeGroupSizes_finite by exact Hd.
  set (sizes := map _ (seq 0 (groupCount (length people) d))).
  assert (Hsizes : computeGroupSizes (length people) (JNumber d) = Ok sizes)
    by (apply computeGroupSizes_finite; exact Hd).
  pose proof (computeGroupSizes_sum _ _ _ Hsizes) as Hsizesum.
  destruct (groupByRole_total people []) as [byRole0 Hgroup].
  { eapply Forall_impl; [exact Hroles|]. intros p [_ Hp]. exact Hp. }
  rewrite Hgroup.
  pose proof (pools_of_roster people byRole0 src Hgroup) as Hpools.
  destruct (shufflePools (Object_keys byRole0) byRole0 src) as [byRole src1].
  simpl in Hpools.
  destruct Hpools as (Hnd & Hperm & Hcounts & HndC & Hsum & Hkeys).
  assert (Hpos : 0 < sum_list sizes) by lia.
  assert (Hmatch : sum_list
                     (Object_fromEntries
                        (map (fun r => (r, length (poolOf byRole r)))
                           (Object_keys byRole))).*2
                   = sum_list sizes) by lia.
  destruct (computeRoleTargets_returns sizes _ src1 HndC Hpos)
    as (t & src2 & Htargets).
  { intros Hblank. destruct (Hkeys _ Hblank) as (p & Hp & Hrole).
    rewrite Forall_forall in Hroles. destruct (Hroles p Hp) as [Hne _].
    contradiction. }
  rewrite Hsum in Htargets.
  destruct (computeRoleTargets_partial _ _ _ _ _ _ HndC Hpos Hmatch
              (Htargets (S (length people)) (Nat.lt_succ_diag_r _)))
    as (t' & [= <-] & Hexact).
  rewrite Hcounts in Hexact.
  destruct (assignAndCheck_exact t sizes byRole src2 Hnd Hexact) as [groups Hassign].
  { rewrite Hsizesum. symmetry. apply Permutation_length. exact Hperm. }
  exists groups, (annotate (length sizes) groups), src2.
  intros fuel Hfuel. rewrite (Htargets fuel Hfuel).
  rewrite <- Hsizesum. rewrite Hassign. reflexivity.
Qed.

Lemma length_concat_sum {A} (groups : list (list A)) :
  sum_list (map length groups) = length (concat groups).
Proof.
  induction groups as [|gr groups IH]; simpl; [reflexivity|].
  rewrite length_app, <- IH. reflexivity.
Qed.

(** C2. Whenever [allocateGroups] returns groups for a roster of at least
    two people and a finite desired size of at least 2, the groups taken
    together are a rearrangement of the roster: nobody is dropped, nobody
    is there twice, and the lengths of the groups sum to [n].  It does
    return groups, whatever the random source, when no role is the empty
    string or the name of a member of [Object.prototype]. *)
Theorem allocateGroups_partition (people : list person) (d : Q) (src : list nat) :
  2 <= length people -> (2 <= d)%Q ->
  (forall fuel groups annotated src',
      allocateGroups fuel people (JNumber d) src
      = Some (Ok (groups, annotated), src') ->
      concat groups ≡ₚ people
      /\ sum_list (map length groups) = length people)
  /\ (Forall (fun p => role p <> EmptyString /\ inheritedName (role p) = false)
        people ->
      exists groups annotated src',
        concat groups ≡ₚ people
        /\ forall fuel, length people < fuel ->
             allocateGroups fuel people (JNumber d) src
             = Some (Ok (groups, annotated), src')).
Proof.
  intros Hn Hd.
  assert (Hpartial : forall fuel groups annotated src',
             allocateGroups fuel people (JNumber d) src
             = Some (Ok (groups, annotated), src') ->
             concat groups ≡ₚ people
             /\ sum_list (map length groups) = length people).
  { intros fuel groups annotated src' Hrun.
    pose proof (allocateGroups_outcome fuel people (JNumber d) src _ src'
                  ltac:(lia) Hrun) as Hout.
    simpl in Hout. destruct Hout as (sizes & _ & Hperm & _).
    split; [exact Hperm|].
    rewrite length_concat_sum. apply Permutation_length. exact Hperm. }
  split; [exact Hpartial|].
  intros Hroles.
  destruct (allocateGroups_returns people d src ltac:(lia) Hd Hroles)
    as (groups & annotated & src' & Hrun).
  exists groups, annotated, src'. split; [|exact Hrun].
  exact (proj1 (Hpartial _ _ _ _ (Hrun (S (length people)) (Nat.lt_succ_diag_r _)))).
Qed.

Lemma allocateGroups_partition_witness :
  2 <= length ninePeople
  /\ (2 <= 3)%Q
  /\ (forall fuel groups annotated src',
        allocateGroups fuel ninePeople (JNumber 3) draws
        = Some (Ok (groups, annotated), src') ->
        concat groups ≡ₚ ninePeople
        /\ sum_list (map length groups) = length ninePeople)
  /\ (Forall (fun p => role p <> EmptyString /\ inheritedName (role p) = false)
        ninePeople ->
      exists groups annotated src',
        concat groups ≡ₚ ninePeople
        /\ forall fuel, length ninePeople < fuel ->
             allocateGroups fuel ninePeople (JNumber 3) draws
             = Some (Ok (groups, annotated), src')).
Proof.
  assert (Hn : 2 <= length ninePeople) by (simpl; lia).
  assert (Hd : (2 <= 3)%Q) by (unfold Qle; simpl; lia).
  split; [exact Hn|]. split; [exact Hd|].
  exact (allocateGroups_partition ninePeople 3 draws Hn Hd).
Defined.

(** C5. For a roster of at least two people and a finite desired size of
    at least 2, a call of [allocateGroups] never ends in one of the two
    errors of the sanity checks; when it returns groups, every group has
    the length that [computeGroupSizes] gave it and the number of assigned
    people is [n].  It does return groups, whatever the random source, when
    no role is the empty string or the name of a member of
    [Object.prototype]. *)
Theorem allocation_checks_never_fire (people : list person) (d : Q)
    (src : list nat) :
  2 <= length people -> (2 <= d)%Q ->
  (forall fuel res src',
      allocateGroups fuel people (JNumber d) src = Some (res, src') ->
      res <> Throw GroupSizesMismatch
      /\ res <> Throw NotAllAssigned
      /\ forall groups annotated,
           res = Ok (groups, annotated) ->
           exists sizes,
             computeGroupSizes (length people) (JNumber d) = Ok sizes
             /\ length groups = length sizes
             /\ (forall gi, gi < length sizes ->
                   length (groups !!! gi) = sizes !!! gi)
             /\ assignedCount groups = length people)
  /\ (Forall (fun p => role p <> EmptyString /\ inheritedName (role p) = false)
        people ->
      exists groups annotated src',
        forall fuel, length people < fuel ->
          allocateGroups fuel people (JNumber d) src
          = Some (Ok (groups, annotated), src')).
Proof.
  intros Hn Hd. split.
  - intros fuel res src' Hrun.
    pose proof (allocateGroups_outcome fuel people (JNumber d) src res src'
                  ltac:(lia) Hrun) as Hout.
    destruct res as [[groups annotated]|e].
    + split; [discriminate|]. split; [discriminate|].
      intros groups' annotated' [= <- <-].
      destruct Hout as (sizes & Hsizes & Hperm & Hlen & Hlens & _).
      exists sizes. split; [exact Hsizes|]. split; [exact Hlen|].
      split; [exact Hlens|].
      rewrite assignedCount_concat. apply Permutation_length. exact Hperm.
    + destruct Hout as [-> | ->].
      * split; [discriminate|]. split; discriminate.
      * split; [discriminate|]. split; discriminate.
  - intros Hroles.
    exact (allocateGroups_returns people d src ltac:(lia) Hd Hroles).
Qed.

Lemma allocation_checks_never_fire_witness :
  2 <= length ninePeople
  /\ (2 <= 3)%Q
  /\ (forall fuel res src',
        allocateGroups fuel ninePeople (JNumber 3) draws = Some (res, src') ->
        res <> Throw GroupSizesMismatch
        /\ res <> Throw NotAllAssigned
        /\ forall groups annotated,
             res = Ok (groups, annotated) ->
             exists sizes,
               computeGroupSizes (length ninePeople) (JNumber 3) = Ok sizes
               /\ length groups = length sizes
               /\ (forall gi, gi < length sizes ->
                     length (groups !!! gi) = sizes !!! gi)
               /\ assignedCount groups = length ninePeople)
  /\ (Forall (fun p => role p <> EmptyString /\ inheritedName (role p) = false)
        ninePeople ->
      exists groups annotated src',
        forall fuel, length ninePeople < fuel ->
          allocateGroups fuel ninePeople (JNumber 3) draws
          = Some (Ok (groups, annotated), src')).
Proof.
  assert (Hn : 2 <= length ninePeople) by (simpl; lia).
  assert (Hd : (2 <= 3)%Q) by (unfold Qle; simpl; lia).
  split; [exact Hn|]. split; [exact Hd|].
  exact (allocation_checks_never_fire ninePeople 3 draws Hn Hd).
Defined.

(** ** [shuffleInPlace]: what it draws and what it can reach *)

Lemma length_swap {A} (arr : list A) (i j : nat) : length (swap arr i j) = length arr.
Proof.
  unfold swap. destruct (arr !! i), (arr !! j); rewrite ?length_insert; reflexivity.
Qed.

Lemma shuffleLoop_rest {A} (i : nat) (arr : list A) (src : list nat) :
  (shuffleLoop i arr src).2 = drop i src.
Proof.
  revert arr src. induction i as [|i IH]; intros arr src; simpl.
  - rewrite drop_0. reflexivity.
  - destruct src as [|u src]; simpl; rewrite IH.
    + rewrite drop_nil. reflexivity.
    + reflexivity.
Qed.

(** X1. [shuffleInPlace] returns the elements it was given, each as often
    as before, and takes [arr.length - 1] numbers from the random source
    (none for an array of at most one element). *)
Theorem shuffleInPlace_rearranges {A} (arr : list A) (src : list nat) :
  (shuffleInPlace arr src).1 ≡ₚ arr
  /\ length (shuffleInPlace arr src).1 = length arr
  /\ (shuffleInPlace arr src).2 = drop (length arr - 1) src.
Proof.
  pose proof (shuffleLoop_perm (length arr - 1) arr src) as Hperm.
  split; [exact Hperm|]. split.
  - apply Permutation_length. exact Hperm.
  - apply shuffleLoop_rest.
Qed.

Lemma swap_lookup_ge {A} (arr : list A) (i j k : nat) :
  i < k -> j < k -> swap arr i j !! k = arr !! k.
Proof.
  intros Hi Hj. unfold swap.
  destruct (arr !! i), (arr !! j); try reflexivity.
  rewrite !list_lookup_insert_ne by lia. reflexivity.
Qed.

Lemma swap_lookup_l {A} (arr : list A) (i j : nat) (a b : A) :
  arr !! i = Some a -> arr !! j = Some b -> swap arr i j !! i = Some b.
Proof.
  intros Hi Hj. unfold swap. rewrite Hi, Hj.
  assert (Hil : i < length arr) by (apply lookup_lt_is_Some; eauto).
  destruct (decide (i = j)) as [->|Hne].
  - rewrite list_lookup_insert_eq by (rewrite length_insert; exact Hil). congruence.
  - rewrite list_lookup_insert_ne by congruence.
    rewrite list_lookup_insert_eq by exact Hil. reflexivity.
Qed.

Lemma shuffleLoop_reaches {A} (i : nat) (arr target : list A) :
  take (S i) target ≡ₚ take (S i) arr ->
  drop (S i) target = drop (S i) arr ->
  i < length arr ->
  exists src, length src = i /\ (shuffleLoop i arr src).1 = target.
Proof.
  revert arr. induction i as [|i IH]; intros arr Htake Hdrop Hlen.
  - exists []. split; [reflexivity|]. simpl.
    rewrite <- (take_drop 1 arr), <- (take_drop 1 target), Hdrop. f_equal.
    destruct arr as [|a arr], target as [|b target]; simpl in *; try reflexivity.
    + apply Permutation_nil_r in Htake. discriminate.
    + symmetry in Htake. apply Permutation_nil_r in Htake. discriminate.
    + rewrite !take_0 in *. apply Permutation_singleton_r in Htake. congruence.
  - assert (Hlent : length target = length arr).
    { rewrite <- (take_drop (S (S i)) target), <- (take_drop (S (S i)) arr).
      rewrite !length_app, Hdrop. f_equal. apply Permutation_length. exact Htake. }
    destruct (lookup_lt_is_Some_2 target (S i)) as [x Hx]; [lia|].
    assert (Hin : x ∈ take (S (S i)) arr).
    { rewrite <- Htake. apply list_elem_of_lookup. exists (S i).
      rewrite lookup_take_lt by lia. exact Hx. }
    apply list_elem_of_lookup in Hin. destruct Hin as [j Hj].
    assert (Hjlt : j < S (S i)).
    { apply lookup_lt_Some in Hj. rewrite length_take in Hj. lia. }
    rewrite lookup_take_lt in Hj by lia.
    destruct (lookup_lt_is_Some_2 arr (S i)) as [y Hy]; [lia|].
    set (arr' := swap arr (S i) j).
    assert (Hx' : arr' !! S i = Some x) by (apply (swap_lookup_l arr (S i) j y x); assumption).
    assert (Hdrop' : drop (S (S i)) arr' = drop (S (S i)) arr).
    { apply list_eq. intros k. rewrite !lookup_drop. apply swap_lookup_ge; lia. }
    assert (Hlen' : length arr' = length arr) by apply length_swap.
    destruct (IH arr') as (src & Hsrc & Hrun).
    + apply (Permutation_app_inv_r [x]).
      rewrite <- (take_S_r target (S i) x Hx), <- (take_S_r arr' (S i) x Hx').
      rewrite Htake.
      assert (Hsw : arr' ≡ₚ arr) by apply swap_perm.
      apply (Permutation_app_inv_r (drop (S (S i)) arr)).
      rewrite take_drop. rewrite <- Hdrop' at 1. rewrite take_drop. symmetry. exact Hsw.
    + rewrite (drop_S target x (S i) Hx), (drop_S arr' x (S i) Hx').
      rewrite Hdrop, Hdrop'. reflexivity.
    + lia.
    + exists (j :: src). split; [simpl; lia|].
      cbn [shuffleLoop randomBelow]. rewrite Nat.mod_small by lia. exact Hrun.
Qed.

(** X2. Every arrangement of the array is the result of [shuffleInPlace]
    for some numbers drawn from the random source. *)
Theorem shuffleInPlace_reaches_every_order {A} (arr target : list A) :
  target ≡ₚ arr ->
  exists src, length src = length arr - 1 /\ (shuffleInPlace arr src).1 = target.
Proof.
  intros Hperm. unfold shuffleInPlace.
  destruct arr as [|a arr].
  - apply Permutation_nil_r in Hperm. subst target. exists []. split; reflexivity.
  - apply shuffleLoop_reaches.
    + assert (Hlen : length target = length (a :: arr)) by (apply Permutation_length; exact Hperm).
      rewrite !take_ge by (simpl in *; lia). exact Hperm.
    + assert (Hlen : length target = length (a :: arr)) by (apply Permutation_length; exact Hperm).
      rewrite !drop_ge by (simpl in *; lia). reflexivity.
    + simpl. lia.
Qed.

Lemma shuffleInPlace_reaches_every_order_witness :
  [3; 1; 2] ≡ₚ [1; 2; 3]
  /\ exists src, length src = length [1; 2; 3] - 1
                 /\ (shuffleInPlace [1; 2; 3] src).1 = [3; 1; 2].
Proof.
  assert (Hperm : [3; 1; 2] ≡ₚ [1; 2; 3]) by solve_Permutation.
  split; [exact Hperm|].
  exact (shuffleInPlace_reaches_every_order [1; 2; 3] [3; 1; 2] Hperm).
Defined.

(** ** GroupSizer: how far the sizes are from the desired size *)

Lemma Math_round_bounds (x : Q) :
  (inject_Z (Math_round x) <= x + (1 # 2) /\ x + (1 # 2) < inject_Z (Math_round x) + 1)%Q.
Proof.
  unfold Math_round. split.
  - apply Qfloor_le.
  - pose proof (Qlt_floor (x + (1 # 2))) as H.
    rewrite inject_Z_plus in H. exact H.
Qed.

Lemma quotient_times (n : nat) (d : Q) :
  (0 < d)%Q -> (inject_Z (Z.of_nat n) / d * d == inject_Z (Z.of_nat n))%Q.
Proof. intros Hd. field. lra. Qed.

(** The number of groups [g] is 1 below one and a half times the desired size, and
    otherwise within half a group of [n / d]. *)
Lemma groupCount_one (n : nat) (d : Q) :
  (0 < d)%Q -> (inject_Z (Z.of_nat n) * 2 < 3 * d)%Q -> groupCount n d = 1.
Proof.
  intros Hd Hlt. unfold groupCount.
  destruct (Math_round_bounds (inject_Z (Z.of_nat n) / d)) as [Hlo _].
  pose proof (quotient_times n d Hd) as Hq.
  set (x := (inject_Z (Z.of_nat n) / d)%Q) in *.
  assert (Hr : (Math_round x < 2)%Z).
  { apply Z.lt_nge. intros Hge.
    assert (H2 : (2 <= inject_Z (Math_round x))%Q).
    { change 2%Q with (inject_Z 2). rewrite <- Zle_Qle. exact Hge. }
    assert (Hx : (3 # 2 <= x)%Q) by lra.
    assert (Hxd : ((3 # 2) * d <= x * d)%Q) by (apply Qmult_le_compat_r; lra).
    lra. }
  lia.
Qed.

Lemma groupCount_bounds (n : nat) (d : Q) :
  (0 < d)%Q -> (d <= inject_Z (Z.of_nat n))%Q ->
  let g := inject_Z (Z.of_nat (groupCount n d)) in
  (g * d <= inject_Z (Z.of_nat n) + d * (1 # 2)
   /\ inject_Z (Z.of_nat n) + d * (1 # 2) < (g + 1) * d)%Q.
Proof.
  intros Hd Hn g.
  destruct (Math_round_bounds (inject_Z (Z.of_nat n) / d)) as [Hlo Hhi].
  pose proof (quotient_times n d Hd) as Hq.
  set (x := (inject_Z (Z.of_nat n) / d)%Q) in *.
  assert (Hx1 : (1 <= x)%Q).
  { apply Qle_shift_div_l; [exact Hd|]. lra. }
  assert (Hr : (1 <= Math_round x)%Z).
  { apply Z.lt_pred_le. simpl.
    rewrite Zlt_Qlt. change (inject_Z (Z.pred 1)) with 0%Q.
    lra. }
  assert (Hg : g = inject_Z (Math_round x)).
  { unfold g, groupCount. fold x. f_equal. lia. }
  rewrite Hg. split.
  - assert (H : (inject_Z (Math_round x) * d <= (x + (1 # 2)) * d)%Q)
      by (apply Qmult_le_compat_r; lra).
    lra.
  - assert (H : ((x + (1 # 2)) * d < (inject_Z (Math_round x) + 1) * d)%Q)
      by (apply Qmult_lt_compat_r; lra).
    lra.
Qed.




(** X4. With at least as many people as the desired size [d], every group
    has more than [3d/4 - 1] and fewer than [3d/2 + 1] members. *)
Theorem computeGroupSizes_near_desired (n : nat) (d : Q) (sizes : list nat) :
  (2 <= d)%Q -> (d <= inject_Z (Z.of_nat n))%Q ->
  computeGroupSizes n (JNumber d) = Ok sizes ->
  Forall (fun s => (3 * d < 4 * (inject_Z (Z.of_nat s) + 1)
                    /\ 2 * inject_Z (Z.of_nat s) < 3 * d + 2)%Q) sizes.
Proof.
  intros Hd Hn Hrun. rewrite computeGroupSizes_finite in Hrun by exact Hd.
  inversion Hrun; subst sizes. clear Hrun.
  assert (Hd0 : (0 < d)%Q) by lra.
  destruct (groupCount_bounds n d Hd0 Hn) as [Hlo Hhi].
  pose proof (groupCount_pos n d) as Hg1.
  set (g := groupCount n d) in *. set (base := n / g).
  assert (Hdiv : g * base <= n < g * (base + 1)).
  { unfold base. pose proof (Nat.div_mod_eq n g).
    pose proof (Nat.mod_upper_bound n g). lia. }
  assert (HGB : (inject_Z (Z.of_nat g) * inject_Z (Z.of_nat base)
                 <= inject_Z (Z.of_nat n))%Q).
  { rewrite <- inject_Z_mult, <- Zle_Qle. lia. }
  assert (HGB1 : (inject_Z (Z.of_nat n) + 1
                  <= inject_Z (Z.of_nat g) * (inject_Z (Z.of_nat base) + 1))%Q).
  { change 1%Q with (inject_Z 1).
    rewrite <- !inject_Z_plus, <- inject_Z_mult, <- Zle_Qle. lia. }
  assert (HG1 : (1 <= inject_Z (Z.of_nat g))%Q).
  { change 1%Q with (inject_Z 1). rewrite <- Zle_Qle. lia. }
  assert (HB0 : (0 <= inject_Z (Z.of_nat base))%Q).
  { change 0%Q with (inject_Z 0). rewrite <- Zle_Qle. lia. }
  set (G := inject_Z (Z.of_nat g)) in *. set (B := inject_Z (Z.of_nat base)) in *.
  set (N := inject_Z (Z.of_nat n)) in *.
  assert (Hlow : (3 * d < 4 * (B + 1))%Q).
  { apply Qnot_le_lt. intros Hcontra.
    destruct (decide (g = 1)) as [Hone|Htwo].
    - assert (HG : G == 1) by (unfold G; rewrite Hone; reflexivity).
      rewrite HG in HGB1. lra.
    - assert (HG2 : (2 <= G)%Q).
      { unfold G. change 2%Q with (inject_Z 2). rewrite <- Zle_Qle. lia. }
      assert (H1 : (0 <= (3 * d - 4 * (B + 1)) * G)%Q)
        by (apply Qmult_le_0_compat; lra).
      assert (H2 : (0 <= d * (G - 2))%Q) by (apply Qmult_le_0_compat; lra).
      lra. }
  assert (Hup : (2 * B < 3 * d)%Q).
  { apply Qnot_le_lt. intros Hcontra.
    assert (H1 : (0 <= (2 * B - 3 * d) * G)%Q) by (apply Qmult_le_0_compat; lra).
    assert (H2 : (0 <= d * (G - 1))%Q) by (apply Qmult_le_0_compat; lra).
    lra. }
  apply Forall_forall. intros s Hs.
  apply list_elem_of_In, in_map_iff in Hs. destruct Hs as (i & <- & _).
  fold base.
  assert (Hs : (B <= inject_Z (Z.of_nat (base + (if i <? n - base * g then 1 else 0)))
                <= B + 1)%Q).
  { unfold B. change 1%Q with (inject_Z 1). rewrite <- inject_Z_plus, <- !Zle_Qle.
    destruct (i <? n - base * g); lia. }
  split; lra.
Qed.

Lemma computeGroupSizes_near_desired_witness :
  (2 <= 3)%Q /\ (3 <= inject_Z (Z.of_nat 7))%Q
  /\ computeGroupSizes 7 (JNumber 3) = Ok [4; 3]
  /\ Forall (fun s => (3 * 3 < 4 * (inject_Z (Z.of_nat s) + 1)
                       /\ 2 * inject_Z (Z.of_nat s) < 3 * 3 + 2)%Q) [4; 3].
Proof.
  assert (Hd : (2 <= 3)%Q) by (unfold Qle; simpl; lia).
  assert (Hn : (3 <= inject_Z (Z.of_nat 7))%Q) by (unfold Qle; simpl; lia).
  split; [exact Hd|]. split; [exact Hn|]. split; [reflexivity|].
  apply (computeGroupSizes_near_desired 7 3 [4; 3] Hd Hn). reflexivity.
Defined.

(** ** QuotaApportioner: cells against their ideal quota *)

(** A bump raises one cell by at most one and lowers none. *)
Lemma cell_bump_le (st : quota) (r r' : string) (i i' : nat) :
  (cell (targets st) r' i' <= cell (targets (bump st r i)) r' i'
   <= cell (targets st) r' i' + (if decide (r' = r /\ i' = i) then 1 else 0))%Z.
Proof.
  destruct (decide (i < length (default [] (objGet (targets st) r)))) as [Hi|Hi].
  - rewrite cell_bump by exact Hi. destruct (decide (r' = r /\ i' = i)); lia.
  - assert (Hsame : cell (targets (bump st r i)) r' i' = cell (targets st) r' i').
    { unfold bump, cell at 1. simpl. rewrite list_insert_ge by lia.
      destruct (decide (r' = r)) as [->|Hr].
      - rewrite objGet_objSet_eq. reflexivity.
      - rewrite objGet_objSet_ne by congruence. reflexivity. }
    rewrite Hsame. destruct (decide (r' = r /\ i' = i)); lia.
Qed.

Lemma walkPairs_grows (pairs : list pair) (st : quota) (r : string) (i : nat) :
  (cell (targets st) r i <= cell (targets (walkPairs pairs st)) r i)%Z.
Proof.
  revert st. induction pairs as [|p pairs IH]; intros st; [simpl; lia|].
  unfold walkPairs in *. simpl.
  destruct (extraOf (extras st) (pair_r p) <=? 0)%Z; [apply IH|].
  destruct (deficits st !!! pair_i p <=? 0)%Z; [apply IH|].
  etransitivity; [|apply IH].
  apply (cell_bump_le st (pair_r p) r (pair_i p) i).
Qed.

Lemma fillDeficit_grows (count : nat) (roles : list string) (rm : obj (list Q))
    (j : nat) (st : quota) (rd : Z) (r : string) (i : nat) :
  (cell (targets st) r i
   <= cell (targets (fillDeficit count roles rm j st rd).1) r i)%Z.
Proof.
  revert st rd. induction count as [|count IH]; intros st rd; simpl; [lia|].
  destruct (0 <? deficits st !!! j)%Z; [|simpl; lia].
  destruct (pickBest roles rm (extras st) j) as [[bestRole q] e].
  destruct (falsyRole bestRole); [simpl; lia|].
  etransitivity; [|apply IH].
  apply (cell_bump_le st (default EmptyString bestRole) r j i).
Qed.

Lemma fillGroups_grows (idxs : list nat) (roles : list string) (rm : obj (list Q))
    (st : quota) (rd : Z) (r : string) (i : nat) :
  (cell (targets st) r i <= cell (targets (fillGroups idxs roles rm st rd).1) r i)%Z.
Proof.
  revert st rd. induction idxs as [|j idxs IH]; intros st rd; simpl; [lia|].
  destruct (0 <? rd)%Z; [|simpl; lia].
  pose proof (fillDeficit_grows (Z.to_nat (deficits st !!! j)) roles rm j st rd r i)
    as Hfill.
  destruct (fillDeficit _ roles rm j st rd) as [st1 rd1]. simpl in Hfill.
  etransitivity; [exact Hfill|apply IH].
Qed.

Lemma residualPass_grows (fuel : nat) (roles : list string) (g : nat)
    (rm : obj (list Q)) (st st' : quota) (rd : Z) (r : string) (i : nat) :
  residualPass fuel roles g rm st rd = Some st' ->
  (cell (targets st) r i <= cell (targets st') r i)%Z.
Proof.
  revert st rd. induction fuel as [|fuel IH]; intros st rd Hrun; simpl in Hrun.
  - destruct (0 <? rd)%Z; [discriminate|]. inversion Hrun; subst. lia.
  - destruct (0 <? rd)%Z; [|inversion Hrun; subst; lia].
    pose proof (fillGroups_grows (seq 0 g) roles rm st rd r i) as Hfill.
    destruct (fillGroups (seq 0 g) roles rm st rd) as [st1 rd1]. simpl in Hfill.
    destruct (totalExtras (extras st1) roles =? 0)%Z.
    + inversion Hrun; subst. exact Hfill.
    + etransitivity; [exact Hfill|]. eapply IH. exact Hrun.
Qed.

Lemma walked_floor (sizes : list nat) (countsByRole : obj nat) (src : list nat)
    (r : string) (i : nat) :
  NoDup countsByRole.*1 -> r ∈ countsByRole.*1 -> i < length sizes ->
  (floorQuota (sizes !!! i) (countOf countsByRole r) (sum_list sizes)
   <= cell (targets (largestRemainders sizes countsByRole src).1.1) r i)%Z.
Proof.
  intros Hnd Hr Hi. rewrite largestRemainders_eq by exact Hnd. simpl.
  etransitivity; [|apply walkPairs_grows].
  rewrite cell_floorsState by (try apply Object_keys_elem; assumption).
  rewrite fold_left_add_nat. simpl. lia.
Qed.

Lemma returned_cells_floor (fuel : nat) (sizes : list nat)
    (countsByRole : obj nat) (src : list nat) (t : obj (list Z))
    (src' : list nat) (r : string) (i : nat) :
  NoDup countsByRole.*1 -> 0 < sum_list sizes ->
  computeRoleTargets fuel sizes countsByRole src = Some (Targets t, src') ->
  r ∈ countsByRole.*1 -> i < length sizes ->
  (floorQuota (sizes !!! i) (countOf countsByRole r) (sum_list sizes)
   <= cell t r i)%Z.
Proof.
  intros Hnd Hn Hrun Hr Hi.
  rewrite computeRoleTargets_pos in Hrun by exact Hn.
  destruct (residualPass fuel _ _ _ _ _) as [st'|] eqn:Hres; [|discriminate].
  inversion Hrun; subst t src'. clear Hrun.
  etransitivity; [apply (walked_floor sizes countsByRole src r i Hnd Hr Hi)|].
  eapply residualPass_grows. exact Hres.
Qed.

(** X5. Whatever the role counts, no cell of the table that
    [computeRoleTargets] returns is below the floor of its ideal quota
    [sizes[i] * countsByRole[r] / n]. *)
Theorem computeRoleTargets_lower_quota (fuel : nat) (sizes : list nat)
    (countsByRole : obj nat) (src : list nat) (t : obj (list Z))
    (src' : list nat) :
  NoDup countsByRole.*1 -> 0 < sum_list sizes ->
  computeRoleTargets fuel sizes countsByRole src = Some (Targets t, src') ->
  forall r i, r ∈ countsByRole.*1 -> i < length sizes ->
    (floorQuota (sizes !!! i) (countOf countsByRole r) (sum_list sizes)
     <= cell t r i)%Z.
Proof.
  intros Hnd Hn Hrun r i Hr Hi.
  exact (returned_cells_floor fuel sizes countsByRole src t src' r i Hnd Hn Hrun Hr Hi).
Qed.

Lemma computeRoleTargets_lower_quota_witness :
  NoDup fiveAndFour.*1 /\ 0 < sum_list [3; 3; 3]
  /\ computeRoleTargets 1 [3; 3; 3] fiveAndFour draws
     = Some (Targets [("A"%string, [2; 1; 2]%Z); ("B"%string, [1; 2; 1]%Z)],
             [9; 2; 6; 5; 3; 5; 8; 9; 7; 9])
  /\ forall r i, r ∈ fiveAndFour.*1 -> i < length [3; 3; 3] ->
       Z.le (floorQuota ([3; 3; 3] !!! i) (countOf fiveAndFour r) (sum_list [3; 3; 3]))
         (cell [("A"%string, [2; 1; 2]%Z); ("B"%string, [1; 2; 1]%Z)] r i).
Proof.
  assert (Hnd : NoDup fiveAndFour.*1)
    by (apply (bool_decide_unpack _); vm_compute; exact I).
  assert (Hn : 0 < sum_list [3; 3; 3]) by (simpl; lia).
  assert (Hrun : computeRoleTargets 1 [3; 3; 3] fiveAndFour draws
                 = Some (Targets [("A"%string, [2; 1; 2]%Z); ("B"%string, [1; 2; 1]%Z)],
                         [9; 2; 6; 5; 3; 5; 8; 9; 7; 9]))
    by (vm_compute; reflexivity).
  split; [exact Hnd|]. split; [exact Hn|]. split; [exact Hrun|].
  exact (computeRoleTargets_lower_quota 1 [3; 3; 3] fiveAndFour draws _ _ Hnd Hn Hrun).
Defined.

Lemma allPairs_keys_NoDup (roles : list string) (g : nat) (rm : obj (list Q)) :
  NoDup roles -> NoDup (map pairKey (allPairs roles g rm)).
Proof.
  unfold allPairs. induction roles as [|r roles IH]; intros Hnd; simpl; [constructor|].
  apply NoDup_cons in Hnd. destruct Hnd as [Hr Hnd].
  rewrite map_app. apply NoDup_app. split; [|split].
  - rewrite map_map. unfold pairKey. simpl.
    apply (NoDup_fmap_2 (fun i => (r, i))). apply NoDup_seq.
  - intros [r' i'] Hin Hin'.
    apply list_elem_of_In, in_map_iff in Hin. destruct Hin as (p & Hkey & Hp).
    apply in_map_iff in Hp. destruct Hp as (i & <- & _).
    injection Hkey as <- <-.
    apply list_elem_of_In, in_map_iff in Hin'. destruct Hin' as (p' & Hkey' & Hp').
    apply in_flat_map in Hp'. destruct Hp' as (r' & Hr' & Hp').
    apply in_map_iff in Hp'. destruct Hp' as (i' & <- & _).
    injection Hkey' as -> _. apply Hr. apply list_elem_of_In. exact Hr'.
  - apply IH. exact Hnd.
Qed.

(** A walk over pairs that name every cell at most once bumps every cell
    at most once. *)
Lemma walkPairs_at_most_one (pairs : list pair) (st : quota) (r : string) (i : nat) :
  NoDup (map pairKey pairs) ->
  (cell (targets (walkPairs pairs st)) r i
   <= cell (targets st) r i
      + (if decide ((r, i) ∈ map pairKey pairs) then 1 else 0))%Z.
Proof.
  revert st. induction pairs as [|p pairs IH]; intros st Hnd.
  - change (walkPairs [] st) with st.
    destruct (decide ((r, i) ∈ map pairKey [])); lia.
  - simpl in Hnd. apply NoDup_cons in Hnd. destruct Hnd as [Hp Hnd].
    assert (Hstep : forall st1,
               (cell (targets st1) r i
                <= cell (targets st) r i
                   + (if decide ((r, i) = pairKey p) then 1 else 0))%Z ->
               (cell (targets (walkPairs pairs st1)) r i
                <= cell (targets st) r i
                   + (if decide ((r, i) ∈ map pairKey (p :: pairs)) then 1 else 0))%Z).
    { intros st1 Hst1. specialize (IH st1 Hnd). simpl.
      destruct (decide ((r, i) = pairKey p)) as [Heq|Hne].
      - rewrite decide_True by (apply elem_of_cons; left; exact Heq).
        rewrite decide_False in IH by (rewrite Heq; exact Hp). lia.
      - destruct (decide ((r, i) ∈ map pairKey pairs)) as [Hin|Hout].
        + rewrite decide_True by (apply elem_of_cons; right; exact Hin). lia.
        + rewrite decide_False; [lia|].
          intros Hin. apply elem_of_cons in Hin. destruct Hin; contradiction. }
    unfold walkPairs in *. cbn [fold_left].
    destruct (extraOf (extras st) (pair_r p) <=? 0)%Z;
      [apply Hstep; destruct (decide ((r, i) = pairKey p)); lia|].
    destruct (deficits st !!! pair_i p <=? 0)%Z;
      [apply Hstep; destruct (decide ((r, i) = pairKey p)); lia|].
    apply Hstep.
    pose proof (cell_bump_le st (pair_r p) r (pair_i p) i) as [_ Hle].
    destruct (decide (r = pair_r p /\ i = pair_i p)) as [[-> ->]|Hne].
    + rewrite decide_True by reflexivity. exact Hle.
    + rewrite decide_False; [exact Hle|].
      unfold pairKey. intros [= -> ->]. apply Hne. split; reflexivity.
Qed.

(** X6. After the floors and the walk over the sorted pairs (lines 83-130),
    before the residual pass, every cell is the floor of its ideal quota
    or one more. *)
Theorem largestRemainders_within_one (sizes : list nat) (countsByRole : obj nat)
    (src : list nat) (r : string) (i : nat) :
  NoDup countsByRole.*1 -> 0 < sum_list sizes ->
  r ∈ countsByRole.*1 -> i < length sizes ->
  let q := floorQuota (sizes !!! i) (countOf countsByRole r) (sum_list sizes) in
  let c := cell (targets (largestRemainders sizes countsByRole src).1.1) r i in
  (q <= c <= q + 1)%Z.
Proof.
  intros Hnd Hn Hr Hi q c. split.
  - apply walked_floor; assumption.
  - unfold c, q. rewrite largestRemainders_eq by exact Hnd. simpl.
    etransitivity; [apply walkPairs_at_most_one|].
    + rewrite sortPairs_perm.
      rewrite (shuffleInPlace_perm
                 (allPairs (Object_keys countsByRole) (length sizes)
                    (fracsTable sizes countsByRole)) src).
      apply allPairs_keys_NoDup. apply Object_keys_NoDup. exact Hnd.
    + rewrite cell_floorsState by (try apply Object_keys_elem; assumption).
      rewrite fold_left_add_nat. simpl.
      destruct (decide _); lia.
Qed.

Lemma largestRemainders_within_one_witness :
  NoDup fiveAndFour.*1 /\ 0 < sum_list [3; 3; 3]
  /\ "A"%string ∈ fiveAndFour.*1 /\ 0 < length [3; 3; 3]
  /\ let q := floorQuota ([3; 3; 3] !!! 0) (countOf fiveAndFour "A") (sum_list [3; 3; 3]) in
     let c := cell (targets (largestRemainders [3; 3; 3] fiveAndFour draws).1.1) "A" 0 in
     (q <= c <= q + 1)%Z.
Proof.
  assert (Hnd : NoDup fiveAndFour.*1)
    by (apply (bool_decide_unpack _); vm_compute; exact I).
  assert (Hn : 0 < sum_list [3; 3; 3]) by (simpl; lia).
  assert (Hr : "A"%string ∈ fiveAndFour.*1)
    by (apply (bool_decide_unpack _); vm_compute; exact I).
  assert (Hi : 0 < length [3; 3; 3]) by (simpl; lia).
  split; [exact Hnd|]. split; [exact Hn|]. split; [exact Hr|]. split; [exact Hi|].
  exact (largestRemainders_within_one [3; 3; 3] fiveAndFour draws "A" 0 Hnd Hn Hr Hi).
Defined.

(** With no more people than seats, the floors alone over-fill no group. *)
Lemma floorsState_fits (sizes : list nat) (countsByRole : obj nat) :
  NoDup countsByRole.*1 ->
  0 < sum_list sizes ->
  sum_list countsByRole.*2 <= sum_list sizes ->
  deficitsNonneg (floorsState sizes countsByRole).
Proof.
  intros Hnd Hn Hfits i Hi.
  assert (Hsum : fold_left Nat.add sizes 0 = sum_list sizes)
    by (rewrite fold_left_add_nat; lia).
  unfold floorsState in Hi |- *. simpl in Hi |- *.
  rewrite length_map, length_seq in Hi.
  rewrite (lookup_total_map_seq _ _ _ Hi). rewrite filled_bigZ.
  set (roles := Object_keys countsByRole).
  rewrite (bigZ_ext _ (fun r => (Z.of_nat (sizes !!! i * countOf countsByRole r)
                                 / Z.of_nat (sum_list sizes))%Z)).
  - pose proof (bigZ_floors
                  (fun r => Z.of_nat (sizes !!! i * countOf countsByRole r))
                  (Z.of_nat (sum_list sizes)) roles) as Hfl.
    rewrite (bigZ_ext (fun r => Z.of_nat (sizes !!! i * countOf countsByRole r))
               (fun r => (Z.of_nat (sizes !!! i) * Z.of_nat (countOf countsByRole r))%Z))
      in Hfl by (intros; lia).
    rewrite bigZ_scale in Hfl.
    rewrite (bigZ_perm (fun r => Z.of_nat (countOf countsByRole r))
               roles countsByRole.*1) in Hfl by apply Object_keys_perm.
    rewrite bigZ_counts in Hfl by exact Hnd. nia.
  - intros r Hr. subst roles.
    transitivity (floorQuota (sizes !!! i) (countOf countsByRole r)
                    (fold_left Nat.add sizes 0)).
    + exact (cell_floorsState sizes countsByRole r i Hr Hi).
    + rewrite Hsum. apply floorQuota_div. exact Hn.
Qed.

(** X7. Whether or not the role counts sum to the number of seats, the
    table that [computeRoleTargets] returns never asks for more people of a
    role than the role has; and when there are no more people than seats
    it never puts more people into a group than the group has seats. *)
Theorem computeRoleTargets_never_overfills (fuel : nat) (sizes : list nat)
    (countsByRole : obj nat) (src : list nat) (t : obj (list Z))
    (src' : list nat) :
  NoDup countsByRole.*1 -> 0 < sum_list sizes ->
  computeRoleTargets fuel sizes countsByRole src = Some (Targets t, src') ->
  (forall r, r ∈ countsByRole.*1 ->
     (bigZ (cell t r) (seq 0 (length sizes)) <= Z.of_nat (countOf countsByRole r))%Z)
  /\ (sum_list countsByRole.*2 <= sum_list sizes ->
      forall i, i < length sizes ->
        (bigZ (fun r => cell t r i) (Object_keys countsByRole)
         <= Z.of_nat (sizes !!! i))%Z).
Proof.
  intros Hnd Hn Hrun.
  rewrite computeRoleTargets_pos in Hrun by exact Hn.
  destruct (residualPass fuel _ _ _ _ _) as [st'|] eqn:Hres; [|discriminate].
  inversion Hrun; subst t src'. clear Hrun.
  pose proof (walked_balanced sizes countsByRole src Hnd Hn) as Hbal.
  destruct (residualPass_spec sizes countsByRole (Object_keys countsByRole) _
              (Object_keys_NoDup _ Hnd) fuel _ st' Hbal Hres)
    as (Hbal' & Hnn' & _).
  split.
  - intros r Hr. apply Object_keys_elem in Hr.
    pose proof (bal_rows _ _ _ _ Hbal' r Hr).
    pose proof (bal_extras _ _ _ _ Hbal' r Hr). lia.
  - intros Hfits i Hi.
    pose proof (bal_cols _ _ _ _ Hbal' i Hi) as Hcol.
    assert (Hdef : (0 <= deficits st' !!! i)%Z).
    { apply Hnn'.
      - rewrite largestRemainders_eq by exact Hnd. simpl.
        apply walkPairs_deficitsNonneg. apply floorsState_fits; assumption.
      - rewrite (wf_deficits _ _ _ (bal_wf _ _ _ _ Hbal')). exact Hi. }
    lia.
Qed.

Lemma computeRoleTargets_never_overfills_witness :
  NoDup oneForTwo.*1 /\ 0 < sum_list [2]
  /\ computeRoleTargets 1 [2] oneForTwo [] = Some (Targets [("A"%string, [1%Z])], [])
  /\ (forall r, r ∈ oneForTwo.*1 ->
        Z.le (bigZ (cell [("A"%string, [1%Z])] r) (seq 0 (length [2])))
          (Z.of_nat (countOf oneForTwo r)))
  /\ (sum_list oneForTwo.*2 <= sum_list [2] ->
      forall i, i < length [2] ->
        Z.le (bigZ (fun r => cell [("A"%string, [1%Z])] r i) (Object_keys oneForTwo))
          (Z.of_nat ([2] !!! i))).
Proof.
  assert (Hnd : NoDup oneForTwo.*1)
    by (apply (bool_decide_unpack _); vm_compute; exact I).
  assert (Hn : 0 < sum_list [2]) by (simpl; lia).
  assert (Hrun : computeRoleTargets 1 [2] oneForTwo []
                 = Some (Targets [("A"%string, [1%Z])], []))
    by (vm_compute; reflexivity).
  split; [exact Hnd|]. split; [exact Hn|]. split; [exact Hrun|].
  exact (computeRoleTargets_never_overfills 1 [2] oneForTwo [] _ _ Hnd Hn Hrun).
Defined.

(** ** Roles in the groups *)

Lemma countRole_app (r : string) (l l' : list person) :
  countRole r (l ++ l') = countRole r l + countRole r l'.
Proof. unfold countRole. rewrite filter_app, length_app. reflexivity. Qed.

Lemma countRole_perm (r : string) (l l' : list person) :
  l ≡ₚ l' -> countRole r l = countRole r l'.
Proof. intros Hp. unfold countRole. rewrite Hp. reflexivity. Qed.

Lemma countRole_same (r k : string) (l : list person) :
  Forall (fun p => role p = k) l ->
  countRole r l = if decide (r = k) then length l else 0.
Proof.
  unfold countRole. induction 1 as [|p l Hp _ IH]; [destruct (decide _); reflexivity|].
  rewrite filter_cons. destruct (decide (role p = r)) as [Heq|Hne].
  - simpl. rewrite IH. rewrite decide_True by congruence.
    rewrite decide_True by congruence. reflexivity.
  - rewrite IH. rewrite decide_False by congruence.
    rewrite decide_False by congruence. reflexivity.
Qed.

Lemma purePools_objSet (byRole : obj (list person)) (k : string) (pool : list person) :
  purePools byRole -> Forall (fun p => role p = k) pool ->
  purePools (objSet byRole k pool).
Proof.
  unfold purePools. intros Hpure Hpool.
  induction Hpure as [|[k' v'] o He Ho IH]; simpl.
  - constructor; [exact Hpool|constructor].
  - destruct (String.eqb_spec k' k) as [->|Hne].
    + constructor; [exact Hpool|exact Ho].
    + constructor; [exact He|exact IH].
Qed.

Lemma purePools_poolOf (byRole : obj (list person)) (k : string) :
  purePools byRole -> Forall (fun p => role p = k) (poolOf byRole k).
Proof.
  intros Hpure. unfold poolOf.
  destruct (objGet byRole k) as [pool|] eqn:Hget; simpl; [|constructor].
  apply objGet_elem_of in Hget. unfold purePools in Hpure.
  rewrite Forall_forall in Hpure. exact (Hpure _ Hget).
Qed.

Lemma groupByRole_pure (people : list person) (byRole byRole' : obj (list person)) :
  purePools byRole -> groupByRole people byRole = Ok byRole' -> purePools byRole'.
Proof.
  revert byRole. induction people as [|p people IH]; intros byRole Hpure Hrun;
    simpl in Hrun.
  - inversion Hrun; subst. exact Hpure.
  - destruct (addPerson byRole p) as [byRole1|e] eqn:Hadd; [|discriminate].
    apply (IH byRole1); [|exact Hrun].
    unfold addPerson in Hadd.
    pose proof (purePools_poolOf byRole (role p) Hpure) as Hpool.
    unfold poolOf in Hpool.
    destruct (objGet byRole (role p)) as [pool|].
    + inversion Hadd; subst byRole1. apply purePools_objSet; [exact Hpure|].
      apply Forall_app. split; [exact Hpool|]. constructor; [reflexivity|constructor].
    + destruct (inheritedName (role p)); [discriminate|].
      inversion Hadd; subst byRole1. apply purePools_objSet; [exact Hpure|].
      constructor; [reflexivity|constructor].
Qed.

Lemma shufflePools_pure (roles : list string) (byRole : obj (list person))
    (src : list nat) :
  purePools byRole -> purePools (shufflePools roles byRole src).1.
Proof.
  unfold shufflePools. revert byRole src.
  induction roles as [|r roles IH]; intros byRole src Hpure; simpl; [exact Hpure|].
  pose proof (shuffleInPlace_perm (poolOf byRole r) src) as Hperm.
  destruct (shuffleInPlace (poolOf byRole r) src) as [pool src']. simpl in Hperm.
  apply IH. apply purePools_objSet; [exact Hpure|].
  rewrite Hperm. apply purePools_poolOf. exact Hpure.
Qed.

(** The pool of a role holds everybody of that role. *)
Lemma pure_pool_count (byRole : obj (list person)) (r : string) :
  purePools byRole -> NoDup byRole.*1 ->
  countRole r (concat byRole.*2) = length (poolOf byRole r).
Proof.
  unfold purePools, poolOf. intros Hpure.
  induction Hpure as [|[k v] o He _ IH]; intros Hnd; [reflexivity|].
  rewrite fmap_cons in Hnd. apply NoDup_cons in Hnd. destruct Hnd as [Hk Hnd].
  rewrite fmap_cons. simpl in He |- *. rewrite countRole_app.
  rewrite (countRole_same r k v He). rewrite (IH Hnd).
  destruct (String.eqb_spec k r) as [->|Hne].
  - rewrite decide_True by reflexivity.
    simpl in Hk. apply objGet_None in Hk. rewrite Hk. simpl. lia.
  - rewrite decide_False by congruence. reflexivity.
Qed.

Lemma assignRole_counts (rt : roleTargets) (r : string) (pool : list person)
    (gis : list nat) (groups : list (list person)) (idx : nat)
    (groups' : list (list person)) (idx' : nat) (k : string) :
  Forall (fun p => role p = r) pool ->
  Forall (fun gi => gi < length groups) gis -> NoDup gis -> idx <= length pool ->
  assignRole rt r pool gis groups idx = Ok (groups', idx') ->
  length groups' = length groups
  /\ idx' <= length pool
  /\ forall gi,
       countRole k (groups' !!! gi)
       = countRole k (groups !!! gi)
         + (if decide (k = r /\ gi ∈ gis) then needOf rt r gi else 0).
Proof.
  intros Hpool Hgis. revert groups idx Hgis.
  induction gis as [|gi gis IH]; intros groups idx Hgis Hnd Hidx Hrun; simpl in Hrun.
  - inversion Hrun; subst. split; [reflexivity|]. split; [exact Hidx|].
    intros gi. rewrite decide_False; [lia|].
    intros [_ Hin]. apply elem_of_nil in Hin. exact Hin.
  - apply Forall_cons in Hgis. destruct Hgis as [Hgi Hgis].
    apply NoDup_cons in Hnd. destruct Hnd as [Hnotin Hnd].
    rewrite takeLoop_spec in Hrun by assumption.
    set (need := needOf rt r gi) in *.
    destruct (decide (idx + need <= length pool)) as [Hle|Hgt]; [|discriminate].
    set (chunk := take need (drop idx pool)) in *.
    set (groups1 := <[gi := groups !!! gi ++ chunk]> groups) in *.
    assert (Hlen1 : length groups1 = length groups) by apply length_insert.
    destruct (IH groups1 (idx + need)) as (Hlen & Hidx' & Hcounts);
      [rewrite Hlen1; exact Hgis|exact Hnd|exact Hle|exact Hrun|].
    split; [lia|]. split; [exact Hidx'|].
    assert (Hchunk : countRole k chunk = if decide (k = r) then need else 0).
    { rewrite (countRole_same k r chunk).
      - unfold chunk. rewrite length_take, length_drop.
        destruct (decide (k = r)); lia.
      - unfold chunk. apply Forall_take, Forall_drop. exact Hpool. }
    intros gj. rewrite Hcounts. unfold groups1.
    destruct (decide (gj = gi)) as [->|Hne].
    + rewrite list_lookup_total_insert_eq by exact Hgi.
      rewrite countRole_app, Hchunk.
      rewrite (decide_False (P := k = r /\ gi ∈ gis)) by (intros [_ ?]; contradiction).
      destruct (decide (k = r)) as [->|Hk].
      * rewrite decide_True by (split; [reflexivity|apply elem_of_cons; left; reflexivity]).
        fold need. lia.
      * rewrite decide_False by (intros [? _]; contradiction). lia.
    + rewrite list_lookup_total_insert_ne by congruence.
      destruct (decide (k = r /\ gj ∈ gis)) as [[-> Hin]|Hout].
      * rewrite decide_True by (split; [reflexivity|apply elem_of_cons; right; exact Hin]).
        reflexivity.
      * rewrite decide_False; [reflexivity|].
        intros [-> Hin]. apply elem_of_cons in Hin.
        destruct Hin as [?|Hin]; [contradiction|]. apply Hout. split; [reflexivity|exact Hin].
Qed.

Lemma assignTargets_counts (rt : roleTargets) (g : nat) (roles : list string)
    (byRole : obj (list person)) (groups groups' : list (list person))
    (byRole' : obj (list person)) (k : string) :
  NoDup roles -> length groups = g -> purePools byRole ->
  assignTargets rt roles g byRole groups = Ok (groups', byRole') ->
  forall gi, gi < g ->
    countRole k (groups' !!! gi)
    = countRole k (groups !!! gi)
      + (if decide (k ∈ roles) then needOf rt k gi else 0).
Proof.
  intros Hnd. revert byRole groups.
  induction roles as [|r roles IH]; intros byRole groups Hlen Hpure Hrun gi Hgi;
    simpl in Hrun.
  - inversion Hrun; subst. rewrite decide_False by apply not_elem_of_nil. lia.
  - apply NoDup_cons in Hnd. destruct Hnd as [Hr Hnd].
    destruct (assignRole rt r (poolOf byRole r) (seq 0 g) groups 0)
      as [[groups1 idx]|e] eqn:Hrole; [|discriminate].
    destruct (assignRole_counts rt r (poolOf byRole r) (seq 0 g) groups 0
                groups1 idx k) as (Hlen1 & _ & Hcounts1).
    { apply purePools_poolOf. exact Hpure. }
    { apply Forall_forall. intros gj Hgj. apply elem_of_seq in Hgj. lia. }
    { apply NoDup_seq. }
    { lia. }
    { exact Hrole. }
    rewrite (IH Hnd _ groups1 ltac:(lia)
               (purePools_objSet byRole r _ Hpure
                  (Forall_drop _ idx _ (purePools_poolOf byRole r Hpure)))
               Hrun gi Hgi).
    rewrite Hcounts1.
    destruct (decide (k = r)) as [->|Hk].
    + rewrite decide_True by (split; [reflexivity|apply elem_of_seq; lia]).
      rewrite decide_False by exact Hr.
      rewrite decide_True by (apply elem_of_cons; left; reflexivity). lia.
    + rewrite decide_False by (intros [? _]; contradiction).
      destruct (decide (k ∈ roles)) as [Hin|Hout].
      * rewrite decide_True by (apply elem_of_cons; right; exact Hin). lia.
      * rewrite decide_False; [lia|].
        intros Hin. apply elem_of_cons in Hin. destruct Hin; contradiction.
Qed.

Lemma fillFromLeftovers_extends (stack group : list person) (size : nat) :
  exists extra, (fillFromLeftovers stack group size).1 = group ++ extra.
Proof.
  revert group. induction stack as [|x stack IH]; intros group; simpl.
  - exists []. rewrite app_nil_r. reflexivity.
  - destruct (length group <? size).
    + destruct (IH (group ++ [x])) as [extra Hex]. exists ([x] ++ extra).
      rewrite Hex, app_assoc. reflexivity.
    + exists []. rewrite app_nil_r. reflexivity.
Qed.

(** The leftovers are added at the end of a group. *)
Lemma distributeLeftovers_extends (gis : list nat) (sizes : list nat)
    (groups : list (list person)) (stack : list person) (gi : nat) :
  exists extra,
    (distributeLeftovers gis sizes groups stack).1 !!! gi = groups !!! gi ++ extra.
Proof.
  revert groups stack. induction gis as [|gj gis IH]; intros groups stack; simpl.
  - exists []. rewrite app_nil_r. reflexivity.
  - destruct (0 <? length stack); [|exists []; rewrite app_nil_r; reflexivity].
    destruct (fillFromLeftovers_extends stack (groups !!! gj) (sizes !!! gj))
      as [extra0 Hex0].
    destruct (fillFromLeftovers stack (groups !!! gj) (sizes !!! gj))
      as [group stack']. simpl in Hex0.
    destruct (IH (<[gj := group]> groups) stack') as [extra Hex].
    rewrite Hex.
    destruct (decide (gi = gj)) as [->|Hne].
    + destruct (decide (gj < length groups)) as [Hlt|Hge].
      * rewrite list_lookup_total_insert_eq by exact Hlt.
        exists (extra0 ++ extra). rewrite Hex0, app_assoc. reflexivity.
      * rewrite list_insert_ge by lia. exists extra. reflexivity.
    + rewrite list_lookup_total_insert_ne by congruence. exists extra. reflexivity.
Qed.

Lemma floorQuota_nobody (size n : nat) : 0 < n -> floorQuota size 0 n = 0%Z.
Proof.
  intros Hn. rewrite floorQuota_div by exact Hn.
  rewrite Nat.mul_0_r. apply Z.div_0_l. lia.
Qed.

(** The role shares of the groups that [allocateGroups] returns. *)
Lemma allocated_role_shares (fuel : nat) (people : list person) (v : jsvalue)
    (src : list nat) (groups : list (list person))
    (annotated : list (string * string * nat)) (src' : list nat)
    (r : string) (gi : nat) :
  1 <= length people ->
  allocateGroups fuel people v src = Some (Ok (groups, annotated), src') ->
  gi < length groups ->
  (floorQuota (length (groups !!! gi)) (countRole r people) (length people)
   <= Z.of_nat (countRole r (groups !!! gi)))%Z.
Proof.
  intros Hn Hrun Hgi.
  destruct (allocateGroups_outcome fuel people v src _ src' Hn Hrun)
    as (sizes & Hsizes & _ & Hlen & Hlens & _).
  rewrite Hlen in Hgi. rewrite (Hlens gi Hgi).
  unfold allocateGroups in Hrun. rewrite Hsizes in Hrun.
  destruct (groupByRole people []) as [byRole0|e] eqn:Hgroup; [|discriminate].
  pose proof (pools_of_roster people byRole0 src Hgroup) as Hpools.
  pose proof (shufflePools_pure (Object_keys byRole0) byRole0 src
                (groupByRole_pure people [] byRole0 (Forall_nil_2 _) Hgroup)) as Hpure.
  destruct (shufflePools (Object_keys byRole0) byRole0 src) as [byRole src1].
  simpl in Hpools, Hpure.
  destruct Hpools as (Hnd & Hperm & Hcounts & HndC & Hsum & _).
  pose proof (computeGroupSizes_sum _ _ _ Hsizes) as Hsizesum.
  set (counts := Object_fromEntries
                   (map (fun r => (r, length (poolOf byRole r))) (Object_keys byRole)))
    in *.
  destruct (computeRoleTargets fuel sizes counts src1) as [[rt src2]|] eqn:Htargets;
    [|discriminate].
  assert (Hpos : 0 < sum_list sizes) by lia.
  destruct (computeRoleTargets_partial _ _ _ _ _ _ HndC Hpos ltac:(lia) Htargets)
    as (t & -> & Hexact).
  assert (Hcount : countRole r people = length (poolOf byRole r)).
  { rewrite <- (countRole_perm r _ _ Hperm). apply pure_pool_count; assumption. }
  rewrite Hcount, <- Hsizesum.
  destruct (decide (r ∈ byRole.*1)) as [Hin|Hout].
  2: { apply objGet_None in Hout. unfold poolOf. rewrite Hout. simpl.
       rewrite floorQuota_nobody by exact Hpos. lia. }
  assert (HinC : r ∈ counts.*1).
  { rewrite Hcounts, keys_map_entries. apply Object_keys_elem. exact Hin. }
  assert (HcountOf : countOf counts r = length (poolOf byRole r)).
  { unfold countOf. rewrite Hcounts.
    rewrite (objGet_map_entries (fun r => length (poolOf byRole r)));
      [reflexivity|]. apply Object_keys_elem. exact Hin. }
  pose proof (returned_cells_floor fuel sizes counts src1 t src2 r gi
                HndC Hpos Htargets HinC Hgi) as Hfloor.
  rewrite HcountOf in Hfloor.
  etransitivity; [exact Hfloor|].
  destruct Hexact as (Hkeys & _ & _).
  assert (HinT : r ∈ Object_keys t).
  { apply Object_keys_elem. rewrite Hkeys. apply Object_keys_elem. exact HinC. }
  assert (HndT : NoDup (Object_keys t)).
  { apply Object_keys_NoDup. rewrite Hkeys. apply Object_keys_NoDup. exact HndC. }
  unfold assignAndCheck in Hrun.
  change (targetRoles (Targets t)) with (Object_keys t) in Hrun.
  destruct (assignTargets (Targets t) (Object_keys t) (length sizes) byRole
              (replicate (length sizes) [])) as [[groups1 byRole']|e] eqn:Hassign;
    [|discriminate].
  pose proof (assignTargets_counts (Targets t) (length sizes) (Object_keys t) byRole
                _ groups1 byRole' r HndT (length_replicate _ _) Hpure Hassign gi Hgi)
    as Hshare.
  rewrite lookup_total_replicate_2 in Hshare by exact Hgi.
  rewrite decide_True in Hshare by exact HinT.
  destruct (shuffleInPlace (collectLeftovers byRole') src2) as [leftovers src3].
  destruct (distributeLeftovers_extends (seq 0 (length sizes)) sizes groups1
              (rev leftovers) gi) as [extra Hextra].
  destruct (distributeLeftovers (seq 0 (length sizes)) sizes groups1 (rev leftovers))
    as [groups2 stack'].
  simpl in Hextra.
  destruct (sizesDisagree (length sizes) groups2 sizes); [discriminate|].
  destruct (negb (assignedCount groups2 =? length people)); [discriminate|].
  inversion Hrun; subst groups annotated src'. clear Hrun.
  rewrite Hextra, countRole_app, Hshare. simpl. lia.
Qed.

(** X8. In the groups that [allocateGroups] returns, every group holds of
    every role at least the floor of its proportional share: a group of
    [s] people holds at least [floor(s * n_r / n)] of the [n_r] people of
    role [r]. *)
Theorem allocateGroups_role_shares (fuel : nat) (people : list person)
    (v : jsvalue) (src : list nat) (groups : list (list person))
    (annotated : list (string * string * nat)) (src' : list nat) :
  1 <= length people ->
  allocateGroups fuel people v src = Some (Ok (groups, annotated), src') ->
  forall r gi, gi < length groups ->
    (floorQuota (length (groups !!! gi)) (countRole r people) (length people)
     <= Z.of_nat (countRole r (groups !!! gi)))%Z.
Proof.
  intros Hn Hrun r gi Hgi.
  exact (allocated_role_shares fuel people v src groups annotated src' r gi
           Hn Hrun Hgi).
Qed.

Lemma allocateGroups_role_shares_witness :
  1 <= length threePeople
  /\ allocateGroups 1 threePeople (JNumber 2) [1; 0; 1]
     = Some (Ok (threeGroups, threeRows), [])
  /\ forall r gi, gi < length threeGroups ->
       (floorQuota (length (threeGroups !!! gi)) (countRole r threePeople)
          (length threePeople)
        <= Z.of_nat (countRole r (threeGroups !!! gi)))%Z.
Proof.
  assert (Hn : 1 <= length threePeople) by (simpl; lia).
  assert (Hrun : allocateGroups 1 threePeople (JNumber 2) [1; 0; 1]
                 = Some (Ok (threeGroups, threeRows), []))
    by (vm_compute; reflexivity).
  split; [exact Hn|]. split; [exact Hrun|].
  exact (allocateGroups_role_shares 1 threePeople (JNumber 2) [1; 0; 1]
           threeGroups threeRows [] Hn Hrun).
Defined.

(** ** The annotated rows (lines 229-234) *)

Lemma rowPerson_rows (group : list person) (gi : nat) :
  map rowPerson (map (fun p => (name p, role p, gi + 1)) group) = group.
Proof.
  induction group as [|[nm rl] group IH]; simpl; [reflexivity|].
  rewrite IH. reflexivity.
Qed.

Lemma annotate_people (g : nat) (groups : list (list person)) :
  length groups = g -> map rowPerson (annotate g groups) = concat groups.
Proof.
  intros Hlen. unfold annotate. subst g.
  transitivity (concat ((fun i => groups !!! i) <$> seq 0 (length groups)));
    [|f_equal; symmetry; apply list_as_lookups].
  induction (seq 0 (length groups)) as [|gi idxs IH]; simpl; [reflexivity|].
  rewrite map_app, rowPerson_rows, IH. reflexivity.
Qed.

Lemma rows_of_group (group : list person) (gi gj : nat) :
  filter (fun row : string * string * nat => row.2 = gi + 1)
    (map (fun p => (name p, role p, gj + 1)) group)
  = if decide (gj = gi) then map (fun p => (name p, role p, gj + 1)) group else [].
Proof.
  induction group as [|p group IH]; simpl; [destruct (decide _); reflexivity|].
  rewrite filter_cons, IH. simpl.
  destruct (decide (gj = gi)) as [->|Hne].
  - rewrite decide_True by reflexivity. reflexivity.
  - rewrite decide_False by lia. reflexivity.
Qed.

Lemma annotate_group (groups : list (list person)) (gi a n : nat) :
  filter (fun row : string * string * nat => row.2 = gi + 1)
    (flat_map (fun gj => map (fun p => (name p, role p, gj + 1)) (groups !!! gj))
       (seq a n))
  = if decide (a <= gi < a + n)
    then map (fun p => (name p, role p, gi + 1)) (groups !!! gi) else [].
Proof.
  revert a. induction n as [|n IH]; intros a; simpl.
  - rewrite decide_False by lia. reflexivity.
  - rewrite filter_app, rows_of_group, IH.
    destruct (decide (a = gi)) as [->|Hne].
    + rewrite decide_False by lia. rewrite decide_True by lia.
      rewrite app_nil_r. reflexivity.
    + destruct (decide (S a <= gi < S a + n)).
      * rewrite decide_True by lia. reflexivity.
      * rewrite decide_False by lia. reflexivity.
Qed.

Lemma annotate_numbers (groups : list (list person)) (a n : nat) :
  Forall (fun row : string * string * nat => a + 1 <= row.2 <= a + n)
    (flat_map (fun gj => map (fun p => (name p, role p, gj + 1)) (groups !!! gj))
       (seq a n)).
Proof.
  revert a. induction n as [|n IH]; intros a; simpl; [constructor|].
  apply Forall_app. split.
  - apply Forall_forall. intros row Hrow.
    apply list_elem_of_In, in_map_iff in Hrow. destruct Hrow as (p & <- & _).
    simpl. lia.
  - eapply Forall_impl; [apply IH|]. intros row Hrow. simpl in Hrow. lia.
Qed.

(** X9. The rows that [allocateGroups] returns beside the groups list the
    people group by group: the rows numbered [gi + 1] are, in order, the
    people of [groups[gi]], every number is between 1 and the number of
    groups, and all rows together are the people of all groups. *)
Theorem allocateGroups_annotated (fuel : nat) (people : list person)
    (v : jsvalue) (src : list nat) (groups : list (list person))
    (annotated : list (string * string * nat)) (src' : list nat) :
  1 <= length people ->
  allocateGroups fuel people v src = Some (Ok (groups, annotated), src') ->
  map rowPerson annotated = concat groups
  /\ map rowPerson annotated ≡ₚ people
  /\ Forall (fun row => 1 <= row.2 <= length groups) annotated
  /\ forall gi, gi < length groups ->
       map rowPerson (filter (fun row => row.2 = gi + 1) annotated)
       = groups !!! gi.
Proof.
  intros Hn Hrun.
  destruct (allocateGroups_outcome fuel people v src _ src' Hn Hrun)
    as (sizes & _ & Hperm & Hlen & _ & ->).
  rewrite <- Hlen.
  assert (Hall : map rowPerson (annotate (length groups) groups) = concat groups)
    by (apply annotate_people; reflexivity).
  split; [exact Hall|]. split; [rewrite Hall; exact Hperm|]. split.
  - apply (annotate_numbers groups 0 (length groups)).
  - intros gi Hgi. unfold annotate. rewrite annotate_group.
    rewrite decide_True by lia. apply rowPerson_rows.
Qed.

Lemma allocateGroups_annotated_witness :
  1 <= length threePeople
  /\ allocateGroups 1 threePeople (JNumber 2) [1; 0; 1]
     = Some (Ok (threeGroups, threeRows), [])
  /\ map rowPerson threeRows = concat threeGroups
  /\ map rowPerson threeRows ≡ₚ threePeople
  /\ Forall (fun row => 1 <= row.2 <= length threeGroups) threeRows
  /\ forall gi, gi < length threeGroups ->
       map rowPerson (filter (fun row => row.2 = gi + 1) threeRows)
       = threeGroups !!! gi.
Proof.
  assert (Hn : 1 <= length threePeople) by (simpl; lia).
  assert (Hrun : allocateGroups 1 threePeople (JNumber 2) [1; 0; 1]
                 = Some (Ok (threeGroups, threeRows), []))
    by (vm_compute; reflexivity).
  split; [exact Hn|]. split; [exact Hrun|].
  exact (allocateGroups_annotated 1 threePeople (JNumber 2) [1; 0; 1]
           threeGroups threeRows [] Hn Hrun).
Defined.

(** ** Rosters of fewer than two people *)

Lemma computeGroupSizes_nobody (d : Q) :
  (2 <= d)%Q -> computeGroupSizes 0 (JNumber d) = Ok [0].
Proof.
  intros Hd. rewrite computeGroupSizes_finite by exact Hd.
  rewrite groupCount_one; [reflexivity|lra|].
  change (inject_Z (Z.of_nat 0)) with 0%Q. lra.
Qed.

Lemma allocateGroups_nobody (d : Q) (fuel : nat) (src : list nat) :
  (2 <= d)%Q ->
  allocateGroups fuel [] (JNumber d) src = Some (Ok ([[]], []), src).
Proof.
  intros Hd. unfold allocateGroups.
  change (length []) with 0. rewrite computeGroupSizes_nobody by exact Hd.
  destruct fuel; reflexivity.
Qed.

Lemma allocateGroups_one (p : person) (d : Q) (src : list nat) :
  (2 <= d)%Q -> role p <> EmptyString -> inheritedName (role p) = false ->
  exists src', forall fuel, 1 < fuel ->
    allocateGroups fuel [p] (JNumber d) src
    = Some (Ok ([[p]], [(name p, role p, 1)]), src').
Proof.
  intros Hd Hrole Hname.
  destruct (allocateGroups_returns [p] d src) as (groups & annotated & src' & Hrun);
    [simpl; lia|exact Hd|constructor; [split; assumption|constructor]|].
  exists src'. intros fuel Hfuel. rewrite (Hrun fuel Hfuel).
  destruct (allocateGroups_outcome fuel [p] (JNumber d) src _ src'
              ltac:(simpl; lia) (Hrun fuel Hfuel))
    as (sizes & Hsizes & Hperm & Hlen & Hlens & ->).
  assert (Hone : sizes = [1]).
  { change (length [p]) with 1 in Hsizes.
    rewrite computeGroupSizes_finite in Hsizes by exact Hd.
    assert (Hg : groupCount 1 d = 1).
    { pose proof (groupCount_pos 1 d). pose proof (groupCount_le 1 d Hd). lia. }
    rewrite Hg in Hsizes. inversion Hsizes. reflexivity. }
  subst sizes.
  destruct groups as [|group [|? ?]]; try discriminate.
  simpl in Hperm. rewrite app_nil_r in Hperm.
  apply Permutation_singleton_r in Hperm. subst group.
  destruct p as [nm rl]. reflexivity.
Qed.

(** X10. [allocateGroups] itself asks for no minimum of people.  Without
    anybody it returns one group that is empty, and no row; a single
    person (of a role that is not empty and no name of a member of
    [Object.prototype]) is returned as one group of one, with one row. *)
Theorem allocateGroups_small_rosters (d : Q) (src : list nat) :
  (2 <= d)%Q ->
  (forall fuel, allocateGroups fuel [] (JNumber d) src = Some (Ok ([[]], []), src))
  /\ forall p, role p <> EmptyString -> inheritedName (role p) = false ->
       exists src', forall fuel, 1 < fuel ->
         allocateGroups fuel [p] (JNumber d) src
         = Some (Ok ([[p]], [(name p, role p, 1)]), src').
Proof.
  intros Hd. split.
  - intros fuel. apply allocateGroups_nobody. exact Hd.
  - intros p Hrole Hname. apply allocateGroups_one; assumption.
Qed.

Lemma allocateGroups_small_rosters_witness :
  (2 <= 4)%Q
  /\ (forall fuel, allocateGroups fuel [] (JNumber 4) draws
                    = Some (Ok ([[]], []), draws))
  /\ forall p, role p <> EmptyString -> inheritedName (role p) = false ->
       exists src', forall fuel, 1 < fuel ->
         allocateGroups fuel [p] (JNumber 4) draws
         = Some (Ok ([[p]], [(name p, role p, 1)]), src').
Proof.
  assert (Hd : (2 <= 4)%Q) by (unfold Qle; simpl; lia).
  split; [exact Hd|].
  exact (allocateGroups_small_rosters 4 draws Hd).
Defined.

(** ** Strings *)

Lemma append_nil_l (b : string) : EmptyString +:+ b = b.
Proof. reflexivity. Qed.

Lemma append_cons (x : ascii) (a b : string) : String x a +:+ b = String x (a +:+ b).
Proof. reflexivity. Qed.

Ltac app_simpl := rewrite ?append_cons, ?append_nil_l.
Ltac app_simpl_in H := rewrite ?append_cons, ?append_nil_l in H.

Lemma append_assoc (a b c : string) : (a +:+ b) +:+ c = a +:+ (b +:+ c).
Proof. induction a as [|x a IH]; app_simpl; [reflexivity|]. rewrite IH. reflexivity. Qed.

Lemma append_empty_r (a : string) : a +:+ EmptyString = a.
Proof. induction a as [|x a IH]; app_simpl; [reflexivity|]. rewrite IH. reflexivity. Qed.

Lemma length_append (a b : string) :
  String.length (a +:+ b) = String.length a + String.length b.
Proof.
  induction a as [|x a IH]; app_simpl; [reflexivity|]. simpl. rewrite IH. reflexivity.
Qed.

Lemma includes_append (c : ascii) (a b : string) :
  includes c (a +:+ b) = includes c a || includes c b.
Proof.
  induction a as [|x a IH]; app_simpl; [reflexivity|]. simpl.
  rewrite IH. apply orb_assoc.
Qed.

(** *** [trim] *)

Lemma trimStart_fixed (c : ascii) (s : string) :
  isWhiteSpace c = false -> trimStart (String c s) = String c s.
Proof. intros Hc. simpl. rewrite Hc. reflexivity. Qed.

Lemma trimEnd_cons (c : ascii) (s : string) :
  isWhiteSpace c = false -> trimEnd (String c s) = String c (trimEnd s).
Proof.
  intros Hc. simpl. destruct (trimEnd s); [rewrite Hc|]; reflexivity.
Qed.

Lemma trimStart_idem (s : string) : trimStart (trimStart s) = trimStart s.
Proof.
  induction s as [|c s IH]; simpl; [reflexivity|].
  destruct (isWhiteSpace c) eqn:Hc; [exact IH|].
  simpl. rewrite Hc. reflexivity.
Qed.

Lemma trimEnd_step (c : ascii) (s : string) :
  trimEnd (String c s)
  = match trimEnd s with
    | EmptyString => if isWhiteSpace c then EmptyString else String c EmptyString
    | kept => String c kept
    end.
Proof. reflexivity. Qed.

Lemma trimEnd_idem (s : string) : trimEnd (trimEnd s) = trimEnd s.
Proof.
  induction s as [|c s IH]; [reflexivity|].
  rewrite trimEnd_step. destruct (trimEnd s) as [|k kept] eqn:Hkept.
  - destruct (isWhiteSpace c) eqn:Hc; [reflexivity|].
    rewrite trimEnd_step. simpl. rewrite Hc. reflexivity.
  - rewrite trimEnd_step, IH. reflexivity.
Qed.

(** What [trim] returns is empty or begins and ends with code units that
    are no white space. *)
Lemma trimStart_trim (s : string) : trimStart (trim s) = trim s.
Proof.
  unfold trim. destruct (trimStart s) as [|c r] eqn:Hs; [reflexivity|].
  assert (Hc : isWhiteSpace c = false).
  { clear -Hs. induction s as [|x s IH]; simpl in Hs; [discriminate|].
    destruct (isWhiteSpace x) eqn:Hx; [apply IH; exact Hs|].
    inversion Hs; subst. exact Hx. }
  rewrite trimEnd_cons by exact Hc. apply trimStart_fixed. exact Hc.
Qed.

Lemma trimEnd_trim (s : string) : trimEnd (trim s) = trim s.
Proof. unfold trim. apply trimEnd_idem. Qed.

Lemma trim_idem (s : string) : trim (trim s) = trim s.
Proof. unfold trim at 1. rewrite trimStart_trim. apply trimEnd_trim. Qed.

Lemma trimStart_suffix (s : string) : exists w, s = w +:+ trimStart s.
Proof.
  induction s as [|c s [w IH]]; [exists EmptyString; reflexivity|]. simpl.
  destruct (isWhiteSpace c).
  - exists (String c w). rewrite append_cons, <- IH. reflexivity.
  - exists EmptyString. reflexivity.
Qed.

Lemma trimEnd_prefix (s : string) : exists w, s = trimEnd s +:+ w.
Proof.
  induction s as [|c s [w IH]]; [exists EmptyString; reflexivity|].
  rewrite trimEnd_step. destruct (trimEnd s) as [|k kept].
  - destruct (isWhiteSpace c).
    + exists (String c s). reflexivity.
    + exists w. rewrite append_cons. rewrite append_nil_l in *.
      rewrite <- IH. reflexivity.
  - exists w. rewrite append_cons, <- IH. reflexivity.
Qed.

(** A string that [trim] leaves alone is left alone by both halves. *)
Lemma trim_fixed (s : string) : trim s = s -> trimStart s = s /\ trimEnd s = s.
Proof.
  intros Hs.
  destruct (trimStart_suffix s) as [w Hw].
  destruct (trimEnd_prefix (trimStart s)) as [w' Hw'].
  fold (trim s) in Hw'. rewrite Hs in Hw'.
  assert (Hlen : String.length s
                 = String.length w + (String.length s + String.length w')).
  { rewrite Hw at 1. rewrite length_append. rewrite Hw'. rewrite length_append.
    reflexivity. }
  assert (w = EmptyString) by (destruct w; simpl in Hlen; [reflexivity|lia]).
  subst w. rewrite append_nil_l in Hw. split; [symmetry; exact Hw|].
  unfold trim in Hs. rewrite <- Hw in Hs. exact Hs.
Qed.

Lemma includes_trimStart (c : ascii) (s : string) :
  includes c s = false -> includes c (trimStart s) = false.
Proof.
  induction s as [|x s IH]; simpl; [reflexivity|].
  intros Hs. apply orb_false_iff in Hs. destruct Hs as [Hx Hs].
  destruct (isWhiteSpace x); [apply IH; exact Hs|].
  simpl. rewrite Hx, Hs. reflexivity.
Qed.

Lemma includes_trimEnd (c : ascii) (s : string) :
  includes c s = false -> includes c (trimEnd s) = false.
Proof.
  induction s as [|x s IH]; simpl; [reflexivity|].
  intros Hs. apply orb_false_iff in Hs. destruct Hs as [Hx Hs].
  specialize (IH Hs). destruct (trimEnd s) as [|k kept].
  - destruct (isWhiteSpace x); simpl; [reflexivity|]. rewrite Hx. reflexivity.
  - cbn [includes] in IH |- *. rewrite Hx. exact IH.
Qed.

Lemma includes_trim (c : ascii) (s : string) :
  includes c s = false -> includes c (trim s) = false.
Proof. intros Hs. apply includes_trimEnd, includes_trimStart. exact Hs. Qed.

(** A string that ends with a code unit that is no white space. *)
Lemma trimEnd_append (a b : string) :
  b <> EmptyString -> trimEnd b = b -> trimEnd (a +:+ b) = a +:+ b.
Proof.
  intros Hb Hfixed. induction a as [|c a IH]; app_simpl; [exact Hfixed|].
  rewrite trimEnd_step, IH. destruct (a +:+ b) eqn:Hab; [|reflexivity].
  destruct a; app_simpl_in Hab; [contradiction|discriminate].
Qed.

(** *** [split] *)

Lemma consHead_cons (c : ascii) (piece : string) (others : list string) :
  consHead c (piece :: others) = String c piece :: others.
Proof. reflexivity. Qed.

Lemma splitOn_cons (d : ascii) (s : string) :
  exists piece others, splitOn d s = piece :: others.
Proof.
  induction s as [|c s (piece & others & IH)]; simpl; [eauto|].
  destruct (Ascii.eqb c d); [eauto|]. rewrite IH. simpl. eauto.
Qed.

(** No piece holds the separator, and no piece holds a code unit that the
    string does not hold. *)
Lemma splitOn_pieces (d : ascii) (s : string) :
  Forall (fun piece => includes d piece = false) (splitOn d s).
Proof.
  induction s as [|c s IH]; simpl; [constructor; [reflexivity|constructor]|].
  destruct (Ascii.eqb c d) eqn:Hc; [constructor; [reflexivity|exact IH]|].
  destruct (splitOn d s) as [|piece others]; simpl.
  - constructor; [simpl; rewrite Hc; reflexivity|constructor].
  - apply Forall_cons in IH. destruct IH as [Hp Ho].
    constructor; [simpl; rewrite Hc, Hp; reflexivity|exact Ho].
Qed.

Lemma splitOn_keeps_out (d c : ascii) (s : string) :
  includes c s = false ->
  Forall (fun piece => includes c piece = false) (splitOn d s).
Proof.
  induction s as [|x s IH]; simpl; [constructor; [reflexivity|constructor]|].
  intros Hs. apply orb_false_iff in Hs. destruct Hs as [Hx Hs]. specialize (IH Hs).
  destruct (Ascii.eqb x d); [constructor; [reflexivity|exact IH]|].
  destruct (splitOn d s) as [|piece others]; simpl.
  - constructor; [simpl; rewrite Hx; reflexivity|constructor].
  - apply Forall_cons in IH. destruct IH as [Hp Ho].
    constructor; [simpl; rewrite Hx, Hp; reflexivity|exact Ho].
Qed.

Lemma splitOn_plain (d : ascii) (a : string) :
  includes d a = false -> splitOn d a = [a].
Proof.
  induction a as [|c a IH]; simpl; [reflexivity|].
  intros Ha. apply orb_false_iff in Ha. destruct Ha as [Hc Ha].
  rewrite Hc, IH by exact Ha. reflexivity.
Qed.

Lemma splitOn_append (d : ascii) (a b : string) :
  includes d a = false ->
  splitOn d (a +:+ String d b) = a :: splitOn d b.
Proof.
  induction a as [|c a IH]; app_simpl; simpl.
  - intros _. rewrite Ascii.eqb_refl. reflexivity.
  - intros Ha. apply orb_false_iff in Ha. destruct Ha as [Hc Ha].
    rewrite Hc, IH by exact Ha. reflexivity.
Qed.

Lemma splitLines_cons (s : string) :
  exists piece others, splitLines s = piece :: others.
Proof.
  assert (Hgen : forall n s, String.length s <= n ->
             exists piece others, splitLines s = piece :: others).
  { clear s. induction n as [|n IH]; intros s Hn.
    - destruct s; simpl in Hn; [simpl; eauto|lia].
    - destruct s as [|c s]; [simpl; eauto|]. simpl in Hn. simpl.
      destruct (Ascii.eqb c LF); [eauto|].
      destruct s as [|c' s']; [eauto|].
      destruct (Ascii.eqb c CR && Ascii.eqb c' LF); [eauto|].
      destruct (IH (String c' s') ltac:(simpl in *; lia)) as (piece & others & ->).
      simpl. eauto. }
  apply (Hgen (String.length s)). lia.
Qed.

Lemma splitLines_plain (a : string) :
  includes LF a = false -> splitLines a = [a].
Proof.
  induction a as [|c a IH]; [reflexivity|].
  intros Ha. cbn [includes] in Ha. apply orb_false_iff in Ha. destruct Ha as [Hc Ha].
  specialize (IH Ha). cbn [splitLines]. rewrite Hc.
  destruct a as [|c' a']; [reflexivity|].
  cbn [includes] in Ha. apply orb_false_iff in Ha. destruct Ha as [Hc' _].
  rewrite Hc', andb_false_r. rewrite IH. reflexivity.
Qed.

(** A line that holds no line feed and does not end with white space (so
    not with a carriage return), followed by a line feed. *)
Lemma splitLines_append (a b : string) :
  includes LF a = false -> trimEnd a = a ->
  splitLines (a +:+ String LF b) = a :: splitLines b.
Proof.
  induction a as [|c a IH]; [intros _ _; reflexivity|].
  intros Ha Hfixed. cbn [includes] in Ha. apply orb_false_iff in Ha.
  destruct Ha as [Hc Ha].
  change (String c a +:+ String LF b) with (String c (a +:+ String LF b)).
  cbn [splitLines]. rewrite Hc.
  destruct a as [|c' a'].
  - simpl in Hfixed. simpl.
    assert (Hcr : Ascii.eqb c CR = false).
    { destruct (Ascii.eqb_spec c CR) as [->|]; [discriminate|reflexivity]. }
    rewrite Hcr. simpl. reflexivity.
  - change (String c' a' +:+ String LF b) with (String c' (a' +:+ String LF b)).
    cbn [includes] in Ha. apply orb_false_iff in Ha. destruct Ha as [Hc' Ha'].
    rewrite Hc', andb_false_r.
    change (String c' (a' +:+ String LF b)) with (String c' a' +:+ String LF b).
    rewrite IH; [reflexivity|cbn [includes]; rewrite Hc', Ha'; reflexivity|].
    simpl in Hfixed. simpl.
    destruct (trimEnd a') as [|k kept] eqn:Hk.
    + destruct (isWhiteSpace c') eqn:Hws.
      * destruct (isWhiteSpace c); discriminate.
      * inversion Hfixed as [Ha0]. rewrite Ha0. reflexivity.
    + inversion Hfixed as [Ha0]. rewrite Ha0. reflexivity.
Qed.

Lemma splitLines_pieces (c : ascii) (s : string) :
  includes c s = false \/ c = LF ->
  Forall (fun piece => includes c piece = false) (splitLines s).
Proof.
  assert (Hgen : forall n s, String.length s <= n ->
             includes c s = false \/ c = LF ->
             Forall (fun piece => includes c piece = false) (splitLines s)).
  { clear s. induction n as [|n IH]; intros s Hn Hs.
    - destruct s; simpl in Hn; [|lia]. constructor; [reflexivity|constructor].
    - destruct s as [|x s]; [constructor; [reflexivity|constructor]|].
      simpl in Hn. cbn [splitLines].
      assert (Hrest : includes c s = false \/ c = LF).
      { destruct Hs as [Hs|Hs]; [|right; exact Hs].
        cbn [includes] in Hs. apply orb_false_iff in Hs. left. apply Hs. }
      destruct (Ascii.eqb_spec x LF) as [->|Hx].
      { constructor; [reflexivity|]. apply IH; [lia|exact Hrest]. }
      assert (Hxc : Ascii.eqb x c = false).
      { destruct Hs as [Hs| ->].
        - cbn [includes] in Hs. apply orb_false_iff in Hs. apply Hs.
        - apply Ascii.eqb_neq. exact Hx. }
      destruct s as [|x' s'].
      { constructor; [simpl; rewrite Hxc; reflexivity|constructor]. }
      destruct (Ascii.eqb x CR && Ascii.eqb x' LF).
      { constructor; [reflexivity|]. apply IH; [simpl in *; lia|].
        destruct Hrest as [Hr|Hr]; [|right; exact Hr].
        cbn [includes] in Hr. apply orb_false_iff in Hr. left. apply Hr. }
      specialize (IH (String x' s') ltac:(simpl in *; lia) Hrest).
      destruct (splitLines (String x' s')) as [|piece others]; simpl.
      + constructor; [simpl; rewrite Hxc; reflexivity|constructor].
      + apply Forall_cons in IH. destruct IH as [Hp Ho].
        constructor; [simpl; rewrite Hxc, Hp; reflexivity|exact Ho]. }
  apply (Hgen (String.length s)). lia.
Qed.

(** ** RosterParser *)

Lemma isBlank_false (s : string) : isBlank s = false <-> s <> EmptyString.
Proof. destruct s; simpl; split; intros; try discriminate; try reflexivity; contradiction. Qed.

Lemma parseRows_spec (d : ascii) (rows : list string) (i : nat)
    (people : list person) :
  match parseRows d rows i people with
  | Parsed ps =>
      Forall (fun line => goodLine d line = true) rows
      /\ ps = people ++ map (personOf d) rows
  | ParseThrow e =>
      exists j line,
        e = LineError (i + j + 1) /\ rows !! j = Some line
        /\ goodLine d line = false
        /\ Forall (fun line => goodLine d line = true) (take j rows)
  end.
Proof.
  revert i people. induction rows as [|line rows IH]; intros i people; simpl.
  - split; [constructor|]. rewrite app_nil_r. reflexivity.
  - assert (Hbad : goodLine d line = false ->
              exists j line0,
                LineError (i + 1) = LineError (i + j + 1)
                /\ (line :: rows) !! j = Some line0
                /\ goodLine d line0 = false
                /\ Forall (fun line => goodLine d line = true) (take j (line :: rows))).
    { intros Hline. exists 0, line. rewrite Nat.add_0_r.
      split; [reflexivity|]. split; [reflexivity|]. split; [exact Hline|constructor]. }
    destruct (fieldsOf d line) as [|nm [|rl fields]] eqn:Hf;
      [apply Hbad; unfold goodLine; rewrite Hf; reflexivity..|].
    destruct (isBlank nm || isBlank rl) eqn:Hblank;
      [apply Hbad; unfold goodLine; rewrite Hf, Hblank; reflexivity|].
    assert (Hline : goodLine d line = true)
      by (unfold goodLine; rewrite Hf, Hblank; reflexivity).
    assert (Hp : personOf d line = mkPerson nm rl)
      by (unfold personOf; rewrite Hf; reflexivity).
    clear Hbad. specialize (IH (i + 1) (people ++ [mkPerson nm rl])).
    destruct (parseRows d rows (i + 1) (people ++ [mkPerson nm rl])) as [ps|e].
    + destruct IH as [Hgood ->]. split.
      * constructor; [exact Hline|exact Hgood].
      * rewrite Hp, <- app_assoc. reflexivity.
    + destruct IH as (j & line0 & -> & Hj & Hline0 & Htake).
      exists (S j), line0. split; [f_equal; lia|]. split; [exact Hj|].
      split; [exact Hline0|]. simpl. constructor; [exact Hline|exact Htake].
Qed.

Lemma rosterLines_clean (text : string) :
  Forall (fun l => l <> EmptyString /\ trim l = l /\ includes LF l = false)
    (rosterLines text).
Proof.
  unfold rosterLines. apply Forall_forall. intros l Hl.
  apply list_elem_of_In, filter_In in Hl. destruct Hl as [Hl Hlen].
  apply in_map_iff in Hl. destruct Hl as (piece & <- & Hpiece).
  split; [|split].
  - intros Hempty. rewrite Hempty in Hlen. discriminate.
  - apply trim_idem.
  - apply includes_trim.
    pose proof (splitLines_pieces LF text (or_intror eq_refl)) as Hpieces.
    rewrite Forall_forall in Hpieces. apply Hpieces. apply list_elem_of_In. exact Hpiece.
Qed.

Lemma fieldsOf_clean (d : ascii) (line : string) :
  includes LF line = false ->
  Forall (fun f => trim f = f /\ includes d f = false /\ includes LF f = false)
    (fieldsOf d line).
Proof.
  intros Hline. unfold fieldsOf. apply Forall_forall. intros f Hf.
  apply list_elem_of_In, in_map_iff in Hf. destruct Hf as (piece & <- & Hpiece).
  apply list_elem_of_In in Hpiece.
  pose proof (splitOn_pieces d line) as Hd.
  pose proof (splitOn_keeps_out d LF line Hline) as Hlf.
  rewrite Forall_forall in Hd, Hlf.
  split; [apply trim_idem|]. split; apply includes_trim; auto.
Qed.

Lemma goodLine_person (d : ascii) (line : string) :
  includes LF line = false -> goodLine d line = true ->
  cleanField d (name (personOf d line)) /\ cleanField d (role (personOf d line)).
Proof.
  intros Hline Hgood. pose proof (fieldsOf_clean d line Hline) as Hfields.
  unfold goodLine in Hgood. unfold personOf.
  destruct (fieldsOf d line) as [|nm [|rl fields]]; try discriminate.
  apply negb_true_iff, orb_false_iff in Hgood. destruct Hgood as [Hnm Hrl].
  apply isBlank_false in Hnm, Hrl.
  apply Forall_cons in Hfields. destruct Hfields as [(Hn1 & Hn2 & Hn3) Hfields].
  apply Forall_cons in Hfields. destruct Hfields as [(Hr1 & Hr2 & Hr3) _].
  simpl. unfold cleanField. auto 10.
Qed.

Lemma headerRows_le (fields : list string) : headerRows fields <= 1.
Proof. unfold headerRows. destruct (_ && _); lia. Qed.

(** What [parseRoster] returns, in terms of the lines it keeps. *)
Lemma parseRoster_unfold (text : string) :
  let lines := rosterLines text in
  let d := delimiterOf (lines !!! 0) in
  let h := headerRows (fieldsOf d (lines !!! 0)) in
  parseRoster text
  = if length lines <? 2 then ParseThrow NeedTwoPeople
    else parseRows d (drop h lines) h [].
Proof. reflexivity. Qed.

Lemma parseRoster_parsed (text : string) (people : list person) :
  parseRoster text = Parsed people ->
  let lines := rosterLines text in
  let d := delimiterOf (lines !!! 0) in
  let h := headerRows (fieldsOf d (lines !!! 0)) in
  2 <= length lines
  /\ Forall (fun line => goodLine d line = true) (drop h lines)
  /\ people = map (personOf d) (drop h lines).
Proof.
  intros Hrun lines d h. rewrite parseRoster_unfold in Hrun. fold lines d h in Hrun.
  destruct (Nat.ltb_spec (length lines) 2) as [Hlt|Hge]; [discriminate|].
  split; [exact Hge|].
  pose proof (parseRows_spec d (drop h lines) h []) as Hspec.
  rewrite Hrun in Hspec. exact Hspec.
Qed.

Lemma parsed_people_clean (text : string) (people : list person) :
  parseRoster text = Parsed people ->
  let lines := rosterLines text in
  let d := delimiterOf (lines !!! 0) in
  Forall (fun p => cleanField d (name p) /\ cleanField d (role p)) people
  /\ length people + headerRows (fieldsOf d (lines !!! 0)) = length lines
  /\ 1 <= length people.
Proof.
  intros Hrun lines d.
  destruct (parseRoster_parsed text people Hrun) as (Hlen & Hgood & ->).
  fold lines d in Hlen, Hgood |- *.
  pose proof (headerRows_le (fieldsOf d (lines !!! 0))) as Hh.
  set (h := headerRows (fieldsOf d (lines !!! 0))) in *.
  split; [|rewrite length_map, length_drop; lia].
  apply Forall_forall. intros p Hp.
  apply list_elem_of_In, in_map_iff in Hp. destruct Hp as (line & <- & Hline).
  apply list_elem_of_In in Hline.
  rewrite Forall_forall in Hgood.
  apply goodLine_person; [|apply Hgood; exact Hline].
  pose proof (rosterLines_clean text) as Hclean. rewrite Forall_forall in Hclean.
  apply (Hclean line). fold lines.
  apply list_elem_of_lookup in Hline. destruct Hline as [j Hj].
  rewrite lookup_drop in Hj. apply list_elem_of_lookup. eauto.
Qed.

(** X11. The people that [parseRoster] returns have a name and a role that
    are not empty, are trimmed and hold neither the delimiter nor a line
    feed; there is one person for every line that is not blank, the
    header apart, and so at least one person. *)
Theorem parseRoster_people (text : string) (people : list person) :
  parseRoster text = Parsed people ->
  let lines := rosterLines text in
  let d := delimiterOf (lines !!! 0) in
  Forall (fun p => cleanField d (name p) /\ cleanField d (role p)) people
  /\ length people + headerRows (fieldsOf d (lines !!! 0)) = length lines
  /\ 1 <= length people.
Proof. exact (parsed_people_clean text people). Qed.

Lemma parseRoster_people_witness :
  parseRoster pastedRoster = Parsed pastedPeople
  /\ (let lines := rosterLines pastedRoster in
      let d := delimiterOf (lines !!! 0) in
      Forall (fun p => cleanField d (name p) /\ cleanField d (role p)) pastedPeople
      /\ length pastedPeople + headerRows (fieldsOf d (lines !!! 0)) = length lines
      /\ 1 <= length pastedPeople).
Proof.
  assert (Hrun : parseRoster pastedRoster = Parsed pastedPeople)
    by (vm_compute; reflexivity).
  split; [exact Hrun|].
  exact (parseRoster_people pastedRoster pastedPeople Hrun).
Defined.

(** X12. [parseRoster] throws its first error exactly when fewer than two
    lines are left once the blank ones are dropped, and the error of line
    [k] exactly when the [k]-th of these lines (the header counts) is the
    first one after the header without a name or a role. *)
Theorem parseRoster_errors (text : string) :
  let lines := rosterLines text in
  let d := delimiterOf (lines !!! 0) in
  let h := headerRows (fieldsOf d (lines !!! 0)) in
  (parseRoster text = ParseThrow NeedTwoPeople <-> length lines < 2)
  /\ forall k,
       parseRoster text = ParseThrow (LineError k)
       <-> 2 <= length lines /\ h < k <= length lines
           /\ goodLine d (lines !!! (k - 1)) = false
           /\ forall j, h <= j -> j < k - 1 -> goodLine d (lines !!! j) = true.
Proof.
  intros lines d h. rewrite parseRoster_unfold. fold lines d h.
  pose proof (parseRows_spec d (drop h lines) h []) as Hspec.
  assert (Hgoods : forall j,
             Forall (fun line => goodLine d line = true) (take j (drop h lines))
             -> forall j', h <= j' -> j' < h + j -> j' < length lines ->
                goodLine d (lines !!! j') = true).
  { intros j Hall j' Hlo Hhi Hlen. rewrite Forall_lookup in Hall.
    apply (Hall (j' - h)). rewrite lookup_take_lt by lia.
    rewrite lookup_drop. replace (h + (j' - h)) with j' by lia.
    apply list_lookup_lookup_total_lt. exact Hlen. }
  destruct (Nat.ltb_spec (length lines) 2) as [Hlt|Hge].
  { split; [split; [intros _; exact Hlt|reflexivity]|].
    intros k. split; [discriminate|]. intros [Hge _]. lia. }
  split.
  { split; [|lia]. intros Hrun. rewrite Hrun in Hspec.
    destruct Hspec as (j & line & Heq & _). discriminate. }
  intros k. split.
  - intros Hrun. rewrite Hrun in Hspec.
    destruct Hspec as (j & line & [= ->] & Hj & Hbad & Hall).
    rewrite lookup_drop in Hj.
    assert (Hlt : h + j < length lines) by (apply lookup_lt_is_Some; eauto).
    split; [exact Hge|]. split; [lia|].
    replace (h + j + 1 - 1) with (h + j) by lia.
    split; [rewrite (list_lookup_total_correct _ _ _ Hj); exact Hbad|].
    intros j' Hlo Hhi. apply (Hgoods j Hall j'); lia.
  - intros (_ & Hk & Hbad & Hgood).
    destruct (parseRows d (drop h lines) h []) as [ps|e].
    + destruct Hspec as [Hall _]. rewrite Forall_lookup in Hall.
      rewrite (Hall (k - 1 - h) (lines !!! (k - 1))) in Hbad; [discriminate|].
      rewrite lookup_drop. replace (h + (k - 1 - h)) with (k - 1) by lia.
      apply list_lookup_lookup_total_lt. lia.
    + destruct Hspec as (j & line & -> & Hj & Hbadj & Hall).
      rewrite lookup_drop in Hj.
      assert (Hlt : h + j < length lines) by (apply lookup_lt_is_Some; eauto).
      rewrite <- (list_lookup_total_correct _ _ _ Hj) in Hbadj.
      destruct (lt_eq_lt_dec (h + j) (k - 1)) as [[Hless|Heq]|Hmore].
      * rewrite (Hgood (h + j)) in Hbadj by lia. discriminate.
      * do 2 f_equal. lia.
      * rewrite (Hgoods j Hall (k - 1)) in Hbad by lia. discriminate.
Qed.

(** ** Numbers as text *)

Lemma string_of_uint_digits (u : Decimal.uint) :
  allDigits (NilEmpty.string_of_uint u) = true.
Proof. induction u; simpl; try reflexivity; exact IHu. Qed.

Lemma Number_toString_digits (n : nat) :
  allDigits (Number_toString n) = true /\ Number_toString n <> EmptyString.
Proof.
  unfold Number_toString, NilZero.string_of_uint.
  pose proof (string_of_uint_digits (Nat.to_uint n)) as Hd.
  destruct (Nat.to_uint n); simpl in *; split; try discriminate; try reflexivity;
    exact Hd.
Qed.

Lemma allDigits_includes (c : ascii) (s : string) :
  isDigit c = false -> allDigits s = true -> includes c s = false.
Proof.
  intros Hc. induction s as [|x s IH]; simpl; [reflexivity|].
  intros Hs. apply andb_true_iff in Hs. destruct Hs as [Hx Hs].
  rewrite (IH Hs), orb_false_r.
  destruct (Ascii.eqb_spec x c) as [->|_]; [congruence|reflexivity].
Qed.

Lemma isDigit_not_space (c : ascii) : isDigit c = true -> isWhiteSpace c = false.
Proof.
  unfold isDigit, digitOf.
  destruct c as [[] [] [] [] [] [] [] []]; vm_compute; congruence.
Qed.

Lemma allDigits_trimEnd (s : string) : allDigits s = true -> trimEnd s = s.
Proof.
  induction s as [|c s IH]; [reflexivity|]. simpl allDigits.
  intros Hs. apply andb_true_iff in Hs. destruct Hs as [Hc Hs].
  rewrite trimEnd_cons by (apply isDigit_not_space; exact Hc).
  rewrite (IH Hs). reflexivity.
Qed.

Lemma allDigits_needsQuotes (s : string) : allDigits s = true -> needsQuotes s = false.
Proof.
  intros Hs. unfold needsQuotes.
  rewrite !(allDigits_includes _ s) by (try exact Hs; reflexivity). reflexivity.
Qed.

(** ** Lines put together and taken apart *)

Lemma concat_cons2 (sep x y : string) (l : list string) :
  String.concat sep (x :: y :: l) = x +:+ sep +:+ String.concat sep (y :: l).
Proof. reflexivity. Qed.

Lemma splitLines_concat (lines : list string) :
  lines <> [] ->
  Forall (fun l => includes LF l = false /\ trimEnd l = l) lines ->
  splitLines (String.concat newline lines) = lines.
Proof.
  intros Hne Hall. induction Hall as [|l lines [Hlf Hend] Hall IH]; [contradiction|].
  destruct lines as [|l' lines].
  - simpl. apply splitLines_plain. exact Hlf.
  - rewrite concat_cons2. unfold newline at 1. rewrite append_cons, append_nil_l.
    rewrite splitLines_append by assumption. f_equal. apply IH. discriminate.
Qed.

Lemma rosterLines_concat (lines : list string) :
  lines <> [] ->
  Forall (fun l => l <> EmptyString /\ trim l = l /\ includes LF l = false) lines ->
  rosterLines (String.concat newline lines) = lines.
Proof.
  intros Hne Hall. unfold rosterLines. rewrite splitLines_concat.
  - induction Hall as [|l lines (Hl & Htrim & _) _ IH]; [contradiction|].
    simpl. rewrite Htrim. destruct l as [|c l]; [contradiction|]. simpl. f_equal.
    destruct lines as [|l' lines]; [reflexivity|]. apply IH. discriminate.
  - exact Hne.
  - eapply Forall_impl; [exact Hall|]. intros l (_ & Htrim & Hlf).
    split; [exact Hlf|]. apply trim_fixed. exact Htrim.
Qed.

(** A line of plain fields with commas between them. *)
Lemma trim_line (a b : string) :
  a <> EmptyString -> trimStart a = a -> b <> EmptyString -> trimEnd b = b ->
  trim (a +:+ b) = a +:+ b.
Proof.
  intros Ha Hstart Hb Hend. unfold trim.
  destruct a as [|c a]; [contradiction|].
  assert (Hc : isWhiteSpace c = false).
  { simpl in Hstart. destruct (isWhiteSpace c) eqn:Hc; [|reflexivity].
    exfalso. destruct (trimStart_suffix a) as [w Hw].
    rewrite Hstart in Hw.
    assert (Hlen : String.length a = String.length w + S (String.length a)).
    { rewrite Hw at 1. rewrite length_append. reflexivity. }
    lia. }
  rewrite append_cons. rewrite trimStart_fixed by exact Hc.
  rewrite <- append_cons. apply trimEnd_append; assumption.
Qed.

Lemma comma_line_fields (nm rl rest : string) :
  includes COMMA nm = false -> includes COMMA rl = false ->
  trim nm = nm -> trim rl = rl ->
  exists fields,
    fieldsOf COMMA (nm +:+ "," +:+ rl +:+ "," +:+ rest) = nm :: rl :: fields.
Proof.
  intros Hnm Hrl Htn Htr. unfold fieldsOf.
  change ("," +:+ rl +:+ "," +:+ rest) with (String COMMA (rl +:+ String COMMA rest)).
  rewrite splitOn_append by exact Hnm. rewrite splitOn_append by exact Hrl.
  simpl. rewrite Htn, Htr. eauto.
Qed.

Lemma two_fields (nm rl : string) :
  includes COMMA nm = false -> includes COMMA rl = false ->
  trim nm = nm -> trim rl = rl ->
  fieldsOf COMMA (nm +:+ "," +:+ rl) = [nm; rl].
Proof.
  intros Hnm Hrl Htn Htr. unfold fieldsOf.
  change ("," +:+ rl) with (String COMMA rl).
  rewrite splitOn_append by exact Hnm. rewrite splitOn_plain by exact Hrl.
  simpl. rewrite Htn, Htr. reflexivity.
Qed.

Lemma cleanField_line (nm rl : string) :
  cleanField COMMA nm -> cleanField COMMA rl ->
  let line := nm +:+ "," +:+ rl in
  line <> EmptyString /\ trim line = line /\ includes LF line = false.
Proof.
  intros (Hn0 & Hn1 & Hn2 & Hn3) (Hr0 & Hr1 & Hr2 & Hr3) line.
  destruct (trim_fixed nm Hn1) as [Hns Hne].
  destruct (trim_fixed rl Hr1) as [Hrs Hre].
  split; [|split].
  - unfold line. destruct nm; [contradiction|discriminate].
  - apply trim_line; [exact Hn0|exact Hns| |].
    + discriminate.
    + change ("," +:+ rl) with (String COMMA EmptyString +:+ rl).
      apply trimEnd_append; assumption.
  - unfold line. rewrite !includes_append, Hn3, Hr3. reflexivity.
Qed.

(** X13. The check for two people counts lines, the header among them: a
    header and one line of a person are a roster of one, the same line
    without the header is refused. *)
Theorem parseRoster_counts_the_header (nm rl : string) :
  cleanField COMMA nm -> cleanField COMMA rl ->
  parseRoster ("Name,Role" +:+ newline +:+ nm +:+ "," +:+ rl)
  = Parsed [mkPerson nm rl]
  /\ parseRoster (nm +:+ "," +:+ rl) = ParseThrow NeedTwoPeople.
Proof.
  intros Hnm Hrl.
  pose proof (cleanField_line nm rl Hnm Hrl) as Hline. simpl in Hline.
  destruct Hnm as (Hn0 & Hn1 & Hn2 & Hn3). destruct Hrl as (Hr0 & Hr1 & Hr2 & Hr3).
  split.
  - assert (Hlines : rosterLines ("Name,Role" +:+ newline +:+ nm +:+ "," +:+ rl)
                     = ["Name,Role"%string; nm +:+ "," +:+ rl]).
    { apply (rosterLines_concat ["Name,Role"%string; nm +:+ "," +:+ rl]);
        [discriminate|].
      constructor; [|constructor; [exact Hline|constructor]].
      split; [discriminate|]. split; reflexivity. }
    rewrite parseRoster_unfold, Hlines. clear Hlines.
    change (delimiterOf (["Name,Role"%string; nm +:+ "," +:+ rl] !!! 0)) with COMMA.
    change (headerRows (fieldsOf COMMA (["Name,Role"%string; nm +:+ "," +:+ rl] !!! 0)))
      with 1.
    cbn [length Nat.ltb Nat.leb drop parseRows].
    rewrite two_fields by assumption.
    destruct nm; [contradiction|]. destruct rl; [contradiction|]. reflexivity.
  - assert (Hlines : rosterLines (nm +:+ "," +:+ rl) = [nm +:+ "," +:+ rl]).
    { apply (rosterLines_concat [nm +:+ "," +:+ rl]); [discriminate|].
      constructor; [exact Hline|constructor]. }
    rewrite parseRoster_unfold, Hlines. reflexivity.
Qed.

Lemma cleanField_Ann : cleanField COMMA "Ann".
Proof. split; [discriminate|]. split; [|split]; reflexivity. Qed.

Lemma cleanField_Dev : cleanField COMMA "Dev".
Proof. split; [discriminate|]. split; [|split]; reflexivity. Qed.

Lemma parseRoster_counts_the_header_witness :
  cleanField COMMA "Ann" /\ cleanField COMMA "Dev"
  /\ parseRoster ("Name,Role" +:+ newline +:+ "Ann" +:+ "," +:+ "Dev")
     = Parsed [mkPerson "Ann" "Dev"]
  /\ parseRoster ("Ann" +:+ "," +:+ "Dev") = ParseThrow NeedTwoPeople.
Proof.
  split; [exact cleanField_Ann|]. split; [exact cleanField_Dev|].
  exact (parseRoster_counts_the_header "Ann" "Dev" cleanField_Ann cleanField_Dev).
Defined.

(** ** The CSV download *)

Lemma append_inv_tail (a b c : string) : a +:+ c = b +:+ c -> a = b.
Proof.
  revert b. induction a as [|x a IH]; intros [|y b] Heq; app_simpl_in Heq.
  - reflexivity.
  - exfalso. apply (f_equal String.length) in Heq. simpl in Heq.
    rewrite length_append in Heq. lia.
  - exfalso. apply (f_equal String.length) in Heq. simpl in Heq.
    rewrite length_append in Heq. lia.
  - injection Heq as -> Heq. f_equal. apply IH. exact Heq.
Qed.

Lemma doubleQuotes_inj (s s' : string) : doubleQuotes s = doubleQuotes s' -> s = s'.
Proof.
  revert s'. induction s as [|c s IH]; intros [|c' s'] Heq; simpl in Heq.
  - reflexivity.
  - destruct (Ascii.eqb c' QUOTE); discriminate.
  - destruct (Ascii.eqb c QUOTE); discriminate.
  - destruct (Ascii.eqb_spec c QUOTE) as [->|Hc],
             (Ascii.eqb_spec c' QUOTE) as [->|Hc'].
    + injection Heq as Heq. f_equal. apply IH. exact Heq.
    + injection Heq as Hq _. congruence.
    + injection Heq as Hq _. congruence.
    + injection Heq as -> Heq. f_equal. apply IH. exact Heq.
Qed.

Lemma includes_cons (c x : ascii) (s : string) :
  includes c (String x s) = Ascii.eqb x c || includes c s.
Proof. reflexivity. Qed.

Lemma doubleQuotes_cons (x : ascii) (s : string) :
  doubleQuotes (String x s)
  = if Ascii.eqb x QUOTE then String QUOTE (String QUOTE (doubleQuotes s))
    else String x (doubleQuotes s).
Proof. reflexivity. Qed.

Lemma includes_doubleQuotes (c : ascii) (s : string) :
  includes c (doubleQuotes s) = includes c s.
Proof.
  induction s as [|x s IH]; [reflexivity|].
  rewrite doubleQuotes_cons.
  destruct (Ascii.eqb_spec x QUOTE) as [->|Hx]; rewrite !includes_cons, IH.
  - destruct (Ascii.eqb QUOTE c); reflexivity.
  - reflexivity.
Qed.

Lemma csvEscape_text (s : string) :
  csvEscape (Some (CsvText s))
  = if needsQuotes s
    then String QUOTE (doubleQuotes s +:+ String QUOTE EmptyString)
    else s.
Proof. reflexivity. Qed.

Lemma csvEscape_number (n : nat) :
  csvEscape (Some (CsvNumber n)) = Number_toString n.
Proof.
  unfold csvEscape, String_of.
  rewrite allDigits_needsQuotes by apply Number_toString_digits. reflexivity.
Qed.

Lemma csvEscape_inj (s s' : string) :
  csvEscape (Some (CsvText s)) = csvEscape (Some (CsvText s')) -> s = s'.
Proof.
  rewrite !csvEscape_text.
  destruct (needsQuotes s) eqn:Hs, (needsQuotes s') eqn:Hs'; intros Heq.
  - injection Heq as Heq. apply append_inv_tail in Heq.
    apply doubleQuotes_inj. exact Heq.
  - exfalso. subst s'. unfold needsQuotes in Hs'. simpl in Hs'. discriminate.
  - exfalso. subst s. unfold needsQuotes in Hs. simpl in Hs. discriminate.
  - exact Heq.
Qed.

(** X14. [csvEscape] keeps texts apart: two different texts are never
    written as the same cell. *)
Theorem csvEscape_injective (s s' : string) :
  s <> s' -> csvEscape (Some (CsvText s)) <> csvEscape (Some (CsvText s')).
Proof. intros Hne Heq. apply Hne. apply csvEscape_inj. exact Heq. Qed.

Lemma csvEscape_injective_witness :
  "Ann, Lee"%string <> "Ann"%string
  /\ csvEscape (Some (CsvText "Ann, Lee")) <> csvEscape (Some (CsvText "Ann")).
Proof.
  assert (Hne : "Ann, Lee"%string <> "Ann"%string) by discriminate.
  split; [exact Hne|].
  exact (csvEscape_injective "Ann, Lee" "Ann" Hne).
Defined.

Lemma includes_LF_csvEscape (s : string) :
  includes LF s = false -> includes LF (csvEscape (Some (CsvText s))) = false.
Proof.
  intros Hs. rewrite csvEscape_text. destruct (needsQuotes s); [|exact Hs].
  simpl. rewrite includes_append, includes_doubleQuotes, Hs. reflexivity.
Qed.

Lemma csvRow_eq (row : string * string * nat) :
  csvRow row
  = csvEscape (Some (CsvText row.1.1)) +:+ ","
    +:+ csvEscape (Some (CsvText row.1.2)) +:+ "," +:+ Number_toString row.2.
Proof. unfold csvRow. cbn [map]. rewrite csvEscape_number. reflexivity. Qed.

Lemma csvRow_line (row : string * string * nat) :
  includes LF row.1.1 = false -> includes LF row.1.2 = false ->
  includes LF (csvRow row) = false /\ trimEnd (csvRow row) = csvRow row.
Proof.
  intros Hnm Hrl. rewrite csvRow_eq.
  destruct (Number_toString_digits row.2) as [Hdigits Hne].
  split.
  - rewrite !includes_append, !includes_LF_csvEscape by assumption.
    rewrite (allDigits_includes LF (Number_toString row.2))
      by (try exact Hdigits; reflexivity).
    reflexivity.
  - rewrite <- !append_assoc.
    apply trimEnd_append; [exact Hne|]. apply allDigits_trimEnd. exact Hdigits.
Qed.

Lemma csvContent_concat (annotated : list (string * string * nat)) :
  annotated <> [] ->
  csvContent annotated
  = String.concat newline ("Name,Role,Group"%string :: map csvRow annotated).
Proof. intros Hne. destruct annotated; [contradiction|reflexivity]. Qed.

(** X15. When no name and no role holds a line feed, as in every roster
    that [parseRoster] returns, the file has the header line and then one
    line for each row. *)
Theorem csvContent_lines (annotated : list (string * string * nat)) :
  annotated <> [] ->
  Forall (fun row => includes LF row.1.1 = false /\ includes LF row.1.2 = false)
    annotated ->
  splitLines (csvContent annotated)
  = "Name,Role,Group"%string :: map csvRow annotated.
Proof.
  intros Hne Hrows. rewrite csvContent_concat by exact Hne.
  apply splitLines_concat; [discriminate|].
  constructor; [split; reflexivity|].
  apply Forall_forall. intros line Hline.
  apply list_elem_of_In, in_map_iff in Hline. destruct Hline as (row & <- & Hrow).
  rewrite Forall_forall in Hrows.
  destruct (Hrows row) as [Hnm Hrl]; [apply list_elem_of_In; exact Hrow|].
  apply csvRow_line; assumption.
Qed.

Lemma csvContent_lines_witness :
  threeRows <> []
  /\ Forall (fun row => includes LF row.1.1 = false /\ includes LF row.1.2 = false)
       threeRows
  /\ splitLines (csvContent threeRows)
     = "Name,Role,Group"%string :: map csvRow threeRows.
Proof.
  assert (Hne : threeRows <> []) by discriminate.
  assert (Hrows : Forall (fun row => includes LF row.1.1 = false
                                     /\ includes LF row.1.2 = false) threeRows)
    by (repeat constructor).
  split; [exact Hne|]. split; [exact Hrows|].
  exact (csvContent_lines threeRows Hne Hrows).
Defined.

Lemma plainField_parts (s : string) :
  plainField s ->
  s <> EmptyString /\ trimStart s = s /\ trimEnd s = s /\ trim s = s
  /\ includes COMMA s = false /\ includes LF s = false
  /\ csvEscape (Some (CsvText s)) = s.
Proof.
  intros (Hne & Htrim & Hq). destruct (trim_fixed s Htrim) as [Hs He].
  rewrite csvEscape_text, Hq.
  unfold needsQuotes in Hq. apply orb_false_iff in Hq. destruct Hq as [Hq Hlf].
  apply orb_false_iff in Hq. destruct Hq as [_ Hcomma]. auto 10.
Qed.

Lemma plain_row_line (row : string * string * nat) :
  plainField row.1.1 -> plainField row.1.2 ->
  csvRow row <> EmptyString /\ trim (csvRow row) = csvRow row
  /\ includes LF (csvRow row) = false
  /\ exists fields, fieldsOf COMMA (csvRow row) = row.1.1 :: row.1.2 :: fields.
Proof.
  intros Hnm Hrl.
  destruct (plainField_parts _ Hnm) as (Hn0 & Hn1 & Hn2 & Hn3 & Hn4 & Hn5 & Hn6).
  destruct (plainField_parts _ Hrl) as (Hr0 & Hr1 & Hr2 & Hr3 & Hr4 & Hr5 & Hr6).
  destruct (csvRow_line row Hn5 Hr5) as [Hlf Hend].
  rewrite csvRow_eq, Hn6, Hr6 in *.
  split; [|split; [|split; [exact Hlf|]]].
  - destruct row.1.1; [contradiction|discriminate].
  - apply trim_line; [exact Hn0|exact Hn1|discriminate|].
    destruct (Number_toString_digits row.2) as [Hdigits Hne].
    rewrite <- !append_assoc.
    apply trimEnd_append; [exact Hne|]. apply allDigits_trimEnd. exact Hdigits.
  - apply comma_line_fields; assumption.
Qed.

Lemma parseRows_plain (rows : list (string * string * nat)) (i : nat)
    (people : list person) :
  Forall (fun row => plainField row.1.1 /\ plainField row.1.2) rows ->
  parseRows COMMA (map csvRow rows) i people
  = Parsed (people ++ map rowPerson rows).
Proof.
  intros Hrows. revert i people.
  induction Hrows as [|row rows [Hnm Hrl] _ IH]; intros i people; simpl.
  - rewrite app_nil_r. reflexivity.
  - destruct (plain_row_line row Hnm Hrl) as (_ & _ & _ & fields & ->).
    destruct Hnm as [Hn0 _], Hrl as [Hr0 _].
    destruct row.1.1 eqn:Hn; [contradiction|].
    destruct row.1.2 eqn:Hr; [contradiction|].
    simpl. rewrite IH. rewrite <- app_assoc. simpl.
    unfold rowPerson at 2. rewrite Hn, Hr. reflexivity.
Qed.

(** X16. The downloaded file can be pasted back: when names and roles are
    not empty, trimmed and free of quotes, commas and line feeds,
    [parseRoster] reads from the file the people of its rows, row by
    row. *)
Theorem download_reimports (annotated : list (string * string * nat)) :
  annotated <> [] ->
  Forall (fun row => plainField row.1.1 /\ plainField row.1.2) annotated ->
  parseRoster (csvContent annotated) = Parsed (map rowPerson annotated).
Proof.
  intros Hne Hrows.
  assert (Hlines : rosterLines (csvContent annotated)
                   = "Name,Role,Group"%string :: map csvRow annotated).
  { rewrite csvContent_concat by exact Hne.
    apply rosterLines_concat; [discriminate|].
    constructor; [split; [discriminate|split; reflexivity]|].
    apply Forall_forall. intros line Hline.
    apply list_elem_of_In, in_map_iff in Hline. destruct Hline as (row & <- & Hrow).
    rewrite Forall_forall in Hrows.
    destruct (Hrows row) as [Hnm Hrl]; [apply list_elem_of_In; exact Hrow|].
    destruct (plain_row_line row Hnm Hrl) as (H0 & H1 & H2 & _). auto. }
  rewrite parseRoster_unfold, Hlines.
  change (delimiterOf (("Name,Role,Group"%string :: map csvRow annotated) !!! 0))
    with COMMA.
  change (headerRows
            (fieldsOf COMMA (("Name,Role,Group"%string :: map csvRow annotated) !!! 0)))
    with 1.
  destruct annotated as [|row rows]; [contradiction|].
  cbn [length map Nat.ltb Nat.leb drop].
  exact (parseRows_plain (row :: rows) 1 [] Hrows).
Qed.

Lemma threeRows_plain :
  Forall (fun row => plainField row.1.1 /\ plainField row.1.2) threeRows.
Proof.
  repeat constructor; try discriminate.
Qed.

Lemma download_reimports_witness :
  threeRows <> []
  /\ Forall (fun row => plainField row.1.1 /\ plainField row.1.2) threeRows
  /\ parseRoster (csvContent threeRows) = Parsed (map rowPerson threeRows).
Proof.
  assert (Hne : threeRows <> []) by discriminate.
  split; [exact Hne|]. split; [exact threeRows_plain|].
  exact (download_reimports threeRows Hne threeRows_plain).
Defined.

(** ** Line endings *)

Lemma splitLines_step (c : ascii) (rest : string) :
  splitLines (String c rest)
  = if Ascii.eqb c LF then EmptyString :: splitLines rest
    else
      match rest with
      | String c' rest' =>
          if Ascii.eqb c CR && Ascii.eqb c' LF
          then EmptyString :: splitLines rest'
          else consHead c (splitLines rest)
      | EmptyString => [String c EmptyString]
      end.
Proof. reflexivity. Qed.

(** A line followed by a carriage return and a line feed. *)
Lemma splitLines_crlf (l rest : string) :
  includes LF l = false ->
  splitLines (l +:+ String CR (String LF rest)) = l :: splitLines rest.
Proof.
  induction l as [|c l IH]; intros Hl.
  - rewrite append_nil_l, splitLines_step. reflexivity.
  - rewrite includes_cons in Hl. apply orb_false_iff in Hl. destruct Hl as [Hc Hl].
    rewrite append_cons, splitLines_step, Hc.
    destruct l as [|c' l'].
    + rewrite append_nil_l. change (Ascii.eqb CR LF) with false.
      rewrite andb_false_r. rewrite <- (append_nil_l (String CR (String LF rest))).
      rewrite IH by reflexivity. reflexivity.
    + rewrite append_cons.
      rewrite includes_cons in Hl. apply orb_false_iff in Hl. destruct Hl as [Hc' Hl'].
      rewrite Hc', andb_false_r. rewrite <- append_cons.
      rewrite IH by (rewrite includes_cons, Hc', Hl'; reflexivity). reflexivity.
Qed.

(** A line followed by a line feed alone: a carriage return at the end
    of the line goes with the line feed. *)
Lemma splitLines_lf (l rest : string) :
  includes LF l = false ->
  exists l0,
    splitLines (l +:+ String LF rest) = l0 :: splitLines rest
    /\ (l0 = l \/ l = l0 +:+ String CR EmptyString).
Proof.
  induction l as [|c l IH]; intros Hl.
  - exists EmptyString. rewrite append_nil_l, splitLines_step.
    split; [reflexivity|left; reflexivity].
  - rewrite includes_cons in Hl. apply orb_false_iff in Hl. destruct Hl as [Hc Hl].
    rewrite append_cons, splitLines_step, Hc.
    destruct l as [|c' l'].
    + rewrite append_nil_l. change (Ascii.eqb LF LF) with true. rewrite andb_true_r.
      destruct (Ascii.eqb_spec c CR) as [->|Hcr].
      * exists EmptyString. split; [reflexivity|right; reflexivity].
      * exists (String c EmptyString). rewrite splitLines_step.
        split; [reflexivity|left; reflexivity].
    + rewrite append_cons.
      pose proof Hl as Hl0.
      rewrite includes_cons in Hl. apply orb_false_iff in Hl. destruct Hl as [Hc' Hl'].
      rewrite Hc', andb_false_r. rewrite <- append_cons.
      destruct (IH Hl0) as (l0 & -> & Hl0').
      exists (String c l0). split; [reflexivity|].
      destruct Hl0' as [-> | ->]; [left; reflexivity|right; reflexivity].
Qed.

Lemma trimEnd_CR (x : string) : trimEnd (x +:+ String CR EmptyString) = trimEnd x.
Proof.
  induction x as [|c x IH]; [reflexivity|].
  rewrite append_cons, !trimEnd_step, IH. reflexivity.
Qed.

Lemma trim_CR (x : string) : trim (x +:+ String CR EmptyString) = trim x.
Proof.
  induction x as [|c x IH]; [reflexivity|].
  unfold trim in *. rewrite append_cons. simpl trimStart.
  destruct (isWhiteSpace c); [exact IH|].
  rewrite <- append_cons. apply trimEnd_CR.
Qed.

Lemma trimmed_lines_same (lines : list string) :
  Forall (fun l => includes LF l = false) lines ->
  map trim (splitLines (String.concat (String CR newline) lines))
  = map trim (splitLines (String.concat newline lines)).
Proof.
  induction 1 as [|l lines Hl Hlines IH]; [reflexivity|].
  destruct lines as [|l' lines]; [reflexivity|].
  rewrite !concat_cons2. unfold newline at 1 3.
  rewrite !append_cons, !append_nil_l.
  rewrite splitLines_crlf by exact Hl.
  destruct (splitLines_lf l (String.concat newline (l' :: lines)) Hl)
    as (l0 & -> & Hl0).
  cbn [map]. rewrite IH. f_equal.
  destruct Hl0 as [-> | ->]; [reflexivity|]. apply trim_CR.
Qed.

(** X17. Line endings make no difference: lines that are put together with
    a carriage return and a line feed are read like the same lines put
    together with a line feed alone. *)
Theorem parseRoster_line_endings (lines : list string) :
  Forall (fun l => includes LF l = false) lines ->
  parseRoster (String.concat (String CR newline) lines)
  = parseRoster (String.concat newline lines).
Proof.
  intros Hlines. rewrite !parseRoster_unfold. unfold rosterLines.
  rewrite (trimmed_lines_same lines Hlines). reflexivity.
Qed.

Lemma parseRoster_line_endings_witness :
  Forall (fun l => includes LF l = false) ["Ann,Dev"; "Bob,Ops"]%string
  /\ parseRoster (String.concat (String CR newline) ["Ann,Dev"; "Bob,Ops"]%string)
     = parseRoster (String.concat newline ["Ann,Dev"; "Bob,Ops"]%string).
Proof.
  assert (Hlines : Forall (fun l => includes LF l = false) ["Ann,Dev"; "Bob,Ops"]%string)
    by (repeat constructor).
  split; [exact Hlines|].
  exact (parseRoster_line_endings ["Ann,Dev"; "Bob,Ops"]%string Hlines).
Defined.

(** ** [allocateGroups] on what [parseRoster] returns *)

Lemma groupByRole_roles (people : list person) (byRole byRole' : obj (list person)) :
  (forall k, k ∈ byRole.*1 -> inheritedName k = false) ->
  groupByRole people byRole = Ok byRole' ->
  Forall (fun p => inheritedName (role p) = false) people.
Proof.
  revert byRole. induction people as [|p people IH]; intros byRole Hkeys Hrun;
    [constructor|].
  simpl in Hrun.
  destruct (addPerson byRole p) as [byRole1|e] eqn:Hadd; [|discriminate].
  unfold addPerson in Hadd.
  destruct (objGet byRole (role p)) as [pool|] eqn:Hget.
  - inversion Hadd; subst byRole1.
    assert (Hin : role p ∈ byRole.*1).
    { apply objGet_elem_of in Hget. apply (list_elem_of_fmap_2 fst) in Hget. exact Hget. }
    constructor; [apply Hkeys; exact Hin|].
    apply (IH (objSet byRole (role p) (pool ++ [p]))); [|exact Hrun].
    rewrite keys_objSet_in by exact Hin. exact Hkeys.
  - destruct (inheritedName (role p)) eqn:Hname; [discriminate|].
    inversion Hadd; subst byRole1.
    constructor; [exact Hname|]. apply (IH (objSet byRole (role p) [p])); [|exact Hrun].
    intros k Hk. apply objGet_None in Hget.
    rewrite objSet_fresh in Hk by exact Hget.
    rewrite fmap_app in Hk. apply elem_of_app in Hk. destruct Hk as [Hk|Hk].
    + apply Hkeys. exact Hk.
    + apply list_elem_of_singleton in Hk. subst k. exact Hname.
Qed.

(** A roster without an empty role is allocated or refused with a fuel
    that only depends on its length. *)
Lemma allocateGroups_ends (people : list person) (v : jsvalue) (src : list nat) :
  1 <= length people ->
  Forall (fun p => role p <> EmptyString) people ->
  exists res src', forall fuel, length people < fuel ->
    allocateGroups fuel people v src = Some (res, src').
Proof.
  intros Hn Hroles.
  destruct (computeGroupSizes (length people) v) as [sizes|e] eqn:Hsizes.
  2: { exists (Throw e), src. intros fuel _. unfold allocateGroups.
       rewrite Hsizes. reflexivity. }
  destruct (groupByRole people []) as [byRole0|e] eqn:Hgroup.
  2: { exists (Throw e), src. intros fuel _. unfold allocateGroups.
       rewrite Hsizes, Hgroup. reflexivity. }
  assert (Hd : exists d, v = JNumber d /\ (2 <= d)%Q).
  { unfold computeGroupSizes in Hsizes. destruct v as [q|neg| |]; try discriminate.
    exists q. split; [reflexivity|]. simpl in Hsizes.
    destruct (Qle_bool 2 q) eqn:Hq; [|discriminate]. apply Qle_bool_iff. exact Hq. }
  destruct Hd as (d & -> & Hd).
  pose proof (groupByRole_roles people [] byRole0
                ltac:(intros k Hk; apply elem_of_nil in Hk; contradiction) Hgroup)
    as Hnames.
  destruct (allocateGroups_returns people d src Hn Hd) as (groups & annotated & src' & Hrun).
  { rewrite Forall_forall in Hroles, Hnames |- *. intros p Hp. split; auto. }
  exists (Ok (groups, annotated)), src'. exact Hrun.
Qed.

(** ** The handlers *)

Lemma parsed_roster_ends (text : string) (roster : list person) (v : jsvalue)
    (src : list nat) :
  parseRoster text = Parsed roster ->
  exists res src', forall fuel, length (rosterLines text) < fuel ->
    allocateGroups fuel roster v src = Some (res, src').
Proof.
  intros Hparse.
  destruct (parsed_people_clean text roster Hparse) as (Hclean & Hlen & Hone).
  destruct (allocateGroups_ends roster v src Hone) as (res & src' & Hrun).
  { eapply Forall_impl; [exact Hclean|]. intros p [_ (Hne & _)]. exact Hne. }
  exists res, src'. intros fuel Hfuel. apply Hrun. lia.
Qed.

Section handler_properties.
Variable typeErrorMessage : string.

(** X18. A click on Generate always comes to an end, whatever the two
    inputs hold and whatever the random numbers are: [parseRoster] lets no
    empty role through, so the residual loop of [computeRoleTargets] ends,
    with a fuel of more than the number of lines of the roster. *)
Theorem onGenerate_returns (src : list nat) (pg : page) :
  exists pg' src', forall fuel,
    length (rosterLines (csvInput_value pg)) < fuel ->
    onGenerate typeErrorMessage fuel src pg = Some (pg', src').
Proof.
  unfold onGenerate. cbn [csvInput_value groupSizeInput_value setLink setResults
                            clearError setError].
  destruct (parseRoster (csvInput_value pg)) as [roster|e] eqn:Hparse.
  2: { destruct (parseInt (groupSizeInput_value pg)); eauto. }
  destruct (parseInt (groupSizeInput_value pg)) as [q|neg| |] eqn:Hint.
  3: { eauto. }
  all: match goal with
       | |- context [allocateGroups _ ?r ?v ?s] =>
           destruct (parsed_roster_ends _ r v s Hparse) as (res & src' & Hrun)
       end.
  all: destruct res as [[groups annotated]|e].
  all: eexists _, src'; intros fuel Hfuel; rewrite (Hrun fuel Hfuel); reflexivity.
Qed.

Lemma buildDownload_shows (annotated : list (string * string * nat)) (pg : page) :
  let pg' := buildDownload annotated pg in
  errorBox_innerText pg' = errorBox_innerText pg
  /\ errorBox_display pg' = errorBox_display pg
  /\ resultsContainer_innerHTML pg' = resultsContainer_innerHTML pg
  /\ downloadLink_display pg' = "inline-flex"%string
  /\ exists url,
       downloadLink_href pg' = Some url
       /\ downloadLink_onclick pg' = Some url
       /\ lastObjectUrl pg' = Some url
       /\ (url, csvContent annotated) ∈ objectUrls pg'
       /\ timeouts pg' = timeouts pg.
Proof.
  unfold buildDownload. destruct (lastObjectUrl pg); cbn.
  all: repeat (split; [reflexivity|]).
  all: eexists; repeat (split; [reflexivity|]).
  all: split; [apply elem_of_cons; left; reflexivity|reflexivity].
Qed.

(** X19. A click on Generate leaves the page in one of two states.  Either
    a message is shown, the results are empty and the link is hidden; the
    message is then one of those of the inputs (no integer, too few lines,
    a line without name or role, a size below 2) or the TypeError of a
    role named like a member of [Object.prototype], never one of the
    internal errors.  Or no message is shown, the results are the panels
    of the groups, never the placeholder, the groups hold the people of
    the roster, and the link is shown and points to the file of these
    groups. *)
Theorem onGenerate_shows (fuel : nat) (src : list nat) (pg pg' : page)
    (src' : list nat) :
  onGenerate typeErrorMessage fuel src pg = Some (pg', src') ->
  (errorBox_display pg' = "block"%string
   /\ resultsContainer_innerHTML pg' = EmptyString
   /\ downloadLink_display pg' = "none"%string
   /\ downloadLink_href pg' = None
   /\ (errorBox_innerText pg' = "Group Size must be an integer (e.g., 4)."%string
       \/ (exists e, errorBox_innerText pg' = rosterMessage e)
       \/ errorBox_innerText pg' = errorMessage typeErrorMessage GroupSizeError
       \/ errorBox_innerText pg' = errorMessage typeErrorMessage PushTypeError))
  \/ (errorBox_display pg' = "none"%string
      /\ errorBox_innerText pg' = EmptyString
      /\ downloadLink_display pg' = "inline-flex"%string
      /\ exists roster groups annotated url,
           parseRoster (csvInput_value pg) = Parsed roster
           /\ concat groups ≡ₚ roster
           /\ groups <> []
           /\ map rowPerson annotated = concat groups
           /\ resultsContainer_innerHTML pg'
              = String.concat EmptyString (imap groupPanel groups)
           /\ downloadLink_href pg' = Some url
           /\ (url, csvContent annotated) ∈ objectUrls pg').
Proof.
  unfold onGenerate. cbn [csvInput_value groupSizeInput_value setLink setResults
                            clearError setError].
  set (pg3 := setLink _ _ _ _ _).
  assert (Herr : forall msg, let pg' := showError msg pg3 in
             errorBox_display pg' = "block"%string
             /\ resultsContainer_innerHTML pg' = EmptyString
             /\ downloadLink_display pg' = "none"%string
             /\ downloadLink_href pg' = None
             /\ errorBox_innerText pg' = msg).
  { intros msg. cbn. auto. }
  destruct (parseInt (groupSizeInput_value pg)) as [q|neg| |] eqn:Hint.
  3: { intros [= <- <-]. left.
       destruct (Herr "Group Size must be an integer (e.g., 4)."%string)
         as (H1 & H2 & H3 & H4 & H5).
       auto 10. }
  all: destruct (parseRoster (csvInput_value pg)) as [roster|e] eqn:Hparse.
  all: try (intros [= <- <-]; left;
            destruct (Herr (rosterMessage e)) as (H1 & H2 & H3 & H4 & H5);
            split; [exact H1|]; split; [exact H2|]; split; [exact H3|];
            split; [exact H4|]; right; left; exists e; exact H5).
  all: destruct (parsed_people_clean _ roster Hparse) as (_ & _ & Hone).
  all: match goal with
       | |- context [allocateGroups ?f ?r ?v ?s] =>
           destruct (allocateGroups f r v s) as [[res src1]|] eqn:Hrun;
             [pose proof (allocateGroups_outcome f r v s res src1 Hone Hrun)
                as Hout|discriminate]
       end.
  all: destruct res as [[groups annotated]|e]; intros [= <- <-].
  all: try (left; destruct (Herr (errorMessage typeErrorMessage e))
                    as (H1 & H2 & H3 & H4 & H5);
            split; [exact H1|]; split; [exact H2|]; split; [exact H3|];
            split; [exact H4|]; right; right;
            destruct Hout as [-> | ->]; [left|right]; exact H5).
  all: right.
  all: destruct Hout as (sizes & Hsizes & Hperm & Hlen & _ & Hrows).
  all: assert (Hgroups : groups <> [])
         by (intros ->; apply Permutation_length in Hperm; simpl in Hperm; lia).
  all: assert (Hrender : renderResults groups pg3
                         = setResults (String.concat EmptyString (imap groupPanel groups)) pg3)
         by (unfold renderResults; destruct groups; [contradiction|reflexivity]).
  all: rewrite Hrender.
  all: destruct (buildDownload_shows annotated
                   (setResults (String.concat EmptyString (imap groupPanel groups)) pg3))
         as (H1 & H2 & H3 & H4 & url & H5 & _ & _ & H6 & _).
  all: split; [rewrite H2; reflexivity|].
  all: split; [rewrite H1; reflexivity|].
  all: split; [exact H4|].
  all: exists roster, groups, annotated, url.
  all: split; [reflexivity|]. all: split; [exact Hperm|].
  all: split; [exact Hgroups|].
  all: split; [rewrite Hrows; apply annotate_people; lia|].
  all: split; [|split; [exact H5|exact H6]].
  all: rewrite H3; reflexivity.
Qed.
End handler_properties.

(** ** Object URLs *)

Lemma noLeak_same (pg pg' : page) :
  objectUrls pg' = objectUrls pg -> lastObjectUrl pg' = lastObjectUrl pg ->
  noLeak pg -> noLeak pg'.
Proof. unfold noLeak. intros -> ->. auto. Qed.

Lemma noLeak_revoke_last (pg : page) (old : nat) :
  noLeak pg -> lastObjectUrl pg = Some old ->
  objectUrls (revokeObjectURL old pg) = [].
Proof.
  unfold noLeak. intros Hpg Hlast. cbn.
  destruct (objectUrls pg) as [|[url content] [|? ?]]; [reflexivity| |contradiction].
  rewrite Hlast in Hpg. injection Hpg as ->. simpl. rewrite Nat.eqb_refl. reflexivity.
Qed.

Lemma noLeak_none (pg : page) :
  noLeak pg -> lastObjectUrl pg = None -> objectUrls pg = [].
Proof.
  unfold noLeak. intros Hpg Hlast.
  destruct (objectUrls pg) as [|[url content] [|? ?]]; [reflexivity| |contradiction].
  congruence.
Qed.

Lemma buildDownload_noLeak (annotated : list (string * string * nat)) (pg : page) :
  noLeak pg -> noLeak (buildDownload annotated pg).
Proof.
  intros Hpg. unfold buildDownload.
  destruct (lastObjectUrl pg) as [old|] eqn:Hlast.
  - pose proof (noLeak_revoke_last pg old Hpg Hlast) as Hempty.
    unfold noLeak. cbn. cbn in Hempty. rewrite Hempty. reflexivity.
  - pose proof (noLeak_none pg Hpg Hlast) as Hempty.
    unfold noLeak. cbn. rewrite Hempty. reflexivity.
Qed.

Lemma onClear_noLeak (pg : page) :
  noLeak pg -> objectUrls (onClear pg) = [] /\ lastObjectUrl (onClear pg) = None.
Proof.
  intros Hpg. unfold onClear.
  cbn [lastObjectUrl setLink setResults setInputs clearError setError].
  destruct (lastObjectUrl pg) as [old|] eqn:Hlast.
  - pose proof (noLeak_revoke_last pg old Hpg Hlast) as Hempty.
    cbn. cbn in Hempty. rewrite Hempty. split; reflexivity.
  - pose proof (noLeak_none pg Hpg Hlast) as Hempty.
    cbn. rewrite Hempty, Hlast. split; reflexivity.
Qed.

Lemma onTimeout_noLeak (url : nat) (pg : page) : noLeak pg -> noLeak (onTimeout url pg).
Proof.
  intros Hpg. unfold onTimeout.
  change (lastObjectUrl (revokeObjectURL url pg)) with (lastObjectUrl pg).
  unfold noLeak in *.
  destruct (objectUrls pg) as [|[live content] [|? ?]] eqn:Hurls; [| |contradiction].
  - destruct (lastObjectUrl pg) as [last|]; [destruct (last =? url)|];
      cbn; rewrite Hurls; exact I.
  - rewrite Hpg. destruct (Nat.eqb_spec live url) as [->|Hne]; cbn; rewrite Hurls; simpl.
    + rewrite Nat.eqb_refl. exact I.
    + destruct (Nat.eqb_spec live url); [contradiction|]. simpl. exact Hpg.
Qed.

Section event_properties.
Variable typeErrorMessage : string.

Lemma onGenerate_noLeak (fuel : nat) (src : list nat) (pg pg' : page)
    (src' : list nat) :
  noLeak pg -> onGenerate typeErrorMessage fuel src pg = Some (pg', src') ->
  noLeak pg'.
Proof.
  intros Hpg. unfold onGenerate.
  cbn [csvInput_value groupSizeInput_value setLink setResults clearError setError].
  set (pg3 := setLink _ _ _ _ _).
  assert (Hpg3 : noLeak pg3) by exact Hpg.
  assert (Herr : forall msg, noLeak (showError msg pg3)) by (intros msg; exact Hpg).
  assert (Hok : forall groups annotated,
             noLeak (buildDownload annotated (renderResults groups pg3))).
  { intros groups annotated. apply buildDownload_noLeak.
    unfold renderResults. destruct (length groups =? 0); exact Hpg. }
  destruct (parseInt (groupSizeInput_value pg)) as [q|neg| |].
  3: { intros [= <- <-]. apply Herr. }
  all: destruct (parseRoster (csvInput_value pg)) as [roster|e];
    [|intros [= <- <-]; apply Herr].
  all: match goal with
       | |- context [allocateGroups ?f ?r ?v ?s] =>
           destruct (allocateGroups f r v s) as [[[[groups annotated]|e] src1]|];
             [| |discriminate]
       end.
  all: intros [= <- <-]; first [apply Hok|apply Herr].
Qed.

Lemma step_noLeak (ev : event) (pg pg' : page) :
  noLeak pg -> step typeErrorMessage ev pg = Some pg' -> noLeak pg'.
Proof.
  intros Hpg. destruct ev as [fuel src| |text|text| |k]; simpl.
  - destruct (onGenerate typeErrorMessage fuel src pg) as [[pg1 src1]|] eqn:Hrun;
      [|discriminate].
    intros [= <-]. eapply onGenerate_noLeak; eassumption.
  - intros [= <-]. destruct (onClear_noLeak pg Hpg) as [Hurls Hlast].
    unfold noLeak. rewrite Hurls. exact I.
  - intros [= <-]. exact Hpg.
  - intros [= <-]. exact Hpg.
  - intros [= <-]. unfold onDownloadClick.
    destruct (downloadLink_onclick pg); exact Hpg.
  - destruct (timeouts pg !! k) as [url|]; intros [= <-]; [|exact Hpg].
    apply onTimeout_noLeak. exact Hpg.
Qed.

Lemma run_noLeak (events : list event) (pg pg' : page) :
  noLeak pg -> run typeErrorMessage events pg = Some pg' -> noLeak pg'.
Proof.
  revert pg. induction events as [|ev events IH]; intros pg Hpg; simpl.
  - intros [= <-]. exact Hpg.
  - destruct (step typeErrorMessage ev pg) as [pg1|] eqn:Hstep; [|discriminate].
    apply IH. eapply step_noLeak; eassumption.
Qed.

(** X20. Object URLs do not pile up.  From a page on which no object URL
    is live, whatever is clicked, typed and timed out, at most one object
    URL is live afterwards, and it is the one that [lastObjectUrl] holds,
    which the next download or a click on Clear revokes. *)
Theorem object_urls_do_not_pile_up (events : list event) (pg pg' : page) :
  objectUrls pg = [] ->
  run typeErrorMessage events pg = Some pg' ->
  length (objectUrls pg') <= 1
  /\ (forall url content,
        (url, content) ∈ objectUrls pg' -> lastObjectUrl pg' = Some url)
  /\ objectUrls (onClear pg') = [].
Proof.
  intros Hstart Hrun.
  assert (Hpg : noLeak pg) by (unfold noLeak; rewrite Hstart; exact I).
  pose proof (run_noLeak events pg pg' Hpg Hrun) as Hpg'.
  split; [|split].
  - unfold noLeak in Hpg'.
    destruct (objectUrls pg') as [|[? ?] [|? ?]]; simpl; [lia|lia|contradiction].
  - intros url content Hin. unfold noLeak in Hpg'.
    destruct (objectUrls pg') as [|[live c] [|? ?]]; [| |contradiction].
    + apply elem_of_nil in Hin. contradiction.
    + apply list_elem_of_singleton in Hin. injection Hin as -> _. exact Hpg'.
  - apply onClear_noLeak. exact Hpg'.
Qed.

(** X21. The link works once.  After a click on Generate that shows the
    link, the link points to a live object URL; a click on the link sets a
    timer for that URL, and once the timer has fired the link is still
    shown and still points to the URL, which is revoked. *)
Theorem download_link_works_once (fuel : nat) (src : list nat) (pg pg1 : page)
    (src' : list nat) :
  onGenerate typeErrorMessage fuel src pg = Some (pg1, src') ->
  downloadLink_display pg1 = "inline-flex"%string ->
  exists url,
    downloadLink_href pg1 = Some url
    /\ (url ∈ (objectUrls pg1).*1)
    /\ timeouts (onDownloadClick pg1) = timeouts pg1 ++ [url]
    /\ (let pg3 := onTimeout url (onDownloadClick pg1) in
        downloadLink_display pg3 = "inline-flex"%string
        /\ downloadLink_href pg3 = Some url
        /\ (url ∉ (objectUrls pg3).*1)
        /\ lastObjectUrl pg3 = None).
Proof.
  intros Hrun Hshown.
  assert (Hbuilt : exists annotated pgr, pg1 = buildDownload annotated pgr).
  { revert Hrun. unfold onGenerate.
    cbn [csvInput_value groupSizeInput_value setLink setResults clearError setError].
    set (pg3 := setLink _ _ _ _ _).
    assert (Herr : forall msg, Some (showError msg pg3, src) = Some (pg1, src') ->
               exists annotated pgr, pg1 = buildDownload annotated pgr).
    { intros msg [= <- <-]. cbn in Hshown. discriminate. }
    destruct (parseInt (groupSizeInput_value pg)) as [q|neg| |]; [| |apply Herr|].
    all: destruct (parseRoster (csvInput_value pg)) as [roster|e]; [|apply Herr].
    all: match goal with
         | |- context [allocateGroups ?f ?r ?v ?s] =>
             destruct (allocateGroups f r v s) as [[[[groups annotated]|e] src1]|];
               [| |discriminate]
         end.
    all: intros [= <- <-]; first [cbn in Hshown; discriminate|eauto]. }
  destruct Hbuilt as (annotated & pgr & ->).
  destruct (buildDownload_shows annotated pgr)
    as (_ & _ & _ & _ & url & Hhref & Hclick & Hlast & Hlive & _).
  remember (buildDownload annotated pgr) as pg1 eqn:Hpg1. clear Hpg1 Hrun.
  exists url. split; [exact Hhref|]. split.
  { apply (list_elem_of_fmap_2 fst) in Hlive. exact Hlive. }
  assert (Hclicked : onDownloadClick pg1 = setTimeouts (timeouts pg1 ++ [url]) pg1)
    by (unfold onDownloadClick; rewrite Hclick; reflexivity).
  rewrite Hclicked. split; [reflexivity|].
  unfold onTimeout.
  cbn [lastObjectUrl revokeObjectURL setUrls setTimeouts]. rewrite Hlast.
  rewrite Nat.eqb_refl. cbn. split; [exact Hshown|]. split; [exact Hhref|].
  split; [|reflexivity].
  intros Hin. apply list_elem_of_fmap in Hin. destruct Hin as ([u c] & Hu & Hin).
  simpl in Hu. subst u.
  apply list_elem_of_In, filter_In in Hin. destruct Hin as [_ Hne].
  simpl in Hne. rewrite Nat.eqb_refl in Hne. discriminate.
Qed.
End event_properties.

Lemma onGenerate_shows_witness :
  onGenerate "TypeError" 4 draws startPage
  = Some (generatedPage, [5; 9; 2; 6; 5; 3; 5; 8; 9; 7; 9])
  /\ ((errorBox_display generatedPage = "block"%string
       /\ resultsContainer_innerHTML generatedPage = EmptyString
       /\ downloadLink_display generatedPage = "none"%string
       /\ downloadLink_href generatedPage = None
       /\ (errorBox_innerText generatedPage
           = "Group Size must be an integer (e.g., 4)."%string
           \/ (exists e, errorBox_innerText generatedPage = rosterMessage e)
           \/ errorBox_innerText generatedPage
              = errorMessage "TypeError" GroupSizeError
           \/ errorBox_innerText generatedPage
              = errorMessage "TypeError" PushTypeError))
      \/ (errorBox_display generatedPage = "none"%string
          /\ errorBox_innerText generatedPage = EmptyString
          /\ downloadLink_display generatedPage = "inline-flex"%string
          /\ exists roster groups annotated url,
               parseRoster (csvInput_value startPage) = Parsed roster
               /\ concat groups ≡ₚ roster
               /\ groups <> []
               /\ map rowPerson annotated = concat groups
               /\ resultsContainer_innerHTML generatedPage
                  = String.concat EmptyString (imap groupPanel groups)
               /\ downloadLink_href generatedPage = Some url
               /\ (url, csvContent annotated) ∈ objectUrls generatedPage)).
Proof.
  assert (Hrun : onGenerate "TypeError" 4 draws startPage
                 = Some (generatedPage, [5; 9; 2; 6; 5; 3; 5; 8; 9; 7; 9]))
    by (vm_compute; reflexivity).
  split; [exact Hrun|].
  exact (onGenerate_shows "TypeError" 4 draws startPage generatedPage
           [5; 9; 2; 6; 5; 3; 5; 8; 9; 7; 9] Hrun).
Defined.

Lemma object_urls_do_not_pile_up_witness :
  objectUrls startPage = []
  /\ run "TypeError" [GenerateClicked 4 draws; GenerateClicked 4 draws] startPage
     = Some regeneratedPage
  /\ length (objectUrls regeneratedPage) <= 1
  /\ (forall url content,
        (url, content) ∈ objectUrls regeneratedPage ->
        lastObjectUrl regeneratedPage = Some url)
  /\ objectUrls (onClear regeneratedPage) = [].
Proof.
  assert (Hstart : objectUrls startPage = []) by reflexivity.
  assert (Hrun : run "TypeError" [GenerateClicked 4 draws; GenerateClicked 4 draws]
                   startPage = Some regeneratedPage)
    by (vm_compute; reflexivity).
  split; [exact Hstart|]. split; [exact Hrun|].
  exact (object_urls_do_not_pile_up "TypeError"
           [GenerateClicked 4 draws; GenerateClicked 4 draws]
           startPage regeneratedPage Hstart Hrun).
Defined.

Lemma download_link_works_once_witness :
  onGenerate "TypeError" 4 draws startPage
  = Some (generatedPage, [5; 9; 2; 6; 5; 3; 5; 8; 9; 7; 9])
  /\ downloadLink_display generatedPage = "inline-flex"%string
  /\ exists url,
       downloadLink_href generatedPage = Some url
       /\ (url ∈ (objectUrls generatedPage).*1)
       /\ timeouts (onDownloadClick generatedPage) = timeouts generatedPage ++ [url]
       /\ (let pg3 := onTimeout url (onDownloadClick generatedPage) in
           downloadLink_display pg3 = "inline-flex"%string
           /\ downloadLink_href pg3 = Some url
           /\ (url ∉ (objectUrls pg3).*1)
           /\ lastObjectUrl pg3 = None).
Proof.
  assert (Hrun : onGenerate "TypeError" 4 draws startPage
                 = Some (generatedPage, [5; 9; 2; 6; 5; 3; 5; 8; 9; 7; 9]))
    by (vm_compute; reflexivity).
  assert (Hshown : downloadLink_display generatedPage = "inline-flex"%string)
    by reflexivity.
  split; [exact Hrun|]. split; [exact Hshown|].
  exact (download_link_works_once "TypeError" 4 draws startPage generatedPage
           [5; 9; 2; 6; 5; 3; 5; 8; 9; 7; 9] Hrun Hshown).
Defined.
